(** * CanvasUIMark: input routing, focus and widget state

    A shallow embedding of [canvasUImark.js].  The file follows the source
    class by class: JavaScript numbers and strings, the [Control] base class,
    the [Button], [Toggle], [TextInput], [Slider] and [Panel] widgets, the
    [Modal] dialog and the [CanvasUIMark] manager that owns the control list,
    the focus index and the modal stack.

    Conventions of the model.
    - A JavaScript number is an exact rational ([Q]) where the source computes
      with pixel coordinates or slider values, and an integer ([Z]) where it
      is an index or a length.  IEEE rounding is not modelled, and neither are
      [NaN] and the infinities: where the source divides, either the model
      branches on the zero divisor or the statements about that path assume
      the divisor is not zero.
    - Objects have identity.  The manager's [controls] and [modals] arrays hold
      references ([nat]); the objects live in two stores ([gmap]).
    - A user callback is opaque application code.  Calling one is recorded in
      the manager's [log]; what the callback then does is not part of the
      library, and it is taken to return normally.  The one callback the
      library itself creates, the default [OK] button's [() => this.close()],
      is modelled by what it does.
    - Drawing code, the [update(deltaTime)] timers, toasts and the DOM
      ([preventDefault], [requestAnimationFrame]) are left out; so are [Menu]
      and [Radio], which the manager reaches through the same optional
      methods as the widgets modelled here. *)

From Stdlib Require Import QArith Qminmax Qround Lqa.
From stdpp Require Import gmap strings list.

Local Open Scope Z_scope.

(** ** JavaScript numbers, arrays and strings *)

Module JS.

(** [a < b] and [a !== b] on numbers. *)
Definition ltb (a b : Q) : bool := negb (Qle_bool b a).
Definition neqb (a b : Q) : bool := negb (Qeq_bool a b).

(** [Math.max(a, b)] and [Math.min(a, b)]. *)
Definition max (a b : Q) : Q := Qmax a b.
Definition min (a b : Q) : Q := Qmin a b.

(** [Math.round(a)]: the nearest integer, ties towards plus infinity. *)
Definition round (a : Q) : Z := Qfloor (a + (1 # 2))%Q.

(** [a % b] on integers, [b] not zero: the remainder takes the sign of the
    dividend. *)
Definition rem (a b : Z) : Z := Z.rem a b.

(** [a.length] and [a[i]] of an array; [a[i]] is [undefined] out of range. *)
Definition len {A} (l : list A) : Z := Z.of_nat (length l).
Definition get {A} (l : list A) (i : Z) : option A :=
  if i <? 0 then None else l !! Z.to_nat i.

(** [a.indexOf(r)]: the first position of [r], or [-1]. *)
Fixpoint indexOf (l : list nat) (r : nat) : Z :=
  match l with
  | [] => -1
  | r' :: rest =>
      if Nat.eqb r' r then 0
      else let i := indexOf rest r in if i <? 0 then -1 else i + 1
  end.

(** [a.splice(i, 1)] for an index found by [indexOf]. *)
Definition splice1 {A} (l : list A) (i : Z) : list A := delete (Z.to_nat i) l.

(** [s.length] of a string, and the prefix and suffix of a string. *)
Definition strlen (s : string) : Z := Z.of_nat (String.length s).

Fixpoint take (n : nat) (s : string) : string :=
  match n, s with
  | S n', String c s' => String c (take n' s')
  | _, _ => EmptyString
  end.

Fixpoint drop (n : nat) (s : string) : string :=
  match n, s with
  | S n', String _ s' => drop n' s'
  | _, _ => s
  end.

(** [s.slice(from, to)]: a negative index counts from the end, and both
    are clamped into the string. *)
Definition sliceIndex (n i : Z) : Z :=
  if i <? 0 then Z.max (n + i) 0 else Z.min i n.

Definition slice (s : string) (from to : Z) : string :=
  let a := sliceIndex (strlen s) from in
  let b := sliceIndex (strlen s) to in
  take (Z.to_nat (b - a)) (drop (Z.to_nat a) s).

(** [s.slice(from)] *)
Definition sliceFrom (s : string) (from : Z) : string :=
  slice s from (strlen s).

(** [s.toLowerCase()] on the letters [A] to [Z]. *)
Definition lowerChar (c : Ascii.ascii) : Ascii.ascii :=
  let n := Ascii.nat_of_ascii c in
  if (Nat.leb 65 n && Nat.leb n 90)%bool
  then Ascii.ascii_of_nat (n + 32) else c.

Fixpoint toLowerCase (s : string) : string :=
  match s with
  | EmptyString => EmptyString
  | String c s' => String (lowerChar c) (toLowerCase s')
  end.

(** A selection index.  [x % 0] is [NaN], and [NaN] stays [NaN] through
    arithmetic; [a[NaN]] is [undefined]. *)
Inductive index :=
  | At (i : Z)
  | NaN.

(** [i + k] and [i % n] on a selection index. *)
Definition plus (i : index) (k : Z) : index :=
  match i with
  | At z => At (z + k)
  | NaN => NaN
  end.

Definition modulo (i : index) (n : Z) : index :=
  match i with
  | At z => if n =? 0 then NaN else At (rem z n)
  | NaN => NaN
  end.

(** [a[i]] for a selection index. *)
Definition at_ {A} (l : list A) (i : index) : option A :=
  match i with
  | At z => get l z
  | NaN => None
  end.

(** [ToInt32]: the 32-bit two's-complement reading of an integer, and the
    bit operators, which work on that reading.  The shift count of [<<] is
    taken modulo 32. *)
Definition toInt32 (z : Z) : Z := (z + 2 ^ 31) mod 2 ^ 32 - 2 ^ 31.

Definition shl (a n : Z) : Z := toInt32 (Z.shiftl (toInt32 a) (Z.land n 31)).
Definition bor (a b : Z) : Z := toInt32 (Z.lor (toInt32 a) (toInt32 b)).
Definition band (a b : Z) : Z := toInt32 (Z.land (toInt32 a) (toInt32 b)).
Definition bnot (a : Z) : Z := toInt32 (Z.lnot (toInt32 a)).

(** [s.split(' ')]: the pieces between the spaces; never an empty array. *)
Fixpoint split (s : string) : list string :=
  match s with
  | EmptyString => [EmptyString]
  | String c s' =>
      if Ascii.eqb c Ascii.Space then EmptyString :: split s'
      else match split s' with
           | w :: ws => String c w :: ws
           | [] => [String c EmptyString]
           end
  end.

End JS.

(** ** Callbacks, events and the call log *)

(** The argument a widget passes to its callback. *)
Inductive Arg :=
  | ArgNone
  | ArgBool (b : bool)
  | ArgNum (q : Q).

(** A call of the user callback [f]. *)
Inductive Call :=
  | Invoked (f : nat) (a : Arg).

(** [if (this.callback) this.callback(arg)] *)
Definition callIfSet (cb : option nat) (a : Arg) : list Call :=
  match cb with
  | Some f => [Invoked f a]
  | None => []
  end.

(** A keyboard event, as far as the library reads it. *)
Record KeyEvent := mkKey {
  key : string;
  shiftKey : bool;
  ctrlKey : bool;
  metaKey : bool
}.

Definition plainKey (k : string) : KeyEvent := mkKey k false false false.

(** [e.key === 'Enter' || e.key === ' '] *)
Definition isEnterOrSpace (e : KeyEvent) : bool :=
  String.eqb (key e) "Enter" || String.eqb (key e) " ".

(** ** class Control *)

Module Control.

(** The fields input handling reads: the rectangle and [options.padding]
    (10 unless given).  The other options are colours and fonts. *)
Record t := mk {
  x : Q;
  y : Q;
  width : Q;
  height : Q;
  padding : Q
}.

(** [Control.containsPoint(x, y)] *)
Definition containsPoint (c : t) (px py : Q) : bool :=
  Qle_bool (x c) px && Qle_bool px (x c + width c)
  && Qle_bool (y c) py && Qle_bool py (y c + height c).

End Control.

(** ** class Button *)

Module Button.

Record t := mk {
  base : Control.t;
  label : string;
  callback : option nat;
  pressed : bool;
  pressedTime : Q
}.

(** [Button.activate()] *)
Definition activate (b : t) : t * list Call :=
  (mk (base b) (label b) (callback b) true 0, callIfSet (callback b) ArgNone).

(** [Button.handleClick(x, y)] *)
Definition handleClick (b : t) (px py : Q) : t * list Call := activate b.

(** [Button.handleKeyDown(e)] *)
Definition handleKeyDown (b : t) (e : KeyEvent) : t * list Call :=
  if isEnterOrSpace e then activate b else (b, []).

(** [this.pressedDuration], set to 200 milliseconds by the constructor. *)
Definition pressedDuration : Q := 200.

(** [Button.update(deltaTime)] *)
Definition update (b : t) (deltaTime : Q) : t :=
  if pressed b then
    let time := (pressedTime b + deltaTime)%Q in
    if Qle_bool pressedDuration time
    then mk (base b) (label b) (callback b) false 0
    else mk (base b) (label b) (callback b) true time
  else b.

End Button.

(** ** class Toggle *)

Module Toggle.

Record t := mk {
  base : Control.t;
  label : string;
  value : bool;
  callback : option nat
}.

(** [Toggle.toggle()] *)
Definition toggle (g : t) : t * list Call :=
  let v := negb (value g) in
  (mk (base g) (label g) v (callback g), callIfSet (callback g) (ArgBool v)).

Definition handleClick (g : t) (px py : Q) : t * list Call := toggle g.

Definition handleKeyDown (g : t) (e : KeyEvent) : t * list Call :=
  if isEnterOrSpace e then toggle g else (g, []).

Definition activate (g : t) : t * list Call := toggle g.

End Toggle.

(** ** class TextInput *)

Module TextInput.

Record t := mk {
  base : Control.t;
  placeholder : string;
  value : string;
  cursorPos : Z;
  cursorVisible : bool;
  cursorBlinkTime : Q
}.

(** [new TextInput(x, y, width, height, placeholder, options)] *)
Definition new (b : Control.t) (ph : string) : t := mk b ph EmptyString 0 true 0.

Definition edit (i : t) (v : string) (pos : Z) : t :=
  mk (base i) (placeholder i) v pos (cursorVisible i) (cursorBlinkTime i).

(** [TextInput.handleClick(x, y)]: the cursor goes to the end. *)
Definition handleClick (i : t) (px py : Q) : t * list Call :=
  (edit i (value i) (JS.strlen (value i)), []).

(** The branches of [TextInput.handleKeyDown(e)], before the blink reset. *)
Definition keyEdit (i : t) (e : KeyEvent) : t :=
  let v := value i in
  let pos := cursorPos i in
  if String.eqb (key e) "Backspace" then
    if 0 <? pos
    then edit i (JS.slice v 0 (pos - 1) +:+ JS.sliceFrom v pos) (pos - 1)
    else i
  else if String.eqb (key e) "Delete" then
    if pos <? JS.strlen v
    then edit i (JS.slice v 0 pos +:+ JS.sliceFrom v (pos + 1)) pos
    else i
  else if String.eqb (key e) "ArrowLeft" then edit i v (Z.max 0 (pos - 1))
  else if String.eqb (key e) "ArrowRight" then
    edit i v (Z.min (JS.strlen v) (pos + 1))
  else if String.eqb (key e) "Home" then edit i v 0
  else if String.eqb (key e) "End" then edit i v (JS.strlen v)
  else if (JS.strlen (key e) =? 1) && negb (ctrlKey e) && negb (metaKey e)
  then edit i (JS.slice v 0 pos +:+ key e +:+ JS.sliceFrom v pos) (pos + 1)
  else i.

(** [TextInput.handleKeyDown(e)] *)
Definition handleKeyDown (i : t) (e : KeyEvent) : t * list Call :=
  let i' := keyEdit i e in
  (mk (base i') (placeholder i') (value i') (cursorPos i') true 0, []).

(** [TextInput.update(deltaTime)] *)
Definition update (i : t) (deltaTime : Q) : t :=
  let time := (cursorBlinkTime i + deltaTime)%Q in
  if Qle_bool 500 time
  then mk (base i) (placeholder i) (value i) (cursorPos i)
          (negb (cursorVisible i)) 0
  else mk (base i) (placeholder i) (value i) (cursorPos i)
          (cursorVisible i) time.

End TextInput.

(** ** class Slider *)

Module Slider.

Record t := mk {
  base : Control.t;
  min : Q;
  max : Q;
  value : Q;
  step : Q;
  label : string;
  callback : option nat;
  dragging : bool
}.

Definition setValue (s : t) (v : Q) : t :=
  mk (base s) (min s) (max s) v (step s) (label s) (callback s) (dragging s).

(** The assignment and the callback the key and the gamepad handler share:
    [this.value = Math.max(this.min, this.value - this.step)] and
    [this.value = Math.min(this.max, this.value + this.step)]. *)
Definition decrement (s : t) : t * list Call :=
  let v := JS.max (min s) (value s - step s)%Q in
  (setValue s v, callIfSet (callback s) (ArgNum v)).

Definition increment (s : t) : t * list Call :=
  let v := JS.min (max s) (value s + step s)%Q in
  (setValue s v, callIfSet (callback s) (ArgNum v)).

(** [Slider.handleKeyDown(e)] *)
Definition handleKeyDown (s : t) (e : KeyEvent) : t * list Call :=
  if String.eqb (key e) "ArrowLeft" then decrement s
  else if String.eqb (key e) "ArrowRight" then increment s
  else (s, []).

(** [Slider.handleGamepadAxis(direction)] *)
Definition handleGamepadAxis (s : t) (direction : Z) : t * list Call :=
  if direction <? 0 then decrement s else increment s.

(** The track: [sliderX] and [sliderWidth]. *)
Definition sliderX (s : t) : Q :=
  (Control.x (base s) + Control.padding (base s))%Q.
Definition sliderWidth (s : t) : Q :=
  (Control.width (base s) - Control.padding (base s) * 2)%Q.

(** [percent]: the pointer's position along the track, clamped to [0,1].
    The quotient is the model's for a track of non-zero width. *)
Definition percent (s : t) (px : Q) : Q :=
  JS.max 0 (JS.min 1 ((px - sliderX s) / sliderWidth s))%Q.

(** [newValue] as first assigned: the position mapped into the range. *)
Definition raw (s : t) (px : Q) : Q :=
  (min s + percent s px * (max s - min s))%Q.

(** [newValue] after the rounding line and the clamping line.  The
    quotient is the model's for a non-zero step. *)
Definition snapped (s : t) (px : Q) : Q :=
  let newValue := raw s px in
  let newValue := (inject_Z (JS.round (newValue / step s)) * step s)%Q in
  JS.max (min s) (JS.min (max s) newValue).

(** [Slider.updateValueFromX(x)] *)
Definition updateValueFromX (s : t) (px : Q) : t * list Call :=
  let newValue := snapped s px in
  if JS.neqb newValue (value s)
  then (setValue s newValue, callIfSet (callback s) (ArgNum newValue))
  else (s, []).

(** [Slider.handleClick(x, y)] *)
Definition handleClick (s : t) (px py : Q) : t * list Call :=
  updateValueFromX s px.

End Slider.

(** ** The control contract *)

(** What the manager asks of a control object.  [containsPoint] is always
    there; each other method is optional, and the manager tests for it before
    the call ([if (control.handleKeyDown)]): a class that does not define a
    method answers [None].  A method returns the object after the call and the
    user callbacks it invoked. *)
Module Contract.

Class t (C : Type) := {
  containsPoint : C -> Q -> Q -> bool;
  handleClick : C -> option (Q -> Q -> C * list Call);
  handleKeyDown : C -> option (KeyEvent -> C * list Call);
  activate : C -> option (C * list Call);
  handleGamepadAxis : C -> option (Z -> C * list Call);
  handleGamepadLeft : C -> option (C * list Call);
  handleGamepadRight : C -> option (C * list Call)
}.

End Contract.

(** The classes of this file as one type of control objects.  [Plain] is an
    instance of the base class itself; [Panel] overrides [containsPoint] to
    answer [false] and adds no handler. *)
Inductive Widget :=
  | Plain (c : Control.t)
  | Panel (c : Control.t)
  | AButton (b : Button.t)
  | AToggle (g : Toggle.t)
  | ATextInput (i : TextInput.t)
  | ASlider (s : Slider.t).

Module Widget.

Definition base (w : Widget) : Control.t :=
  match w with
  | Plain c | Panel c => c
  | AButton b => Button.base b
  | AToggle g => Toggle.base g
  | ATextInput i => TextInput.base i
  | ASlider s => Slider.base s
  end.

Definition containsPoint (w : Widget) (px py : Q) : bool :=
  match w with
  | Panel _ => false
  | _ => Control.containsPoint (base w) px py
  end.

Definition lift {A B} (inj : A -> Widget) (r : A * B) : Widget * B :=
  (inj (fst r), snd r).

Definition handleClick (w : Widget) : option (Q -> Q -> Widget * list Call) :=
  match w with
  | Plain _ | Panel _ => None
  | AButton b => Some (fun px py => lift AButton (Button.handleClick b px py))
  | AToggle g => Some (fun px py => lift AToggle (Toggle.handleClick g px py))
  | ATextInput i =>
      Some (fun px py => lift ATextInput (TextInput.handleClick i px py))
  | ASlider s => Some (fun px py => lift ASlider (Slider.handleClick s px py))
  end.

Definition handleKeyDown (w : Widget) : option (KeyEvent -> Widget * list Call) :=
  match w with
  | Plain _ | Panel _ => None
  | AButton b => Some (fun e => lift AButton (Button.handleKeyDown b e))
  | AToggle g => Some (fun e => lift AToggle (Toggle.handleKeyDown g e))
  | ATextInput i => Some (fun e => lift ATextInput (TextInput.handleKeyDown i e))
  | ASlider s => Some (fun e => lift ASlider (Slider.handleKeyDown s e))
  end.

Definition activate (w : Widget) : option (Widget * list Call) :=
  match w with
  | AButton b => Some (lift AButton (Button.activate b))
  | AToggle g => Some (lift AToggle (Toggle.activate g))
  | _ => None
  end.

Definition handleGamepadAxis (w : Widget) : option (Z -> Widget * list Call) :=
  match w with
  | ASlider s => Some (fun d => lift ASlider (Slider.handleGamepadAxis s d))
  | _ => None
  end.

End Widget.

#[export] Instance widget_contract : Contract.t Widget := {|
  Contract.containsPoint := Widget.containsPoint;
  Contract.handleClick := Widget.handleClick;
  Contract.handleKeyDown := Widget.handleKeyDown;
  Contract.activate := Widget.activate;
  Contract.handleGamepadAxis := Widget.handleGamepadAxis;
  Contract.handleGamepadLeft := fun _ => None;
  Contract.handleGamepadRight := fun _ => None
|}.

(** ** class Modal: the object *)

Module Modal.

(** A button's callback: user code, or the closure [() => this.close()] the
    constructor of modal [m] makes for its default button. *)
Inductive callback :=
  | User (f : nat)
  | Close (m : nat).

(** An entry of [buttons]: [{ label, callback }], the callback optional. *)
Record button := mkButton {
  label : string;
  action : option callback
}.

Record t := mk {
  title : string;
  message : string;
  buttons : list button;
  selectedButton : Z;
  x : Q;
  y : Q;
  width : Q;
  height : Q;
  buttonHeight : Q;
  buttonWidth : Q;
  buttonSpacing : Q
}.

Definition select (m : t) (i : Z) : t :=
  mk (title m) (message m) (buttons m) i (x m) (y m) (width m) (height m)
     (buttonHeight m) (buttonWidth m) (buttonSpacing m).

(** [options.width && options.height]: both given and not zero. *)
Definition givenSize (ow oh : option Q) : option (Q * Q) :=
  match ow, oh with
  | Some w, Some h =>
      if Qeq_bool w 0 || Qeq_bool h 0 then None else Some (w, h)
  | _, _ => None
  end.

(** The size the constructor settles on.  [lineCount] is the result of the
    word-wrap loop over the measured message, which belongs to the drawing
    surface; it is read only when no size is given. *)
Definition size (cw ch : Q) (ow oh : option Q) (lineCount : Z) : Q * Q :=
  match givenSize ow oh with
  | Some (w, h) => (JS.min w (cw * (9 # 10)), JS.min h (ch * (9 # 10)))%Q
  | None =>
      let titleHeight := 60%Q in
      let messageHeight := (inject_Z lineCount * 25 + 40)%Q in
      let buttonsHeight := 90%Q in
      let minHeight := 200%Q in
      (JS.min 600 (cw * (8 # 10)),
       JS.max minHeight
              (JS.min (titleHeight + messageHeight + buttonsHeight)
                      (ch * (8 # 10))))%Q
  end.

(** [new Modal(manager, title, message, buttons, options)] for the object
    that gets the reference [self], on a canvas of [cw] by [ch]. *)
Definition new (self : nat) (cw ch : Q) (ttl msg : string)
    (bs : list button) (ow oh : option Q) (lineCount : Z) : t :=
  let bs' := if 0 <? JS.len bs then bs
             else [mkButton "OK" (Some (Close self))] in
  let '(w, h) := size cw ch ow oh lineCount in
  mk ttl msg bs' 0 ((cw - w) / 2)%Q ((ch - h) / 2)%Q w h 50 150 20.

(** The label test of the Escape search. *)
Definition isExit (b : button) : bool :=
  String.eqb (JS.toLowerCase (label b)) "exit"
  || String.eqb (JS.toLowerCase (label b)) "close"
  || String.eqb (JS.toLowerCase (label b)) "cancel".

(** [this.buttons.find(b => ...)]: the first button that passes. *)
Definition exitButton (m : t) : option button := List.find isExit (buttons m).

(** The row of buttons: [buttonsY], [startX] and the test of button [i]. *)
Definition buttonsY (m : t) : Q := (y m + height m - buttonHeight m - 20)%Q.

Definition totalButtonWidth (m : t) : Q :=
  (inject_Z (JS.len (buttons m)) * buttonWidth m
   + (inject_Z (JS.len (buttons m)) - 1) * buttonSpacing m)%Q.

Definition startX (m : t) : Q := (x m + (width m - totalButtonWidth m) / 2)%Q.

Definition hits (m : t) (i : nat) (px py : Q) : bool :=
  let buttonX :=
    (startX m + inject_Z (Z.of_nat i) * (buttonWidth m + buttonSpacing m))%Q in
  Qle_bool buttonX px && Qle_bool px (buttonX + buttonWidth m)
  && Qle_bool (buttonsY m) py && Qle_bool py (buttonsY m + buttonHeight m).

(** The loop of [Modal.handleClick]: the first button, from [i] on, that
    the point hits. *)
Fixpoint firstHit (m : t) (px py : Q) (i : nat) (bs : list button)
    : option button :=
  match bs with
  | [] => None
  | b :: rest => if hits m i px py then Some b else firstHit m px py (S i) rest
  end.

End Modal.

(** ** class CanvasUIMark, and the methods of Modal that go through it *)

(** The methods the manager can enter on a control or a modal. *)
Inductive Method :=
  | MClick
  | MKeyDown
  | MActivate
  | MGamepadAxis
  | MGamepadLeft
  | MGamepadRight
  | MGamepadButton.

(** One line of the call log: a method of control [r] or of modal [m] is
    entered, [this.onEscape()] is called, a user callback is called, or a
    [TypeError] leaves the dispatch (a property read on [undefined]). *)
Inductive Entry :=
  | ToControl (r : nat) (meth : Method)
  | ToModal (m : nat) (meth : Method)
  | OnEscape (f : nat)
  | Called (c : Call)
  | TypeError.

(** A click as the host reports it, and [canvas.getBoundingClientRect()]. *)
Record MouseEvent := mkMouse {
  clientX : Q;
  clientY : Q
}.

Record Rect := mkRect {
  left : Q;
  top : Q;
  rectWidth : Q;
  rectHeight : Q
}.

(** What the host delivers: [keydown] and [click] through the listeners of
    [setupEventListeners], a fresh button press through [updateGamepad]. *)
Inductive Input :=
  | KeyDown (e : KeyEvent)
  | Click (rect : Rect) (e : MouseEvent)
  | GamepadButton (buttonIndex : Z).

Module CanvasUIMark.
Section Manager.

Context {C : Type} `{Contract.t C}.

(** The fields input routing reads and writes.  [objects] and [dialogs]
    are the stores of the control and modal objects; [log] is the record
    of calls. *)
Record t := mk {
  canvasWidth : Q;
  canvasHeight : Q;
  controls : list nat;
  focusIndex : Z;
  modals : list nat;
  keys : gmap string bool;
  onEscape : option nat;
  objects : gmap nat C;
  dialogs : gmap nat Modal.t;
  log : list Entry
}.

(** [new CanvasUIMark(canvas)], with the control objects made so far. *)
Definition new (cw ch : Q) (objs : gmap nat C) : t :=
  mk cw ch [] (-1) [] ∅ None objs ∅ [].

Definition setControls (st : t) (cs : list nat) : t :=
  mk (canvasWidth st) (canvasHeight st) cs (focusIndex st) (modals st)
     (keys st) (onEscape st) (objects st) (dialogs st) (log st).

Definition setFocusIndex (st : t) (i : Z) : t :=
  mk (canvasWidth st) (canvasHeight st) (controls st) i (modals st)
     (keys st) (onEscape st) (objects st) (dialogs st) (log st).

Definition setModals (st : t) (ms : list nat) : t :=
  mk (canvasWidth st) (canvasHeight st) (controls st) (focusIndex st) ms
     (keys st) (onEscape st) (objects st) (dialogs st) (log st).

Definition setKey (st : t) (k : string) (b : bool) : t :=
  mk (canvasWidth st) (canvasHeight st) (controls st) (focusIndex st)
     (modals st) (<[k := b]> (keys st)) (onEscape st) (objects st)
     (dialogs st) (log st).

Definition setOnEscape (st : t) (f : option nat) : t :=
  mk (canvasWidth st) (canvasHeight st) (controls st) (focusIndex st)
     (modals st) (keys st) f (objects st) (dialogs st) (log st).

Definition setObject (st : t) (r : nat) (c : C) : t :=
  mk (canvasWidth st) (canvasHeight st) (controls st) (focusIndex st)
     (modals st) (keys st) (onEscape st) (<[r := c]> (objects st))
     (dialogs st) (log st).

Definition setDialog (st : t) (m : nat) (d : Modal.t) : t :=
  mk (canvasWidth st) (canvasHeight st) (controls st) (focusIndex st)
     (modals st) (keys st) (onEscape st) (objects st)
     (<[m := d]> (dialogs st)) (log st).

Definition logged (st : t) (es : list Entry) : t :=
  mk (canvasWidth st) (canvasHeight st) (controls st) (focusIndex st)
     (modals st) (keys st) (onEscape st) (objects st) (dialogs st)
     (log st ++ es).

(** *** Focus *)

(** [focusNext()] *)
Definition focusNext (st : t) : t :=
  if JS.len (controls st) =? 0 then st
  else setFocusIndex st (JS.rem (focusIndex st + 1) (JS.len (controls st))).

(** [focusPrevious()] *)
Definition focusPrevious (st : t) : t :=
  if JS.len (controls st) =? 0 then st
  else setFocusIndex st
         (JS.rem (focusIndex st - 1 + JS.len (controls st))
                 (JS.len (controls st))).

(** [addControl(control)].  The write to [control.manager] is left out:
    no method of a control reads it. *)
Definition addControl (st : t) (control : nat) : t :=
  let st := setControls st (controls st ++ [control]) in
  if (focusIndex st =? -1) && (JS.len (controls st) =? 1)
  then setFocusIndex st 0 else st.

(** [removeControl(control)] *)
Definition removeControl (st : t) (control : nat) : t :=
  let index := JS.indexOf (controls st) control in
  if -1 <? index then
    let st := setControls st (JS.splice1 (controls st) index) in
    if JS.len (controls st) <=? focusIndex st
    then setFocusIndex st (JS.len (controls st) - 1) else st
  else st.

(** *** Modals *)

(** [closeModal(modal)] *)
Definition closeModal (st : t) (modal : nat) : t :=
  let index := JS.indexOf (modals st) modal in
  if -1 <? index then setModals st (JS.splice1 (modals st) index) else st.

(** [showModal(title, message, buttons, options)]: the new modal gets a
    reference no modal object has had, and goes on top of the stack. *)
Definition showModal (st : t) (ttl msg : string) (bs : list Modal.button)
    (ow oh : option Q) (lineCount : Z) : nat * t :=
  let self := fresh (dom (dialogs st)) in
  let modal := Modal.new self (canvasWidth st) (canvasHeight st)
                         ttl msg bs ow oh lineCount in
  (self, setModals (setDialog st self modal) (modals st ++ [self])).

(** [this.modals[this.modals.length - 1]] under [this.modals.length > 0]. *)
Definition topModal (st : t) : option nat :=
  if 0 <? JS.len (modals st)
  then JS.get (modals st) (JS.len (modals st) - 1) else None.

(** [Modal.close()] of the modal [self]. *)
Definition Modal_close (st : t) (self : nat) : t := closeModal st self.

(** [if (b.callback) b.callback()] for a modal button's callback. *)
Definition invoke (st : t) (cb : option Modal.callback) : t :=
  match cb with
  | None => st
  | Some (Modal.User f) => logged st [Called (Invoked f ArgNone)]
  | Some (Modal.Close m) => Modal_close st m
  end.

(** The body shared by Enter, Space and gamepad button 0: the selected
    button's callback, then [close()].  Reading [.callback] of a missing
    entry throws. *)
Definition Modal_select (st : t) (self : nat) (m : Modal.t) : t :=
  match JS.get (Modal.buttons m) (Modal.selectedButton m) with
  | Some b => Modal_close (invoke st (Modal.action b)) self
  | None => logged st [TypeError]
  end.

(** The body shared by Escape and gamepad button 1: the callback of the
    exit button, if there is one and it has a callback, then [close()]. *)
Definition Modal_escape (st : t) (self : nat) (m : Modal.t) : t :=
  let st := match Modal.exitButton m with
            | Some b => invoke st (Modal.action b)
            | None => st
            end in
  Modal_close st self.

(** The bodies shared by the arrow keys and the D-pad: the selection moves
    round the buttons.  The constructor leaves a modal at least one button,
    so the divisor is not zero. *)
Definition Modal_left (st : t) (self : nat) (m : Modal.t) : t :=
  let n := JS.len (Modal.buttons m) in
  setDialog st self (Modal.select m (JS.rem (Modal.selectedButton m - 1 + n) n)).

Definition Modal_right (st : t) (self : nat) (m : Modal.t) : t :=
  let n := JS.len (Modal.buttons m) in
  setDialog st self (Modal.select m (JS.rem (Modal.selectedButton m + 1) n)).

(** [Modal.handleKeyDown(e)].  A reference on the stack always has its
    object; the [None] branch is there for totality. *)
Definition Modal_handleKeyDown (st : t) (self : nat) (e : KeyEvent) : t :=
  match dialogs st !! self with
  | None => st
  | Some m =>
      if String.eqb (key e) "ArrowLeft" then Modal_left st self m
      else if String.eqb (key e) "ArrowRight" then Modal_right st self m
      else if isEnterOrSpace e then Modal_select st self m
      else if String.eqb (key e) "Escape" then Modal_escape st self m
      else st
  end.

(** [Modal.handleGamepadButton(buttonIndex)] *)
Definition Modal_handleGamepadButton (st : t) (self : nat) (b : Z) : t :=
  match dialogs st !! self with
  | None => st
  | Some m =>
      if b =? 0 then Modal_select st self m
      else if b =? 1 then Modal_escape st self m
      else if b =? 14 then Modal_left st self m
      else if b =? 15 then Modal_right st self m
      else st
  end.

(** [Modal.handleClick(x, y)] *)
Definition Modal_handleClick (st : t) (self : nat) (px py : Q) : t :=
  match dialogs st !! self with
  | None => st
  | Some m =>
      match Modal.firstHit m px py 0 (Modal.buttons m) with
      | Some b => Modal_close (invoke st (Modal.action b)) self
      | None => st
      end
  end.

(** *** Input routing *)

(** The control under the focus index:
    [this.focusIndex >= 0 && this.focusIndex < this.controls.length], then
    [this.controls[this.focusIndex]]. *)
Definition focused (st : t) : option nat :=
  if (0 <=? focusIndex st) && (focusIndex st <? JS.len (controls st))
  then JS.get (controls st) (focusIndex st) else None.

(** A call of an optional method on the control [r]: [pick] tests for the
    method and, when the object has it, runs it.  The object is replaced by
    its state after the call, and the call and the callbacks are logged. *)
Definition deliver (st : t) (r : nat)
    (pick : C -> option (Method * (C * list Call))) : t :=
  match objects st !! r with
  | None => st
  | Some c =>
      match pick c with
      | Some (meth, (c', calls)) =>
          logged (setObject st r c') (ToControl r meth :: map Called calls)
      | None => st
      end
  end.

Definition toFocused (st : t)
    (pick : C -> option (Method * (C * list Call))) : t :=
  match focused st with
  | Some r => deliver st r pick
  | None => st
  end.

Definition pickKeyDown (e : KeyEvent) (c : C)
    : option (Method * (C * list Call)) :=
  match Contract.handleKeyDown c with
  | Some h => Some (MKeyDown, h e)
  | None => None
  end.

Definition pickClick (px py : Q) (c : C) : option (Method * (C * list Call)) :=
  match Contract.handleClick c with
  | Some h => Some (MClick, h px py)
  | None => None
  end.

Definition pickActivate (c : C) : option (Method * (C * list Call)) :=
  match Contract.activate c with
  | Some r => Some (MActivate, r)
  | None => None
  end.

(** [handleGamepadAxis(direction)] when the control has it, else the
    discrete handler of that side. *)
Definition pickAxis (direction : Z) (c : C)
    : option (Method * (C * list Call)) :=
  match Contract.handleGamepadAxis c with
  | Some h => Some (MGamepadAxis, h direction)
  | None =>
      if direction <? 0 then
        match Contract.handleGamepadLeft c with
        | Some r => Some (MGamepadLeft, r)
        | None => None
        end
      else
        match Contract.handleGamepadRight c with
        | Some r => Some (MGamepadRight, r)
        | None => None
        end
  end.

(** [if (this.onEscape) this.onEscape()] *)
Definition callOnEscape (st : t) : t :=
  match onEscape st with
  | Some f => logged st [OnEscape f]
  | None => st
  end.

(** [handleKeyDown(e)] *)
Definition handleKeyDown (st : t) (e : KeyEvent) : t :=
  let st := setKey st (key e) true in
  if String.eqb (key e) "Escape" then
    match topModal st with
    | Some modal => Modal_handleKeyDown (logged st [ToModal modal MKeyDown]) modal e
    | None => callOnEscape st
    end
  else
    match topModal st with
    | Some modal => Modal_handleKeyDown (logged st [ToModal modal MKeyDown]) modal e
    | None =>
        if String.eqb (key e) "Tab" then
          if shiftKey e then focusPrevious st else focusNext st
        else toFocused st (pickKeyDown e)
    end.

(** [getCanvasMousePosition(e)].  [None] stands for a position that is not
    a pair of finite numbers, which is what a bounding rectangle of zero
    width or height gives. *)
Definition getCanvasMousePosition (st : t) (rect : Rect) (e : MouseEvent)
    : option (Q * Q) :=
  if Qeq_bool (rectWidth rect) 0 || Qeq_bool (rectHeight rect) 0 then None
  else
    let scaleX := (canvasWidth st / rectWidth rect)%Q in
    let scaleY := (canvasHeight st / rectHeight rect)%Q in
    Some ((clientX e - left rect) * scaleX, (clientY e - top rect) * scaleY)%Q.

(** [control.containsPoint(x, y)] for the control at position [i]. *)
Definition containsAt (st : t) (i : nat) (px py : Q) : bool :=
  match controls st !! i with
  | Some r =>
      match objects st !! r with
      | Some c => Contract.containsPoint c px py
      | None => false
      end
  | None => false
  end.

(** The loop [for (let i = this.controls.length - 1; i >= 0; i--)] up to its
    [break]: [n] is [i + 1], and the result is the index the loop stops at. *)
Fixpoint hitScan (st : t) (px py : Q) (n : nat) : option nat :=
  match n with
  | O => None
  | S i => if containsAt st i px py then Some i else hitScan st px py i
  end.

(** The control branch of [handleClick]. *)
Definition clickControls (st : t) (px py : Q) : t :=
  match hitScan st px py (length (controls st)) with
  | None => st
  | Some i =>
      let st := setFocusIndex st (Z.of_nat i) in
      match controls st !! i with
      | Some r => deliver st r (pickClick px py)
      | None => st
      end
  end.

(** [handleClick(e)].  At a position that is not finite every containment
    test fails, in the modal and in the controls. *)
Definition handleClick (st : t) (rect : Rect) (e : MouseEvent) : t :=
  let pos := getCanvasMousePosition st rect e in
  match topModal st with
  | Some modal =>
      let st := logged st [ToModal modal MClick] in
      match pos with
      | Some (px, py) => Modal_handleClick st modal px py
      | None => st
      end
  | None =>
      match pos with
      | Some (px, py) => clickControls st px py
      | None => st
      end
  end.

(** [handleGamepadButton(buttonIndex)] *)
Definition handleGamepadButton (st : t) (buttonIndex : Z) : t :=
  match topModal st with
  | Some modal =>
      Modal_handleGamepadButton (logged st [ToModal modal MGamepadButton])
                                modal buttonIndex
  | None =>
      if buttonIndex =? 0 then toFocused st pickActivate
      else if buttonIndex =? 1 then callOnEscape st
      else if buttonIndex =? 12 then focusPrevious st
      else if buttonIndex =? 13 then focusNext st
      else if buttonIndex =? 14 then toFocused st (pickAxis (-1))
      else if buttonIndex =? 15 then toFocused st (pickAxis 1)
      else st
  end.

(** [handleKeyUp(e)] *)
Definition handleKeyUp (st : t) (e : KeyEvent) : t := setKey st (key e) false.

(** The host's delivery of one input. *)
Definition dispatch (st : t) (i : Input) : t :=
  match i with
  | KeyDown e => handleKeyDown st e
  | Click rect e => handleClick st rect e
  | GamepadButton b => handleGamepadButton st b
  end.

End Manager.

Arguments t C : clear implicits.

End CanvasUIMark.

(** * The rest of the library *)

(** ** class Menu *)

Module Menu.

(** An entry of [items]: [{ label, callback }], the callback optional. *)
Record item := mkItem {
  label : string;
  callback : option nat
}.

Record t := mk {
  base : Control.t;
  itemWidth : Q;
  itemHeight : Q;
  items : list item;
  selectedIndex : JS.index;
  orientation : string;
  gap : Q
}.

(** [new Menu(x, y, width, itemHeight, items, options)].  [orientation] and
    [gap] are the options the constructor reads, [padding] the one the base
    class keeps. *)
Definition new (x y width itemHeight : Q) (its : list item)
    (orientation : option string) (gap : option Q) (padding : Q) : t :=
  let orientation :=
    match orientation with
    | Some o => if String.eqb o EmptyString then "vertical" else o
    | None => "vertical"
    end in
  let gap := match gap with Some g => g | None => 0%Q end in
  let n := inject_Z (JS.len its) in
  let '(totalWidth, totalHeight) :=
    if String.eqb orientation "horizontal"
    then (n * width + (n - 1) * gap, itemHeight)%Q
    else (width, n * itemHeight + (n - 1) * gap)%Q in
  mk (Control.mk x y totalWidth totalHeight padding)
     width itemHeight its (JS.At 0) orientation gap.

Definition select (m : t) (i : JS.index) : t :=
  mk (base m) (itemWidth m) (itemHeight m) (items m) i (orientation m) (gap m).

(** [getItemBounds(index)]: the corner of the item's rectangle; its size is
    [itemWidth] by [itemHeight]. *)
Definition getItemBounds (m : t) (index : Z) : Q * Q :=
  if String.eqb (orientation m) "horizontal"
  then (Control.x (base m) + inject_Z index * (itemWidth m + gap m),
        Control.y (base m))%Q
  else (Control.x (base m),
        Control.y (base m) + inject_Z index * (itemHeight m + gap m))%Q.

(** The test of [handleClick] for item [index]. *)
Definition inItem (m : t) (index : Z) (px py : Q) : bool :=
  let '(ix, iy) := getItemBounds m index in
  Qle_bool ix px && Qle_bool px (ix + itemWidth m)
  && Qle_bool iy py && Qle_bool py (iy + itemHeight m).

(** The loop of [handleClick]: the first item, from [i] on, that the point
    is in. *)
Fixpoint firstItem (m : t) (px py : Q) (i : nat) (its : list item)
    : option (nat * item) :=
  match its with
  | [] => None
  | it :: rest =>
      if inItem m (Z.of_nat i) px py then Some (i, it)
      else firstItem m px py (S i) rest
  end.

(** [Menu.handleClick(x, y)] *)
Definition handleClick (m : t) (px py : Q) : t * list Call :=
  match firstItem m px py 0 (items m) with
  | Some (i, it) =>
      (select m (JS.At (Z.of_nat i)), callIfSet (callback it) ArgNone)
  | None => (m, [])
  end.

(** The two moves of the selection:
    [(selectedIndex - 1 + items.length) % items.length] and
    [(selectedIndex + 1) % items.length]. *)
Definition previous (m : t) : t :=
  let n := JS.len (items m) in
  select m (JS.modulo (JS.plus (JS.plus (selectedIndex m) (-1)) n) n).

Definition next (m : t) : t :=
  select m (JS.modulo (JS.plus (selectedIndex m) 1) (JS.len (items m))).

(** [if (this.items[this.selectedIndex].callback) ...callback()]: [None] is
    the [TypeError] of reading [callback] of [undefined]. *)
Definition fire (m : t) : option (t * list Call) :=
  match JS.at_ (items m) (selectedIndex m) with
  | Some it => Some (m, callIfSet (callback it) ArgNone)
  | None => None
  end.

(** [Menu.handleKeyDown(e)] *)
Definition handleKeyDown (m : t) (e : KeyEvent) : option (t * list Call) :=
  let isVertical := String.eqb (orientation m) "vertical" in
  let prevKey := if isVertical then "ArrowUp" else "ArrowLeft" in
  let nextKey := if isVertical then "ArrowDown" else "ArrowRight" in
  if String.eqb (key e) prevKey || String.eqb (key e) "ArrowUp"
     || String.eqb (key e) "ArrowLeft"
  then Some (previous m, [])
  else if String.eqb (key e) nextKey || String.eqb (key e) "ArrowDown"
          || String.eqb (key e) "ArrowRight"
  then Some (next m, [])
  else if isEnterOrSpace e then fire m
  else Some (m, []).

(** [Menu.handleGamepadLeft()], [Menu.handleGamepadRight()] and
    [Menu.activate()] *)
Definition handleGamepadLeft (m : t) : t * list Call := (previous m, []).
Definition handleGamepadRight (m : t) : t * list Call := (next m, []).
Definition activate (m : t) : option (t * list Call) := fire m.

End Menu.

(** ** class Radio *)

Module Radio.

Record t := mk {
  base : Control.t;
  itemHeight : Q;
  items : list string;
  selectedIndex : JS.index;
  callback : option nat
}.

(** A call [callback(index, value)]; the value is [undefined] when the index
    is not one of an item. *)
Inductive call :=
  | Selected (f : nat) (index : JS.index) (value : option string).

(** [new Radio(x, y, width, itemHeight, options, selectedIndex, callback)] *)
Definition new (x y width itemHeight : Q) (options : list string)
    (selectedIndex : JS.index) (callback : option nat) (padding : Q) : t :=
  let height := (itemHeight * inject_Z (JS.len options))%Q in
  mk (Control.mk x y width height padding) itemHeight options selectedIndex
     callback.

(** The assignment to [selectedIndex] followed by
    [if (this.callback) this.callback(this.selectedIndex, this.items[...])]. *)
Definition choose (r : t) (i : JS.index) : t * list call :=
  (mk (base r) (itemHeight r) (items r) i (callback r),
   match callback r with
   | Some f => [Selected f i (JS.at_ (items r) i)]
   | None => []
   end).

(** [Radio.handleClick(x, y)].  With an item height of zero the quotient is
    not finite and both comparisons fail. *)
Definition handleClick (r : t) (px py : Q) : t * list call :=
  if Qeq_bool (itemHeight r) 0 then (r, [])
  else
    let index := Qfloor ((py - Control.y (base r)) / itemHeight r) in
    if (0 <=? index) && (index <? JS.len (items r))
    then choose r (JS.At index) else (r, []).

Definition previous (r : t) : t * list call :=
  let n := JS.len (items r) in
  choose r (JS.modulo (JS.plus (JS.plus (selectedIndex r) (-1)) n) n).

Definition next (r : t) : t * list call :=
  choose r (JS.modulo (JS.plus (selectedIndex r) 1) (JS.len (items r))).

(** [Radio.handleKeyDown(e)] *)
Definition handleKeyDown (r : t) (e : KeyEvent) : t * list call :=
  if String.eqb (key e) "ArrowUp" then previous r
  else if String.eqb (key e) "ArrowDown" then next r
  else if String.eqb (key e) "ArrowLeft" then previous r
  else if String.eqb (key e) "ArrowRight" then next r
  else (r, []).

(** [Radio.handleGamepadLeft()] and [Radio.handleGamepadRight()] *)
Definition handleGamepadLeft (r : t) : t * list call := previous r.
Definition handleGamepadRight (r : t) : t * list call := next r.

End Radio.

(** ** class Toast *)

Module Toast.

(** The fields of a toast that do not depend on the type table; the width
    and the height are the constructor's constants. *)
Record t := mk {
  message : string;
  type : string;
  duration : Q
}.

Definition width : Q := 300.
Definition height : Q := 80.
Definition padding : Q := 15.

(** The corner [Toast.draw(ctx, index)] draws at, on a canvas [cw] wide. *)
Definition position (cw : Q) (index : Z) : Q * Q :=
  (cw - width - 20, 20 + inject_Z index * (height + 10))%Q.

(** The width the message is wrapped to: [width - iconSize - padding * 3]. *)
Definition maxWidth : Q := (width - 40 - padding * 3)%Q.

End Toast.

(** ** Word wrap *)

(** The loop that [Modal]'s constructor, [Modal.draw] and [Toast.draw] share.
    [measure s] is [ctx.measureText(s).width] under the font in force, which
    the drawing surface supplies. *)
Module Wrap.
Section Wrap.

Variable measure : string -> Q.

(** [metrics.width > maxWidth && line !== ''] for [testLine = line + word + ' '] *)
Definition breaks (maxWidth : Q) (line word : string) : bool :=
  JS.ltb maxWidth (measure (line +:+ word +:+ " "))
  && negb (String.eqb line EmptyString).

(** The constructor's loop: [lineCount] after the words. *)
Fixpoint countLines (maxWidth : Q) (line : string) (lineCount : Z)
    (words : list string) : Z :=
  match words with
  | [] => lineCount
  | word :: rest =>
      if breaks maxWidth line word
      then countLines maxWidth (word +:+ " ") (lineCount + 1) rest
      else countLines maxWidth (line +:+ word +:+ " ") lineCount rest
  end.

(** The loop of the two [draw] methods with the line that follows it: the
    lines in the order they are drawn ([Modal.draw]) or pushed
    ([Toast.draw]). *)
Fixpoint wrapLines (maxWidth : Q) (line : string) (words : list string)
    : list string :=
  match words with
  | [] => [line]
  | word :: rest =>
      if breaks maxWidth line word
      then line :: wrapLines maxWidth (word +:+ " ") rest
      else wrapLines maxWidth (line +:+ word +:+ " ") rest
  end.

(** The [y] of each line [Modal.draw] draws: from [this.y + 80], 25 apart. *)
Fixpoint lineYs (y : Q) (lines : list string) : list (string * Q) :=
  match lines with
  | [] => []
  | l :: rest => (l, y) :: lineYs (y + 25)%Q rest
  end.

(** The message lines of [Modal.draw], each with its [y]. *)
Definition modalLines (m : Modal.t) : list (string * Q) :=
  lineYs (Modal.y m + 80)%Q
         (wrapLines (Modal.width m - 40)%Q EmptyString
                    (JS.split (Modal.message m))).

(** The lines of [Toast.draw]. *)
Definition toastLines (t : Toast.t) : list string :=
  wrapLines Toast.maxWidth EmptyString (JS.split (Toast.message t)).

(** [new Modal(...)] with the line count its own loop finds when no size is
    given: [maxWidth = Math.min(600, canvas.width * 0.8) - 40]. *)
Definition newModal (self : nat) (cw ch : Q) (ttl msg : string)
    (bs : list Modal.button) (ow oh : option Q) : Modal.t :=
  let maxWidth := (JS.min 600 (cw * (8 # 10)) - 40)%Q in
  Modal.new self cw ch ttl msg bs ow oh
            (countLines maxWidth EmptyString 1 (JS.split msg)).

End Wrap.
End Wrap.

(** ** class CanvasUIMark: pointer, gamepad polling and toasts *)

(** The state these methods keep beside the state of input routing. *)
Module Ambient.
Section Ambient.

Context {C : Type} `{Contract.t C}.

(** [mouse] ([None]: a position that is not finite), [lastGamepadButtons],
    [toasts] with the toast objects, and the timers [showToast] has set. *)
Record t := mk {
  mouse : option (Q * Q);
  buttons : Z;
  lastGamepadButtons : list bool;
  toasts : list nat;
  toastObjects : gmap nat Toast.t;
  timers : list (nat * Q)
}.

(** The fields as the constructor leaves them. *)
Definition new : t := mk (Some (0, 0)%Q) 0 [] [] ∅ [].

(** [handleMouseMove(e)] *)
Definition handleMouseMove (st : CanvasUIMark.t C) (a : t) (rect : Rect)
    (e : MouseEvent) : t :=
  mk (CanvasUIMark.getCanvasMousePosition st rect e) (buttons a)
     (lastGamepadButtons a) (toasts a) (toastObjects a) (timers a).

Definition setButtons (a : t) (b : Z) : t :=
  mk (mouse a) b (lastGamepadButtons a) (toasts a) (toastObjects a) (timers a).

(** [handleMouseDown(e)]: [this.mouse.buttons |= (1 << e.button)] *)
Definition handleMouseDown (a : t) (button : Z) : t :=
  setButtons a (JS.bor (buttons a) (JS.shl 1 button)).

(** [handleMouseUp(e)]: [this.mouse.buttons &= ~(1 << e.button)] *)
Definition handleMouseUp (a : t) (button : Z) : t :=
  setButtons a (JS.band (buttons a) (JS.bnot (JS.shl 1 button))).

(** Whether the dispatch that took [st] to [st'] ended in a [TypeError]:
    the error is then the last line it logged. *)
Definition threw (st st' : CanvasUIMark.t C) : bool :=
  (length (CanvasUIMark.log st) <? length (CanvasUIMark.log st'))%nat
  && match last (CanvasUIMark.log st') with
     | Some TypeError => true
     | _ => false
     end.

(** The inner loop of [updateGamepad]: a button that is pressed and was not
    is handed to [handleGamepadButton], in index order.  The flag tells
    whether the loop ran to its end; an error in a dispatch leaves it. *)
Fixpoint pollButtons (st : CanvasUIMark.t C) (last : list bool) (i : nat)
    (pressed : list bool) : CanvasUIMark.t C * bool :=
  match pressed with
  | [] => (st, true)
  | p :: rest =>
      let wasPressed := default false (last !! i) in
      if p && negb wasPressed
      then
        let st' := CanvasUIMark.handleGamepadButton st (Z.of_nat i) in
        if threw st st' then (st', false)
        else pollButtons st' last (S i) rest
      else pollButtons st last (S i) rest
  end.

(** The outer loop: the first gamepad that is not [null]. *)
Fixpoint firstGamepad (gamepads : list (option (list bool)))
    : option (list bool) :=
  match gamepads with
  | [] => None
  | Some gp :: _ => Some gp
  | None :: rest => firstGamepad rest
  end.

(** [updateGamepad()], for the answer of [navigator.getGamepads()]: nothing,
    or the gamepads, each [null] or its buttons' [pressed] flags.
    [lastGamepadButtons] is assigned after the loop, so not when the loop
    was left by an error. *)
Definition updateGamepad (st : CanvasUIMark.t C) (a : t)
    (gamepads : option (list (option (list bool)))) : CanvasUIMark.t C * t :=
  match gamepads with
  | None => (st, a)
  | Some gps =>
      match firstGamepad gps with
      | None => (st, a)
      | Some pressed =>
          let '(st', finished) :=
            pollButtons st (lastGamepadButtons a) 0 pressed in
          (st',
           if finished
           then mk (mouse a) (buttons a) pressed (toasts a) (toastObjects a)
                   (timers a)
           else a)
      end
  end.

(** [showToast(message, type, duration)]: the toast goes to the end of the
    list and a timer is set for [duration]. *)
Definition showToast (a : t) (message : string) (type : option string)
    (duration : option Q) : nat * t :=
  let type := match type with Some ty => ty | None => "info" end in
  let duration := match duration with Some d => d | None => 3000%Q end in
  let toast := fresh (dom (toastObjects a)) in
  (toast,
   mk (mouse a) (buttons a) (lastGamepadButtons a) (toasts a ++ [toast])
      (<[toast := Toast.mk message type duration]> (toastObjects a))
      (timers a ++ [(toast, duration)])).

(** The function [showToast] hands to [setTimeout], for the toast [toast]. *)
Definition expire (a : t) (toast : nat) : t :=
  let index := JS.indexOf (toasts a) toast in
  if -1 <? index
  then mk (mouse a) (buttons a) (lastGamepadButtons a)
          (JS.splice1 (toasts a) index) (toastObjects a) (timers a)
  else a.

End Ambient.
End Ambient.

(** * The properties under verification *)

(** ** Slider: directional adjustment *)

(** One directional input to a slider: a key event, or a gamepad axis call
    with its direction. *)
Inductive SliderInput :=
  | ByKey (e : KeyEvent)
  | ByAxis (direction : Z).

Definition adjust (s : Slider.t) (i : SliderInput) : Slider.t :=
  match i with
  | ByKey e => fst (Slider.handleKeyDown s e)
  | ByAxis d => fst (Slider.handleGamepadAxis s d)
  end.

Definition adjustAll (s : Slider.t) (inputs : list SliderInput) : Slider.t :=
  fold_left adjust inputs s.

(** [min <= value <= max] *)
Definition inRange (s : Slider.t) : Prop :=
  (Slider.min s <= Slider.value s)%Q /\ (Slider.value s <= Slider.max s)%Q.




(** ** Slider: click on the track *)

(** "clamped to [min, max]", in the order the source applies the bounds. *)
Definition clamp (lo hi v : Q) : Q := JS.max lo (JS.min hi v).


(** The rule the source applies: [round(raw / step) * step], then clamp. *)
Definition zeroSnap (s : Slider.t) (px : Q) : Q :=
  clamp (Slider.min s) (Slider.max s)
        (inject_Z (JS.round (Slider.raw s px / Slider.step s)) * Slider.step s)%Q.

(** A slider with a track from 10 to 110; the range, the value and the step
    are left open. *)
Definition sampleBase : Control.t := Control.mk 0 0 120 40 10.

Definition sampleSlider (lo hi v st : Q) : Slider.t :=
  Slider.mk sampleBase lo hi v st "Volume" (Some 7%nat) false.



(** ** TextInput: the cursor *)

Inductive TextEvent :=
  | TextKey (e : KeyEvent)
  | TextClick (px py : Q).

Definition textStep (i : TextInput.t) (ev : TextEvent) : TextInput.t :=
  match ev with
  | TextKey e => fst (TextInput.handleKeyDown i e)
  | TextClick px py => fst (TextInput.handleClick i px py)
  end.

Definition textRun (i : TextInput.t) (evs : list TextEvent) : TextInput.t :=
  fold_left textStep evs i.

(** [0 <= cursorPos <= value.length] *)
Definition cursorOk (i : TextInput.t) : Prop :=
  0 <= TextInput.cursorPos i <= JS.strlen (TextInput.value i).

(** ** The manager *)

Section ManagerProperties.

Context {C : Type} `{Contract.t C}.

Local Abbreviation UI := (CanvasUIMark.t C).

(** The focus-index invariant: inside [[0, len - 1]] when there are
    controls, [-1] when there are none. *)
Definition focusOk (st : UI) : Prop :=
  (CanvasUIMark.controls st <> [] ->
   0 <= CanvasUIMark.focusIndex st <= JS.len (CanvasUIMark.controls st) - 1)
  /\ (CanvasUIMark.controls st = [] -> CanvasUIMark.focusIndex st = -1).

(** The method a modal is entered by, for each kind of input. *)
Definition modalMethod (i : Input) : Method :=
  match i with
  | KeyDown _ => MKeyDown
  | Click _ _ => MClick
  | GamepadButton _ => MGamepadButton
  end.

(** Log entries that a modal's handler can leave: the callback of one of
    its buttons, or the error of reading a missing button.  A control's
    method and the global Escape callback are the other two kinds. *)
Definition fromModal (en : Entry) : bool :=
  match en with
  | ToModal _ _ | Called _ | TypeError => true
  | ToControl _ _ | OnEscape _ => false
  end.

(** The modal stack of the states the library reaches: no modal twice, and
    every modal on it an object of the store. *)
Definition stackOk (st : UI) : Prop :=
  NoDup (CanvasUIMark.modals st)
  /\ forall m, m ∈ CanvasUIMark.modals st -> m ∈ dom (CanvasUIMark.dialogs st).

(** What a click changes when the control [r], holding [c], receives it. *)
Definition clickLog (r : nat) (c : C) (px py : Q) : list Entry :=
  match Contract.handleClick c with
  | Some h => ToControl r MClick :: map Called (snd (h px py))
  | None => []
  end.

Definition clickStore (objs : gmap nat C) (r : nat) (c : C) (px py : Q)
    : gmap nat C :=
  match Contract.handleClick c with
  | Some h => <[r := fst (h px py)]> objs
  | None => objs
  end.

(** What the callback of a modal button leaves in the log. *)
Definition callbackLog (cb : option Modal.callback) : list Entry :=
  match cb with
  | Some (Modal.User f) => [Called (Invoked f ArgNone)]
  | _ => []
  end.

(** [st'] differs from [st] by what a modal's handler may do: the controls,
    the focus index, the control objects, the held keys and the Escape
    callback are the same, and the log grows by modal entries only. *)
Definition modalStep (st st' : UI) : Prop :=
  CanvasUIMark.controls st' = CanvasUIMark.controls st
  /\ CanvasUIMark.focusIndex st' = CanvasUIMark.focusIndex st
  /\ CanvasUIMark.objects st' = CanvasUIMark.objects st
  /\ CanvasUIMark.onEscape st' = CanvasUIMark.onEscape st
  /\ exists es, CanvasUIMark.log st' = CanvasUIMark.log st ++ es
                /\ forallb fromModal es = true.

(** A modal as the constructor and the arrow handlers leave it: the
    selection is on one of its buttons.  A state is healthy when every modal
    object is like that and no [TypeError] has been logged. *)
Definition modalOk (d : Modal.t) : Prop :=
  0 <= Modal.selectedButton d < JS.len (Modal.buttons d).

Definition healthy (st : UI) : Prop :=
  (forall m d, CanvasUIMark.dialogs st !! m = Some d -> modalOk d)
  /\ TypeError ∉ CanvasUIMark.log st.

(** What application code can do to a manager between two inputs, and what
    the host delivers. *)
Inductive Command :=
  | AddControl (r : nat)
  | RemoveControl (r : nat)
  | FocusNext
  | FocusPrevious
  | ShowModal (ttl msg : string) (bs : list Modal.button)
              (ow oh : option Q) (lineCount : Z)
  | CloseModal (m : nat)
  | SetOnEscape (f : option nat)
  | PutObject (r : nat) (c : C)
  | Deliver (i : Input).

Definition perform (st : UI) (cmd : Command) : UI :=
  match cmd with
  | AddControl r => CanvasUIMark.addControl st r
  | RemoveControl r => CanvasUIMark.removeControl st r
  | FocusNext => CanvasUIMark.focusNext st
  | FocusPrevious => CanvasUIMark.focusPrevious st
  | ShowModal ttl msg bs ow oh lc =>
      snd (CanvasUIMark.showModal st ttl msg bs ow oh lc)
  | CloseModal m => CanvasUIMark.closeModal st m
  | SetOnEscape f => CanvasUIMark.setOnEscape st f
  | PutObject r c => CanvasUIMark.setObject st r c
  | Deliver i => CanvasUIMark.dispatch st i
  end.

Definition performAll (st : UI) (cmds : list Command) : UI :=
  fold_left perform cmds st.

End ManagerProperties.

(** ** Sample states *)

(** Two overlapping buttons, the second added later, and a slider. *)
Definition lowerButton : Widget :=
  AButton (Button.mk (Control.mk 0 0 100 100 10) "Lower" (Some 1%nat) false 0).

Definition upperButton : Widget :=
  AButton (Button.mk (Control.mk 50 50 100 100 10) "Upper" (Some 2%nat) false 0).

Definition volume : Widget := ASlider (sampleSlider 0 100 50 5).

Definition sampleObjects : gmap nat Widget :=
  <[0%nat := lowerButton]> (<[1%nat := upperButton]> (<[2%nat := volume]> ∅)).

Definition emptyUI : CanvasUIMark.t Widget :=
  CanvasUIMark.setOnEscape (CanvasUIMark.new 800 600 sampleObjects) (Some 9%nat).

Definition sampleUI : CanvasUIMark.t Widget :=
  CanvasUIMark.addControl
    (CanvasUIMark.addControl (CanvasUIMark.addControl emptyUI 0%nat) 1%nat) 2%nat.

(** The canvas shown at its own size, at the origin of the page. *)
Definition sampleRect : Rect := mkRect 0 0 800 600.

(** The two dialogs of the specification's Escape scenario. *)
Definition resumeExit : list Modal.button :=
  [Modal.mkButton "Resume" None; Modal.mkButton "Exit" (Some (Modal.User 5%nat))].

Definition yesNo : list Modal.button :=
  [Modal.mkButton "Yes" (Some (Modal.User 3%nat));
   Modal.mkButton "No" (Some (Modal.User 4%nat))].

Definition pausedUI : CanvasUIMark.t Widget :=
  snd (CanvasUIMark.showModal sampleUI "Paused" "Game is paused" resumeExit
                              None None 1).

Definition confirmUI : CanvasUIMark.t Widget :=
  snd (CanvasUIMark.showModal sampleUI "Confirm" "Are you sure?" yesNo
                              None None 1).

Definition alertUI : CanvasUIMark.t Widget :=
  snd (CanvasUIMark.showModal sampleUI "Notice" "Saved" [] None None 1).

(** ** Modal: the Escape search *)

(** A label that reads [exit], [close] or [cancel] when case is ignored. *)
Definition cancelLike (lbl : string) : Prop :=
  JS.toLowerCase lbl ∈ ["exit"; "close"; "cancel"].

(** ** Time and typing *)



Definition textUpdates (i : TextInput.t) (dts : list Q) : TextInput.t :=
  fold_left TextInput.update dts i.

(** The key event of a printable character, and those of a text typed
    character by character. *)
Definition charKey (c : Ascii.ascii) : KeyEvent := plainKey (String c EmptyString).

Fixpoint typeText (i : TextInput.t) (s : string) : TextInput.t :=
  match s with
  | EmptyString => i
  | String c s' => typeText (fst (TextInput.handleKeyDown i (charKey c))) s'
  end.

(** A selection that is on one of the items. *)
Definition selectionOk {A} (items : list A) (i : JS.index) : Prop :=
  match i with
  | JS.At z => 0 <= z < JS.len items
  | JS.NaN => False
  end.

(** A menu of three entries, the second without a callback, and a radio
    group of three options. *)
Definition sampleMenu : Menu.t :=
  Menu.new 10 20 200 40
    [Menu.mkItem "Start" (Some 1%nat); Menu.mkItem "Options" None;
     Menu.mkItem "Quit" (Some 3%nat)]
    None None 10.

Definition sampleRadio : Radio.t :=
  Radio.new 10 20 200 30 ["Easy"; "Normal"; "Hard"] (JS.At 0) (Some 4%nat) 10.

(** The toast list as [showToast] and the timers keep it: no toast twice,
    and every toast on it an object that was made. *)
Definition toastsOk (a : Ambient.t) : Prop :=
  NoDup (Ambient.toasts a)
  /\ forall t, t ∈ Ambient.toasts a -> t ∈ dom (Ambient.toastObjects a).

(** The lines of a wrapped text, one after the other. *)
Definition glue (lines : list string) : string :=
  fold_right String.append EmptyString lines.

(** A surface on which every character is ten units wide. *)
Definition tenWide (s : string) : Q := inject_Z (JS.strlen s) * 10.

(** * Proofs *)

(** ** Rational arithmetic *)

Section Rationals.

Local Open Scope Q_scope.

Lemma max_cases a b : (JS.max a b == a /\ b <= a) \/ (JS.max a b == b /\ a <= b).
Proof.
  unfold JS.max. destruct (Q.max_spec_le a b) as [[Hle He] | [Hle He]]; auto.
Qed.

Lemma min_cases a b : (JS.min a b == a /\ a <= b) \/ (JS.min a b == b /\ b <= a).
Proof.
  unfold JS.min. destruct (Q.min_spec_le a b) as [[Hle He] | [Hle He]]; auto.
Qed.





End Rationals.

(** ** Slider *)

Section SliderFacts.

Local Open Scope Q_scope.



(** A directional input leaves the slider alone, or decrements it, or
    increments it. *)
Lemma adjust_cases s i :
  adjust s i = s \/ adjust s i = fst (Slider.decrement s)
  \/ adjust s i = fst (Slider.increment s).
Proof.
  destruct i as [e | d]; simpl.
  - unfold Slider.handleKeyDown.
    destruct (String.eqb (key e) "ArrowLeft"); [auto |].
    destruct (String.eqb (key e) "ArrowRight"); auto.
  - unfold Slider.handleGamepadAxis. destruct (d <? 0)%Z; auto.
Qed.

(** What no input changes. *)
Lemma adjust_frame s i :
  Slider.min (adjust s i) = Slider.min s
  /\ Slider.max (adjust s i) = Slider.max s
  /\ Slider.step (adjust s i) = Slider.step s.
Proof.
  destruct (adjust_cases s i) as [-> | [-> | ->]]; auto.
Qed.



End SliderFacts.

Section SliderClaims.

Local Open Scope Q_scope.

Lemma adjustAll_frame inputs : forall s,
  Slider.min (adjustAll s inputs) = Slider.min s
  /\ Slider.max (adjustAll s inputs) = Slider.max s
  /\ Slider.step (adjustAll s inputs) = Slider.step s.
Proof.
  induction inputs as [| i inputs IH]; intros s; [auto |].
  simpl. destruct (IH (adjust s i)) as (-> & -> & ->). apply adjust_frame.
Qed.




(** The value after [updateValueFromX]: the snapped value, whether or not
    the assignment runs. *)
Lemma updateValueFromX_value s px :
  Slider.value (fst (Slider.updateValueFromX s px)) == Slider.snapped s px.
Proof.
  unfold Slider.updateValueFromX, JS.neqb.
  destruct (Qeq_bool (Slider.snapped s px) (Slider.value s)) eqn:E; simpl.
  - symmetry. apply Qeq_bool_eq. exact E.
  - reflexivity.
Qed.





End SliderClaims.

(** ** Strings *)

Section StringFacts.

Lemma length_take n : forall s,
  String.length (JS.take n s) = Nat.min n (String.length s).
Proof.
  induction n as [| n IH]; intros [| c s]; simpl; auto.
Qed.

Lemma length_drop n : forall s,
  String.length (JS.drop n s) = (String.length s - n)%nat.
Proof.
  induction n as [| n IH]; intros [| c s]; simpl; auto.
Qed.

Lemma length_append (s1 s2 : string) :
  String.length (s1 +:+ s2) = (String.length s1 + String.length s2)%nat.
Proof. induction s1 as [| c s1 IH]; simpl; auto. Qed.

Lemma strlen_append (s1 s2 : string) :
  JS.strlen (s1 +:+ s2) = JS.strlen s1 + JS.strlen s2.
Proof. unfold JS.strlen. rewrite length_append. lia. Qed.

Lemma strlen_nonneg s : 0 <= JS.strlen s.
Proof. unfold JS.strlen. lia. Qed.

(** The length of a slice, from its two clamped ends. *)
Lemma strlen_slice s from to :
  JS.strlen (JS.slice s from to)
  = Z.max 0 (JS.sliceIndex (JS.strlen s) to - JS.sliceIndex (JS.strlen s) from).
Proof.
  unfold JS.slice.
  set (n := JS.strlen s).
  assert (Hn : 0 <= n) by apply strlen_nonneg.
  assert (Ha : 0 <= JS.sliceIndex n from <= n).
  { unfold JS.sliceIndex. destruct (from <? 0) eqn:E; lia. }
  assert (Hb : 0 <= JS.sliceIndex n to <= n).
  { unfold JS.sliceIndex. destruct (to <? 0) eqn:E; lia. }
  unfold JS.strlen at 1. rewrite length_take, length_drop.
  fold n in Ha, Hb |- *. unfold n, JS.strlen in *. lia.
Qed.

Lemma strlen_prefix s pos :
  0 <= pos <= JS.strlen s -> JS.strlen (JS.slice s 0 pos) = pos.
Proof.
  intros H. rewrite strlen_slice. unfold JS.sliceIndex. simpl.
  destruct (pos <? 0) eqn:E; lia.
Qed.

Lemma strlen_suffix s pos :
  0 <= pos <= JS.strlen s -> JS.strlen (JS.sliceFrom s pos) = JS.strlen s - pos.
Proof.
  intros H. unfold JS.sliceFrom. rewrite strlen_slice. unfold JS.sliceIndex.
  pose proof (strlen_nonneg s).
  destruct (pos <? 0) eqn:E; destruct (JS.strlen s <? 0) eqn:E'; lia.
Qed.

End StringFacts.

(** ** TextInput *)

Section TextInputFacts.

Lemma keyEdit_cursorOk i e : cursorOk i -> cursorOk (TextInput.keyEdit i e).
Proof.
  unfold cursorOk, TextInput.keyEdit. intros H.
  pose proof (strlen_nonneg (TextInput.value i)) as Hn.
  destruct (String.eqb (key e) "Backspace").
  { destruct (0 <? TextInput.cursorPos i) eqn:E; [| exact H]. simpl.
    rewrite strlen_append, strlen_prefix, strlen_suffix by lia. lia. }
  destruct (String.eqb (key e) "Delete").
  { destruct (TextInput.cursorPos i <? JS.strlen (TextInput.value i)) eqn:E;
      [| exact H]. simpl.
    rewrite strlen_append, strlen_prefix, strlen_suffix by lia. lia. }
  destruct (String.eqb (key e) "ArrowLeft"); [simpl; lia |].
  destruct (String.eqb (key e) "ArrowRight"); [simpl; lia |].
  destruct (String.eqb (key e) "Home"); [simpl; lia |].
  destruct (String.eqb (key e) "End"); [simpl; lia |].
  destruct ((JS.strlen (key e) =? 1) && negb (ctrlKey e) && negb (metaKey e))
    eqn:E; [| exact H].
  apply andb_prop in E as [E _]. apply andb_prop in E as [E _].
  simpl. rewrite !strlen_append, strlen_prefix, strlen_suffix by lia. lia.
Qed.

Lemma textStep_cursorOk i ev : cursorOk i -> cursorOk (textStep i ev).
Proof.
  intros H. destruct ev as [e | px py]; simpl.
  - apply (keyEdit_cursorOk i e H).
  - unfold cursorOk. simpl. pose proof (strlen_nonneg (TextInput.value i)). lia.
Qed.

Lemma textRun_cursorOk evs : forall i, cursorOk i -> cursorOk (textRun i evs).
Proof.
  induction evs as [| ev evs IH]; intros i H; simpl; [exact H |].
  apply IH, textStep_cursorOk, H.
Qed.

(** C10: from the initial state of a TextInput (empty value, cursor at 0),
    after every finite sequence of key-down events and clicks the cursor
    satisfies [0 <= cursorPos <= value.length], and one more key-down
    (Backspace, Delete, ArrowLeft, ArrowRight, Home, End, a printable
    character, or any other key) or click keeps it so. *)
Theorem textinput_cursor_in_bounds (b : Control.t) (ph : string)
    (evs : list TextEvent) (e : KeyEvent) (px py : Q) :
  let i := textRun (TextInput.new b ph) evs in
  cursorOk (TextInput.new b ph)
  /\ cursorOk i
  /\ cursorOk (fst (TextInput.handleKeyDown i e))
  /\ cursorOk (fst (TextInput.handleClick i px py)).
Proof.
  intros i.
  assert (H0 : cursorOk (TextInput.new b ph)).
  { unfold cursorOk, JS.strlen. simpl. lia. }
  pose proof (textRun_cursorOk evs _ H0) as Hi. fold i in Hi.
  split; [exact H0 |]. split; [exact Hi |]. split.
  - apply (textStep_cursorOk i (TextKey e) Hi).
  - apply (textStep_cursorOk i (TextClick px py) Hi).
Qed.

End TextInputFacts.

(** ** Arrays: [length], [indexOf] and [splice] *)

Section ArrayFacts.

Lemma len_zero_iff {A} (l : list A) : JS.len l = 0 <-> l = [].
Proof.
  unfold JS.len. destruct l; simpl; split; intros E; try done; lia.
Qed.

Lemma len_nonneg {A} (l : list A) : 0 <= JS.len l.
Proof. unfold JS.len. lia. Qed.

Lemma len_app_one {A} (l : list A) (a : A) : JS.len (l ++ [a]) = JS.len l + 1.
Proof. unfold JS.len. rewrite length_app. simpl. lia. Qed.

(** [indexOf] answers [-1] or a position of the array. *)
Lemma indexOf_range l r : -1 <= JS.indexOf l r < JS.len l.
Proof.
  induction l as [| a l IH]; simpl; [unfold JS.len; simpl; lia |].
  unfold JS.len in *. simpl length.
  destruct (Nat.eqb a r); [lia |].
  destruct (JS.indexOf l r <? 0) eqn:E; lia.
Qed.

Lemma len_splice1 {A} (l : list A) i :
  0 <= i < JS.len l -> JS.len (JS.splice1 l i) = JS.len l - 1.
Proof.
  unfold JS.len, JS.splice1. intros Hi.
  rewrite length_delete; [lia |].
  apply lookup_lt_is_Some. lia.
Qed.

Lemma indexOf_notin l r : r ∉ l -> JS.indexOf l r = -1.
Proof.
  induction l as [| a l IH]; simpl; intros Hnot; [done |].
  apply not_elem_of_cons in Hnot as [Hne Hnot].
  destruct (Nat.eqb a r) eqn:E; [apply Nat.eqb_eq in E; congruence |].
  rewrite (IH Hnot). done.
Qed.

(** A found index splits the array at the first occurrence, and [splice]
    takes that occurrence out. *)
Lemma indexOf_found l r :
  -1 < JS.indexOf l r ->
  exists pre post,
    l = pre ++ r :: post /\ (r ∉ pre)
    /\ JS.indexOf l r = JS.len pre
    /\ JS.splice1 l (JS.indexOf l r) = pre ++ post.
Proof.
  induction l as [| a l IH]; simpl; [lia |].
  destruct (Nat.eqb a r) eqn:E.
  - apply Nat.eqb_eq in E as ->. intros _. exists [], l.
    split; [done |]. split; [apply not_elem_of_nil |]. done.
  - apply Nat.eqb_neq in E.
    destruct (JS.indexOf l r <? 0) eqn:E'; [lia |].
    apply Z.ltb_ge in E'. intros _.
    destruct IH as (pre & post & -> & Hnot & Hidx & Hsp); [lia |].
    exists (a :: pre), post.
    split; [done |]. split; [apply not_elem_of_cons; done |].
    split.
    + rewrite Hidx. unfold JS.len. simpl length. lia.
    + unfold JS.splice1 in *. rewrite Hidx in *. unfold JS.len in *.
      simpl length.
      replace (Z.to_nat (Z.of_nat (length pre) + 1)) with (S (length pre)) by lia.
      rewrite Nat2Z.id in Hsp. simpl. f_equal. exact Hsp.
Qed.

Lemma indexOf_elem l r : r ∈ l -> -1 < JS.indexOf l r.
Proof.
  induction l as [| a l IH]; simpl; intros Hin; [inversion Hin |].
  destruct (Nat.eqb a r) eqn:E; [lia |].
  apply Nat.eqb_neq in E. apply elem_of_cons in Hin as [-> | Hin]; [done |].
  specialize (IH Hin). destruct (JS.indexOf l r <? 0) eqn:E'; lia.
Qed.

Lemma indexOf_snoc l r : r ∉ l -> JS.indexOf (l ++ [r]) r = JS.len l.
Proof.
  induction l as [| a l IH]; simpl; intros Hnot.
  - rewrite Nat.eqb_refl. done.
  - apply not_elem_of_cons in Hnot as [Hne Hnot].
    destruct (Nat.eqb a r) eqn:E; [apply Nat.eqb_eq in E; congruence |].
    rewrite (IH Hnot). pose proof (len_nonneg l).
    destruct (JS.len l <? 0) eqn:E'; [lia |].
    unfold JS.len. simpl length. lia.
Qed.

Lemma splice1_snoc {A} (l : list A) (a : A) : JS.splice1 (l ++ [a]) (JS.len l) = l.
Proof.
  unfold JS.splice1, JS.len. rewrite Nat2Z.id.
  induction l as [| b l IH]; simpl; [done |]. f_equal. exact IH.
Qed.

End ArrayFacts.

(** ** The manager: the focus index *)

Section FocusFacts.

Context {C : Type} `{Contract.t C}.

Local Abbreviation UI := (CanvasUIMark.t C).

Import CanvasUIMark.

(** [focusOk] in terms of the length. *)
Lemma focusOk_alt (st : UI) :
  focusOk st <->
  (0 < JS.len (controls st) -> 0 <= focusIndex st < JS.len (controls st))
  /\ (JS.len (controls st) = 0 -> focusIndex st = -1).
Proof.
  unfold focusOk. pose proof (len_nonneg (controls st)) as Hn.
  pose proof (len_zero_iff (controls st)) as Hz.
  split; intros [Hpos Hnil]; split; intros Hc.
  - assert (controls st <> []) by (intros E; apply Hz in E; lia).
    specialize (Hpos ltac:(assumption)). lia.
  - apply Hnil, Hz, Hc.
  - assert (JS.len (controls st) <> 0) by (intros E; apply Hz in E; done).
    specialize (Hpos ltac:(lia)). lia.
  - apply Hnil, Hz, Hc.
Qed.

Lemma focusOk_same (st st' : UI) :
  controls st' = controls st -> focusIndex st' = focusIndex st ->
  focusOk st -> focusOk st'.
Proof. unfold focusOk. intros -> ->. done. Qed.

Lemma new_focusOk cw ch (objs : gmap nat C) : focusOk (new cw ch objs).
Proof. unfold focusOk. simpl. split; done. Qed.

Lemma focusNext_focusOk (st : UI) : focusOk st -> focusOk (focusNext st).
Proof.
  rewrite !focusOk_alt. unfold focusNext. intros [Hpos Hnil].
  destruct (JS.len (controls st) =? 0) eqn:E; [auto |].
  apply Z.eqb_neq in E. pose proof (len_nonneg (controls st)) as Hn.
  simpl. split; [| lia]. intros _. specialize (Hpos ltac:(lia)).
  unfold JS.rem. rewrite Z.rem_mod_nonneg by lia.
  apply Z.mod_pos_bound. lia.
Qed.

Lemma focusPrevious_focusOk (st : UI) : focusOk st -> focusOk (focusPrevious st).
Proof.
  rewrite !focusOk_alt. unfold focusPrevious. intros [Hpos Hnil].
  destruct (JS.len (controls st) =? 0) eqn:E; [auto |].
  apply Z.eqb_neq in E. pose proof (len_nonneg (controls st)) as Hn.
  simpl. split; [| lia]. intros _. specialize (Hpos ltac:(lia)).
  unfold JS.rem. rewrite Z.rem_mod_nonneg by lia.
  apply Z.mod_pos_bound. lia.
Qed.

Lemma addControl_focusOk (st : UI) r : focusOk st -> focusOk (addControl st r).
Proof.
  rewrite !focusOk_alt. unfold addControl. intros [Hpos Hnil]. simpl.
  pose proof (len_nonneg (controls st)) as Hn.
  rewrite len_app_one.
  destruct ((focusIndex st =? -1) && (JS.len (controls st) + 1 =? 1)) eqn:E;
    simpl; rewrite len_app_one.
  - split; lia.
  - split; [| lia]. intros _.
    destruct (Z.eq_dec (JS.len (controls st)) 0) as [E0 | E0].
    + rewrite (Hnil E0), E0 in E. discriminate.
    + specialize (Hpos ltac:(lia)). lia.
Qed.

Lemma removeControl_focusOk (st : UI) r :
  focusOk st -> focusOk (removeControl st r).
Proof.
  rewrite !focusOk_alt. unfold removeControl. intros [Hpos Hnil].
  pose proof (indexOf_range (controls st) r) as Hi.
  destruct (-1 <? JS.indexOf (controls st) r) eqn:E; [| auto].
  apply Z.ltb_lt in E. simpl.
  pose proof (len_splice1 (controls st) (JS.indexOf (controls st) r)
                ltac:(lia)) as Hlen.
  specialize (Hpos ltac:(lia)).
  destruct (JS.len (JS.splice1 (controls st) (JS.indexOf (controls st) r))
            <=? focusIndex st) eqn:E'; simpl; rewrite Hlen in *.
  - apply Z.leb_le in E'. split; lia.
  - apply Z.leb_gt in E'. split; lia.
Qed.

(** Moving on from index [i] of [n] controls [k] times. *)
Lemma focusNext_iter (st : UI) (k : nat) :
  controls st <> [] ->
  0 <= focusIndex st <= JS.len (controls st) - 1 ->
  Nat.iter k focusNext st
  = setFocusIndex st ((focusIndex st + Z.of_nat k) mod JS.len (controls st)).
Proof.
  intros Hne Hi.
  assert (Hn : 0 < JS.len (controls st)).
  { pose proof (len_nonneg (controls st)).
    pose proof (len_zero_iff (controls st)). lia. }
  induction k as [| k IH].
  - simpl. rewrite Z.add_0_r, Z.mod_small by lia. destruct st. done.
  - simpl. rewrite IH. unfold focusNext. simpl.
    destruct (JS.len (controls st) =? 0) eqn:E; [apply Z.eqb_eq in E; lia |].
    unfold setFocusIndex. simpl. f_equal.
    unfold JS.rem.
    pose proof (Z.mod_pos_bound (focusIndex st + Z.of_nat k)
                  (JS.len (controls st)) Hn).
    rewrite Z.rem_mod_nonneg by lia.
    rewrite Zplus_mod_idemp_l. f_equal. lia.
Qed.

End FocusFacts.

(** ** The manager: the modal stack *)

Section CloseFacts.

Context {C : Type} `{Contract.t C}.

Local Abbreviation UI := (CanvasUIMark.t C).

Import CanvasUIMark.

(** The top of a non-empty stack. *)
Lemma topModal_last (st : UI) : topModal st = last (modals st).
Proof.
  unfold topModal, JS.get, JS.len.
  destruct (modals st) as [| a l] eqn:E using rev_ind; [done |].
  rewrite length_app, last_snoc. simpl.
  replace (0 <? Z.of_nat (length l + 1)) with true by (symmetry; apply Z.ltb_lt; lia).
  replace (Z.of_nat (length l + 1) - 1 <? 0) with false
    by (symmetry; apply Z.ltb_ge; lia).
  replace (Z.to_nat (Z.of_nat (length l + 1) - 1)) with (length l) by lia.
  apply list_lookup_middle. done.
Qed.

Lemma topModal_nonempty (st : UI) :
  modals st <> [] -> exists m, topModal st = Some m.
Proof.
  intros Hne. rewrite topModal_last.
  destruct (modals st) as [| a l] using rev_ind; [done |].
  rewrite last_snoc. eauto.
Qed.

Lemma topModal_empty (st : UI) : modals st = [] -> topModal st = None.
Proof. intros E. rewrite topModal_last, E. done. Qed.

Lemma closeModal_absent (st : UI) m : m ∉ modals st -> closeModal st m = st.
Proof. intros Hnot. unfold closeModal. rewrite (indexOf_notin _ _ Hnot). done. Qed.

(** Closing takes the first occurrence of the modal off the stack and
    touches nothing else. *)
Lemma closeModal_present (st : UI) m :
  m ∈ modals st ->
  exists pre post,
    modals st = pre ++ m :: post /\ (m ∉ pre)
    /\ closeModal st m = setModals st (pre ++ post).
Proof.
  intros Hin. unfold closeModal.
  pose proof (indexOf_elem _ _ Hin) as Hidx.
  destruct (indexOf_found _ _ Hidx) as (pre & post & E & Hnot & _ & Hsp).
  exists pre, post. repeat split; [exact E | exact Hnot |].
  destruct (-1 <? JS.indexOf (modals st) m) eqn:E'; [| apply Z.ltb_ge in E'; lia].
  rewrite Hsp. done.
Qed.

Lemma closeModal_sublist (st : UI) m : sublist (modals (closeModal st m)) (modals st).
Proof.
  destruct (decide (m ∈ modals st)) as [Hin | Hnot].
  - destruct (closeModal_present st m Hin) as (pre & post & E & _ & ->).
    simpl. rewrite E. apply sublist_app; [done |]. by apply sublist_cons.
  - rewrite closeModal_absent by done. done.
Qed.

Lemma closeModal_gone (st : UI) m :
  NoDup (modals st) -> m ∉ modals (closeModal st m).
Proof.
  intros Hnd. destruct (decide (m ∈ modals st)) as [Hin | Hnot].
  - destruct (closeModal_present st m Hin) as (pre & post & E & Hpre & ->).
    simpl. rewrite E in Hnd. apply NoDup_app in Hnd as (_ & Hdisj & Hpost).
    apply NoDup_cons in Hpost as [Hpost _].
    intros [Hp | Hp]%elem_of_app; done.
  - rewrite closeModal_absent by done. done.
Qed.

Lemma closeModal_twice (st : UI) m :
  NoDup (modals st) -> closeModal (closeModal st m) m = closeModal st m.
Proof. intros Hnd. apply closeModal_absent, closeModal_gone, Hnd. Qed.

Lemma closeModal_frame (st : UI) m :
  dialogs (closeModal st m) = dialogs st /\ log (closeModal st m) = log st.
Proof.
  unfold closeModal. destruct (-1 <? JS.indexOf (modals st) m); done.
Qed.

(** Closing the modal on top of a stack that does not hold it below. *)
Lemma closeModal_top (st : UI) l self :
  modals st = l ++ [self] -> self ∉ l -> closeModal st self = setModals st l.
Proof.
  intros E Hnot. unfold closeModal. rewrite E, (indexOf_snoc l self Hnot).
  pose proof (len_nonneg l).
  destruct (-1 <? JS.len l) eqn:E'; [| apply Z.ltb_ge in E'; lia].
  rewrite splice1_snoc. done.
Qed.

Lemma invoke_log (st : UI) cb : log (invoke st cb) = log st ++ callbackLog cb.
Proof.
  destruct cb as [[f | m] |]; simpl; rewrite ?app_nil_r; [done | | done].
  apply closeModal_frame.
Qed.

Lemma invoke_sublist (st : UI) cb : sublist (modals (invoke st cb)) (modals st).
Proof.
  destruct cb as [[f | m] |]; simpl; [done | apply closeModal_sublist | done].
Qed.

(** After a button's callback and [close()], the modal is off the stack. *)
Lemma close_after_invoke_gone (st : UI) cb self :
  NoDup (modals st) -> self ∉ modals (closeModal (invoke st cb) self).
Proof.
  intros Hnd. apply closeModal_gone.
  eapply sublist_NoDup; [exact Hnd | apply invoke_sublist].
Qed.

Lemma showModal_fresh (st : UI) ttl msg bs ow oh lc :
  stackOk st -> fst (showModal st ttl msg bs ow oh lc) ∉ modals st.
Proof.
  intros [_ Hdom] Hin. apply Hdom in Hin. simpl in Hin.
  exact (is_fresh (dom (dialogs st)) Hin).
Qed.

(** The default button of a modal made without buttons. *)
Lemma new_default_buttons self cw ch ttl msg ow oh lc :
  Modal.buttons (Modal.new self cw ch ttl msg [] ow oh lc)
  = [Modal.mkButton "OK" (Some (Modal.Close self))]
  /\ Modal.selectedButton (Modal.new self cw ch ttl msg [] ow oh lc) = 0.
Proof. unfold Modal.new. destruct (Modal.size cw ch ow oh lc). done. Qed.

(** Selecting the default button of the modal on top: the callback closes
    the modal, and the [close()] that follows finds it gone. *)
Lemma select_default (st : UI) l self m :
  modals st = l ++ [self] -> self ∉ l ->
  Modal.buttons m = [Modal.mkButton "OK" (Some (Modal.Close self))] ->
  Modal.selectedButton m = 0 ->
  Modal_select st self m = setModals st l.
Proof.
  intros E Hnot Hb Hs. unfold Modal_select. rewrite Hb, Hs. simpl.
  unfold Modal_close. rewrite (closeModal_top st l self E Hnot).
  apply closeModal_absent. exact Hnot.
Qed.

End CloseFacts.

(** ** The manager: the hit-test scan *)

Section ScanFacts.

Context {C : Type} `{Contract.t C}.

Local Abbreviation UI := (CanvasUIMark.t C).

Import CanvasUIMark.

Lemma containsAt_lookup (st : UI) i r c px py :
  controls st !! i = Some r -> objects st !! r = Some c ->
  containsAt st i px py = Contract.containsPoint c px py.
Proof. intros Hr Hc. unfold containsAt. rewrite Hr, Hc. done. Qed.

(** The scan from the end stops at the greatest index below [n] whose
    control contains the point. *)
Lemma hitScan_Some (st : UI) px py n i :
  hitScan st px py n = Some i <->
  (i < n)%nat /\ containsAt st i px py = true
  /\ forall j, (i < j < n)%nat -> containsAt st j px py = false.
Proof.
  induction n as [| n IH]; simpl.
  - split; [discriminate | lia].
  - destruct (containsAt st n px py) eqn:E.
    + split.
      * intros [= <-]. repeat split; [lia | exact E | lia].
      * intros (Hlt & Hi & Hafter).
        destruct (decide (i = n)) as [-> | Hne]; [done |].
        rewrite (Hafter n) in E by lia. discriminate.
    + rewrite IH. split.
      * intros (Hlt & Hi & Hafter). repeat split; [lia | exact Hi |].
        intros j Hj. destruct (decide (j = n)) as [-> | Hne]; [exact E |].
        apply Hafter. lia.
      * intros (Hlt & Hi & Hafter).
        assert (i <> n) by (intros ->; congruence).
        repeat split; [lia | exact Hi |]. intros j Hj. apply Hafter. lia.
Qed.

Lemma hitScan_None (st : UI) px py n :
  hitScan st px py n = None <->
  forall j, (j < n)%nat -> containsAt st j px py = false.
Proof.
  induction n as [| n IH]; simpl.
  - split; [lia | done].
  - destruct (containsAt st n px py) eqn:E.
    + split; [discriminate |]. intros Hall. rewrite (Hall n) in E by lia.
      discriminate.
    + rewrite IH. split; intros Hall j Hj.
      * destruct (decide (j = n)) as [-> | Hne]; [exact E | apply Hall; lia].
      * apply Hall. lia.
Qed.

End ScanFacts.

(** ** Properties kept by every input *)

(** The dispatcher is a composition of a few elementary updates.  A property
    of manager states that each of them keeps is kept by every method of a
    modal, by every call delivered to a control and by [dispatch] itself. *)
Section Preservation.

Context {C : Type} `{Contract.t C}.

Local Abbreviation UI := (CanvasUIMark.t C).

Import CanvasUIMark.

Variable P : UI -> Prop.

Hypothesis P_key : forall st k b, P st -> P (setKey st k b).
Hypothesis P_logged : forall st es, TypeError ∉ es -> P st -> P (logged st es).
Hypothesis P_object : forall st r c, P st -> P (setObject st r c).
Hypothesis P_close : forall st m, P st -> P (closeModal st m).
Hypothesis P_moved : forall st self d,
  dialogs st !! self = Some d ->
  P st -> P (Modal_left st self d) /\ P (Modal_right st self d).
Hypothesis P_error : forall st self d,
  dialogs st !! self = Some d ->
  JS.get (Modal.buttons d) (Modal.selectedButton d) = None ->
  P st -> P (logged st [TypeError]).
Hypothesis P_step : forall st, P st -> P (focusNext st) /\ P (focusPrevious st).
Hypothesis P_focus : forall st i,
  (i < length (controls st))%nat -> P st -> P (setFocusIndex st (Z.of_nat i)).

Lemma calls_no_error (calls : list Call) : TypeError ∉ map Called calls.
Proof.
  induction calls as [| c calls IH]; simpl; [apply not_elem_of_nil |].
  apply not_elem_of_cons. split; [discriminate | exact IH].
Qed.

Lemma one_no_error (en : Entry) : en <> TypeError -> TypeError ∉ [en].
Proof.
  intros Hne. apply not_elem_of_cons. split; [congruence | apply not_elem_of_nil].
Qed.

Lemma invoke_keeps st cb : P st -> P (invoke st cb).
Proof.
  intros HP. destruct cb as [[f | m] |]; simpl; [| | exact HP].
  - apply P_logged; [apply one_no_error; discriminate | exact HP].
  - apply P_close, HP.
Qed.

Lemma select_keeps st self d :
  dialogs st !! self = Some d -> P st -> P (Modal_select st self d).
Proof.
  intros Hd HP. unfold Modal_select.
  destruct (JS.get (Modal.buttons d) (Modal.selectedButton d)) as [b |] eqn:E.
  - apply P_close, invoke_keeps, HP.
  - apply (P_error st self d Hd E HP).
Qed.

Lemma escape_keeps st self d : P st -> P (Modal_escape st self d).
Proof.
  intros HP. unfold Modal_escape. apply P_close.
  destruct (Modal.exitButton d); [apply invoke_keeps |]; exact HP.
Qed.

Lemma modal_handlers_keep st self :
  P st ->
  (forall e, P (Modal_handleKeyDown st self e))
  /\ (forall b, P (Modal_handleGamepadButton st self b))
  /\ (forall px py, P (Modal_handleClick st self px py)).
Proof.
  intros HP.
  unfold Modal_handleKeyDown, Modal_handleGamepadButton, Modal_handleClick.
  destruct (dialogs st !! self) as [d |] eqn:Hd; [| done].
  destruct (P_moved st self d Hd HP) as [Hleft Hright].
  pose proof (select_keeps st self d Hd HP) as Hsel.
  pose proof (escape_keeps st self d HP) as Hesc.
  split; [| split].
  - intros e.
    destruct (String.eqb (key e) "ArrowLeft"); [exact Hleft |].
    destruct (String.eqb (key e) "ArrowRight"); [exact Hright |].
    destruct (isEnterOrSpace e); [exact Hsel |].
    destruct (String.eqb (key e) "Escape"); [exact Hesc | exact HP].
  - intros b.
    destruct (b =? 0); [exact Hsel |].
    destruct (b =? 1); [exact Hesc |].
    destruct (b =? 14); [exact Hleft |].
    destruct (b =? 15); [exact Hright | exact HP].
  - intros px py.
    destruct (Modal.firstHit d px py 0 (Modal.buttons d)) as [b |]; [| exact HP].
    apply P_close, invoke_keeps, HP.
Qed.

Lemma entering_keeps st m meth : P st -> P (logged st [ToModal m meth]).
Proof. apply P_logged, one_no_error. discriminate. Qed.

Lemma deliver_keeps st r pick : P st -> P (deliver st r pick).
Proof.
  intros HP. unfold deliver. destruct (objects st !! r) as [c |]; [| exact HP].
  destruct (pick c) as [[meth [c' calls]] |]; [| exact HP].
  apply P_logged; [| apply P_object, HP].
  apply not_elem_of_cons. split; [discriminate | apply calls_no_error].
Qed.

Lemma toFocused_keeps st pick : P st -> P (toFocused st pick).
Proof.
  intros HP. unfold toFocused.
  destruct (focused st); [apply deliver_keeps |]; exact HP.
Qed.

Lemma callOnEscape_keeps st : P st -> P (callOnEscape st).
Proof.
  intros HP. unfold callOnEscape. destruct (onEscape st) as [f |]; [| exact HP].
  apply P_logged; [apply one_no_error; discriminate | exact HP].
Qed.

Lemma clickControls_keeps st px py : P st -> P (clickControls st px py).
Proof.
  intros HP. unfold clickControls.
  destruct (hitScan st px py (length (controls st))) as [i |] eqn:E; [| exact HP].
  apply hitScan_Some in E as [Hlt _].
  pose proof (P_focus st i Hlt HP) as HP1.
  destruct (controls (setFocusIndex st (Z.of_nat i)) !! i) as [r |];
    [apply deliver_keeps |]; exact HP1.
Qed.

Lemma handleKeyDown_keeps st e : P st -> P (handleKeyDown st e).
Proof.
  intros HP. unfold handleKeyDown.
  pose proof (P_key st (key e) true HP) as HP1.
  destruct (topModal (setKey st (key e) true)) as [m |].
  - destruct (String.eqb (key e) "Escape");
      apply modal_handlers_keep, entering_keeps, HP1.
  - destruct (String.eqb (key e) "Escape"); [apply callOnEscape_keeps, HP1 |].
    destruct (String.eqb (key e) "Tab"); [| apply toFocused_keeps, HP1].
    destruct (shiftKey e); apply P_step, HP1.
Qed.

Lemma handleClick_keeps st rect e : P st -> P (handleClick st rect e).
Proof.
  intros HP. unfold handleClick.
  destruct (topModal st) as [m |];
    destruct (getCanvasMousePosition st rect e) as [[px py] |].
  - apply modal_handlers_keep, entering_keeps, HP.
  - apply entering_keeps, HP.
  - apply clickControls_keeps, HP.
  - exact HP.
Qed.

Lemma handleGamepadButton_keeps st b : P st -> P (handleGamepadButton st b).
Proof.
  intros HP. unfold handleGamepadButton.
  destruct (topModal st) as [m |];
    [apply modal_handlers_keep, entering_keeps, HP |].
  destruct (b =? 0); [apply toFocused_keeps, HP |].
  destruct (b =? 1); [apply callOnEscape_keeps, HP |].
  destruct (b =? 12); [apply P_step, HP |].
  destruct (b =? 13); [apply P_step, HP |].
  destruct (b =? 14); [apply toFocused_keeps, HP |].
  destruct (b =? 15); [apply toFocused_keeps, HP | exact HP].
Qed.

Lemma dispatch_keeps st (i : Input) : P st -> P (dispatch st i).
Proof.
  destruct i as [e | rect e | b]; simpl.
  - apply handleKeyDown_keeps.
  - apply handleClick_keeps.
  - apply handleGamepadButton_keeps.
Qed.

(** With the operations of the public interface as well, [P] holds along
    every run. *)
Hypothesis P_add : forall st r, P st -> P (addControl st r).
Hypothesis P_remove : forall st r, P st -> P (removeControl st r).
Hypothesis P_show : forall st ttl msg bs ow oh lc,
  P st -> P (snd (showModal st ttl msg bs ow oh lc)).
Hypothesis P_onEscape : forall st f, P st -> P (setOnEscape st f).

Lemma perform_keeps st cmd : P st -> P (perform st cmd).
Proof.
  intros HP. destruct cmd; simpl.
  - apply P_add, HP.
  - apply P_remove, HP.
  - apply P_step, HP.
  - apply P_step, HP.
  - apply P_show, HP.
  - apply P_close, HP.
  - apply P_onEscape, HP.
  - apply P_object, HP.
  - apply dispatch_keeps, HP.
Qed.

Lemma performAll_keeps cmds : forall st, P st -> P (performAll st cmds).
Proof.
  unfold performAll. induction cmds as [| cmd cmds IH]; intros st HP; simpl;
    [exact HP | apply IH, perform_keeps, HP].
Qed.

End Preservation.

(** ** The invariants of the states the library reaches *)

Section Invariants.

Context {C : Type} `{Contract.t C}.

Local Abbreviation UI := (CanvasUIMark.t C).

Import CanvasUIMark.

(** An update that leaves alone what an invariant reads. *)
Ltac unchanged :=
  intros;
  match goal with
  | HP : focusOk ?s |- focusOk _ => exact (focusOk_same s _ eq_refl eq_refl HP)
  | HP : stackOk ?s |- stackOk _ =>
      split; [exact (proj1 HP) | exact (proj2 HP)]
  | HP : healthy ?s |- healthy _ =>
      split; [exact (proj1 HP) | exact (proj2 HP)]
  end.

Tactic Notation "by_cases_of" reference(f) :=
  intros; unfold f; repeat case_match; unchanged.

(** *** The focus index *)

Lemma dispatch_focusOk (st : UI) (i : Input) : focusOk st -> focusOk (dispatch st i).
Proof.
  apply (dispatch_keeps focusOk).
  - unchanged.
  - unchanged.
  - unchanged.
  - by_cases_of closeModal.
  - intros st0 self d _ HP. split; unchanged.
  - unchanged.
  - intros st0 HP. split; [apply focusNext_focusOk | apply focusPrevious_focusOk]; exact HP.
  - intros st0 i0 Hlt _. apply focusOk_alt. simpl. unfold JS.len. split; lia.
Qed.

Lemma focusOk_kept (cmds : list Command) (st : UI) :
  focusOk st -> focusOk (performAll st cmds).
Proof.
  apply (performAll_keeps focusOk).
  - unchanged.
  - unchanged.
  - unchanged.
  - by_cases_of closeModal.
  - intros st0 self d _ HP. split; unchanged.
  - unchanged.
  - intros st0 HP. split; [apply focusNext_focusOk | apply focusPrevious_focusOk]; exact HP.
  - intros st0 i0 Hlt _. apply focusOk_alt. simpl. unfold JS.len. split; lia.
  - intros st0 r. apply addControl_focusOk.
  - intros st0 r. apply removeControl_focusOk.
  - unchanged.
  - unchanged.
Qed.

(** *** The modal stack *)

Lemma new_stackOk cw ch (objs : gmap nat C) : stackOk (new cw ch objs).
Proof. split; simpl; [apply NoDup_nil_2 | intros m Hm; inversion Hm]. Qed.

Lemma closeModal_stackOk (st : UI) m : stackOk st -> stackOk (closeModal st m).
Proof.
  intros [Hnd Hdom]. split.
  - eapply sublist_NoDup; [exact Hnd | apply closeModal_sublist].
  - intros m' Hm'. destruct (closeModal_frame st m) as [-> _].
    apply Hdom. eapply elem_of_sublist; [exact Hm' | apply closeModal_sublist].
Qed.

Lemma setDialog_stackOk (st : UI) m d : stackOk st -> stackOk (setDialog st m d).
Proof.
  intros [Hnd Hdom]. split; [exact Hnd |]. simpl. intros m' Hm'.
  rewrite dom_insert_L. apply elem_of_union_r, Hdom, Hm'.
Qed.

Lemma showModal_stackOk (st : UI) ttl msg bs ow oh lc :
  stackOk st -> stackOk (snd (showModal st ttl msg bs ow oh lc)).
Proof.
  intros Hok. pose proof (showModal_fresh st ttl msg bs ow oh lc Hok) as Hfresh.
  destruct Hok as [Hnd Hdom]. unfold stackOk. simpl in *. split.
  - apply NoDup_app. split; [exact Hnd |]. split; [| apply NoDup_singleton].
    intros m Hm Hm'. apply list_elem_of_singleton in Hm'. subst m. done.
  - intros m [Hm | Hm]%elem_of_app; rewrite dom_insert_L.
    + apply elem_of_union_r, Hdom, Hm.
    + apply list_elem_of_singleton in Hm. subst m.
      apply elem_of_union_l, elem_of_singleton. done.
Qed.

Lemma stackOk_kept (cmds : list Command) (st : UI) :
  stackOk st -> stackOk (performAll st cmds).
Proof.
  apply (performAll_keeps stackOk).
  - unchanged.
  - unchanged.
  - unchanged.
  - intros st0 m. apply closeModal_stackOk.
  - intros st0 self d _ HP. split; apply setDialog_stackOk, HP.
  - unchanged.
  - intros st0 HP. split; [by_cases_of focusNext | by_cases_of focusPrevious].
  - unchanged.
  - by_cases_of addControl.
  - by_cases_of removeControl.
  - intros st0 ttl msg bs ow oh lc. apply showModal_stackOk.
  - unchanged.
Qed.

(** *** No [TypeError] *)

Lemma new_healthy cw ch (objs : gmap nat C) : healthy (new cw ch objs).
Proof.
  split; simpl; [| apply not_elem_of_nil]. intros m d Hlook.
  rewrite lookup_empty in Hlook. discriminate.
Qed.

Lemma new_modalOk self cw ch ttl msg bs ow oh lc :
  modalOk (Modal.new self cw ch ttl msg bs ow oh lc).
Proof.
  unfold modalOk, Modal.new. destruct (Modal.size cw ch ow oh lc) as [w h]. simpl.
  destruct (0 <? JS.len bs) eqn:E; [apply Z.ltb_lt in E; lia |].
  unfold JS.len. simpl. lia.
Qed.

(** Moving the selection keeps it on a button. *)
Lemma moved_modalOk (d : Modal.t) :
  modalOk d ->
  modalOk (Modal.select d (JS.rem (Modal.selectedButton d - 1 + JS.len (Modal.buttons d))
                                  (JS.len (Modal.buttons d))))
  /\ modalOk (Modal.select d (JS.rem (Modal.selectedButton d + 1)
                                     (JS.len (Modal.buttons d)))).
Proof.
  unfold modalOk, JS.rem. intros Hd. simpl.
  rewrite !Z.rem_mod_nonneg by lia.
  split; apply Z.mod_pos_bound; lia.
Qed.

(** The selected button of a well-formed modal is there to be read. *)
Lemma selected_is_Some (d : Modal.t) :
  modalOk d -> is_Some (JS.get (Modal.buttons d) (Modal.selectedButton d)).
Proof.
  unfold modalOk, JS.get, JS.len. intros Hd.
  destruct (Modal.selectedButton d <? 0) eqn:E; [apply Z.ltb_lt in E; lia |].
  apply lookup_lt_is_Some. lia.
Qed.

Lemma logged_healthy (st : UI) es : TypeError ∉ es -> healthy st -> healthy (logged st es).
Proof.
  intros Hes [Hd Hl]. split; [exact Hd |]. simpl.
  intros [Hin | Hin]%elem_of_app; done.
Qed.

Lemma setDialog_healthy (st : UI) m d :
  modalOk d -> healthy st -> healthy (setDialog st m d).
Proof.
  intros Hd [Hds Hl]. split; [| exact Hl]. simpl. intros m' d' Hlook.
  destruct (decide (m = m')) as [<- | Hne].
  - rewrite lookup_insert_eq in Hlook. injection Hlook as <-. exact Hd.
  - rewrite lookup_insert_ne in Hlook by exact Hne. exact (Hds m' d' Hlook).
Qed.

Lemma healthy_kept (cmds : list Command) (st : UI) :
  healthy st -> healthy (performAll st cmds).
Proof.
  apply (performAll_keeps healthy).
  - unchanged.
  - intros st0 es. apply logged_healthy.
  - unchanged.
  - by_cases_of closeModal.
  - intros st0 self d Hd HP.
    destruct (moved_modalOk d (proj1 HP self d Hd)) as [Hleft Hright].
    split; apply setDialog_healthy; assumption.
  - intros st0 self d Hd Hnone HP.
    destruct (selected_is_Some d (proj1 HP self d Hd)) as [b Hb]. congruence.
  - intros st0 HP. split; [by_cases_of focusNext | by_cases_of focusPrevious].
  - unchanged.
  - by_cases_of addControl.
  - by_cases_of removeControl.
  - intros st0 ttl msg bs ow oh lc HP. simpl.
    match goal with
    | |- healthy (setModals ?s _) => assert (healthy s); [| unchanged]
    end.
    apply setDialog_healthy; [apply new_modalOk | exact HP].
  - unchanged.
Qed.

(** Every state reached from a new manager, by the operations of the public
    interface and the inputs of the host, has its focus index in range and
    its modal stack free of duplicates, and no dispatch on the way has ended
    in a [TypeError]: the selected button of a modal is always one of its
    buttons. *)
Lemma reachable_invariants cw ch (objs : gmap nat C) (cmds : list Command) :
  focusOk (performAll (new cw ch objs) cmds)
  /\ stackOk (performAll (new cw ch objs) cmds)
  /\ healthy (performAll (new cw ch objs) cmds).
Proof.
  split; [| split].
  - apply focusOk_kept, new_focusOk.
  - apply stackOk_kept, new_stackOk.
  - apply healthy_kept, new_healthy.
Qed.

End Invariants.

(** ** Input routing under a modal *)

Section ModalRouting.

Context {C : Type} `{Contract.t C}.

Local Abbreviation UI := (CanvasUIMark.t C).

Import CanvasUIMark.

Lemma modalStep_refl (st : UI) : modalStep st st.
Proof.
  unfold modalStep. repeat split. exists []. rewrite app_nil_r. done.
Qed.

Lemma modalStep_trans (st1 st2 st3 : UI) :
  modalStep st1 st2 -> modalStep st2 st3 -> modalStep st1 st3.
Proof.
  intros (Ec & Ef & Eo & Ee & es & El & Hes)
         (Ec' & Ef' & Eo' & Ee' & es' & El' & Hes').
  unfold modalStep. repeat split; try congruence.
  exists (es ++ es'). rewrite El', El, app_assoc, forallb_app, Hes, Hes'. done.
Qed.

Lemma modalStep_logged (st : UI) es :
  forallb fromModal es = true -> modalStep st (logged st es).
Proof. intros Hes. unfold modalStep. simpl. repeat split. eauto. Qed.

Lemma modalStep_setModals (st : UI) ms : modalStep st (setModals st ms).
Proof.
  unfold modalStep. simpl. repeat split. exists []. rewrite app_nil_r. done.
Qed.

Lemma modalStep_setDialog (st : UI) m d : modalStep st (setDialog st m d).
Proof.
  unfold modalStep. simpl. repeat split. exists []. rewrite app_nil_r. done.
Qed.

Lemma modalStep_closeModal (st : UI) m : modalStep st (closeModal st m).
Proof.
  unfold closeModal. destruct (-1 <? JS.indexOf (modals st) m).
  - apply modalStep_setModals.
  - apply modalStep_refl.
Qed.

Lemma modalStep_invoke (st : UI) cb : modalStep st (invoke st cb).
Proof.
  destruct cb as [[f | m] |]; simpl.
  - apply modalStep_logged. done.
  - apply modalStep_closeModal.
  - apply modalStep_refl.
Qed.

Lemma modalStep_select (st : UI) self m : modalStep st (Modal_select st self m).
Proof.
  unfold Modal_select.
  destruct (JS.get (Modal.buttons m) (Modal.selectedButton m)) as [b |].
  - eapply modalStep_trans; [apply modalStep_invoke | apply modalStep_closeModal].
  - apply modalStep_logged. done.
Qed.

Lemma modalStep_escape (st : UI) self m : modalStep st (Modal_escape st self m).
Proof.
  unfold Modal_escape. destruct (Modal.exitButton m) as [b |].
  - eapply modalStep_trans; [apply modalStep_invoke | apply modalStep_closeModal].
  - apply modalStep_closeModal.
Qed.

Lemma modalStep_handleKeyDown (st : UI) self e :
  modalStep st (Modal_handleKeyDown st self e).
Proof.
  unfold Modal_handleKeyDown.
  destruct (dialogs st !! self) as [m |]; [| apply modalStep_refl].
  destruct (String.eqb (key e) "ArrowLeft"); [apply modalStep_setDialog |].
  destruct (String.eqb (key e) "ArrowRight"); [apply modalStep_setDialog |].
  destruct (isEnterOrSpace e); [apply modalStep_select |].
  destruct (String.eqb (key e) "Escape"); [apply modalStep_escape |].
  apply modalStep_refl.
Qed.

Lemma modalStep_handleGamepadButton (st : UI) self b :
  modalStep st (Modal_handleGamepadButton st self b).
Proof.
  unfold Modal_handleGamepadButton.
  destruct (dialogs st !! self) as [m |]; [| apply modalStep_refl].
  destruct (b =? 0); [apply modalStep_select |].
  destruct (b =? 1); [apply modalStep_escape |].
  destruct (b =? 14); [apply modalStep_setDialog |].
  destruct (b =? 15); [apply modalStep_setDialog |].
  apply modalStep_refl.
Qed.

Lemma modalStep_handleClick (st : UI) self px py :
  modalStep st (Modal_handleClick st self px py).
Proof.
  unfold Modal_handleClick.
  destruct (dialogs st !! self) as [m |]; [| apply modalStep_refl].
  destruct (Modal.firstHit m px py 0 (Modal.buttons m)) as [b |].
  - eapply modalStep_trans; [apply modalStep_invoke | apply modalStep_closeModal].
  - apply modalStep_refl.
Qed.

(** A modal handler entered right after its [ToModal] entry. *)
Lemma entered_modal (st st1 st' : UI) m meth :
  controls st1 = controls st -> focusIndex st1 = focusIndex st ->
  objects st1 = objects st -> onEscape st1 = onEscape st ->
  log st1 = log st ++ [ToModal m meth] ->
  modalStep st1 st' ->
  controls st' = controls st /\ focusIndex st' = focusIndex st
  /\ objects st' = objects st /\ onEscape st' = onEscape st
  /\ exists es, log st' = log st ++ ToModal m meth :: es
                /\ forallb fromModal es = true.
Proof.
  intros Ec Ef Eo Ee El (Ec' & Ef' & Eo' & Ee' & es & El' & Hes).
  repeat split; try congruence.
  exists es. split; [| exact Hes]. rewrite El', El, <- app_assoc. done.
Qed.

Lemma dispatch_under_modal (st : UI) (i : Input) m :
  topModal st = Some m ->
  controls (dispatch st i) = controls st
  /\ focusIndex (dispatch st i) = focusIndex st
  /\ objects (dispatch st i) = objects st
  /\ onEscape (dispatch st i) = onEscape st
  /\ exists es, log (dispatch st i) = log st ++ ToModal m (modalMethod i) :: es
                /\ forallb fromModal es = true.
Proof.
  intros Htop. destruct i as [e | rect e | b]; simpl.
  - unfold handleKeyDown.
    assert (Htop' : topModal (setKey st (key e) true) = Some m) by exact Htop.
    rewrite Htop'.
    set (st1 := logged (setKey st (key e) true) [ToModal m MKeyDown]).
    assert (Hstep : modalStep st1 (Modal_handleKeyDown st1 m e))
      by apply modalStep_handleKeyDown.
    destruct (String.eqb (key e) "Escape");
      apply (entered_modal st st1 _ m MKeyDown); auto.
  - unfold handleClick. rewrite Htop.
    set (st1 := logged st [ToModal m MClick]).
    destruct (getCanvasMousePosition st rect e) as [[px py] |].
    + apply (entered_modal st st1 _ m MClick); auto.
      apply modalStep_handleClick.
    + apply (entered_modal st st1 _ m MClick); auto. apply modalStep_refl.
  - unfold handleGamepadButton. rewrite Htop.
    set (st1 := logged st [ToModal m MGamepadButton]).
    apply (entered_modal st st1 _ m MGamepadButton); auto.
    apply modalStep_handleGamepadButton.
Qed.

(** C1: in every state whose modal stack is not empty, a key event, a click
    or a gamepad-button event goes to the topmost modal and to nothing
    else.  The control list, the focus index and every control object are
    unchanged; the log grows by the entry of the topmost modal's handler
    followed by entries of that modal only, so no method of a control and
    no call of [onEscape] is among them.  The focus index plays no part. *)
Theorem modal_captures_input (st : UI) (i : Input) :
  modals st <> [] ->
  exists m es,
    last (modals st) = Some m
    /\ controls (dispatch st i) = controls st
    /\ focusIndex (dispatch st i) = focusIndex st
    /\ objects (dispatch st i) = objects st
    /\ log (dispatch st i) = log st ++ ToModal m (modalMethod i) :: es
    /\ forallb fromModal es = true.
Proof.
  intros Hne. destruct (topModal_nonempty st Hne) as [m Htop].
  destruct (dispatch_under_modal st i m Htop)
    as (Ec & Ef & Eo & _ & es & El & Hes).
  exists m, es. rewrite <- topModal_last. repeat split; assumption.
Qed.

End ModalRouting.

(** ** Focus navigation *)

Section FocusClaims.

Context {C : Type} `{Contract.t C}.

Local Abbreviation UI := (CanvasUIMark.t C).

Import CanvasUIMark.

(** C4: the focus-index invariant (inside [[0, len - 1]] when the control
    sequence is not empty, [-1] when it is empty) is preserved by
    [addControl], [removeControl], [focusNext], [focusPrevious] and by the
    dispatch of a click, and of a key or gamepad-button event as well. *)
Theorem focus_invariant_preserved (st : UI) :
  focusOk st ->
  (forall r, focusOk (addControl st r))
  /\ (forall r, focusOk (removeControl st r))
  /\ focusOk (focusNext st)
  /\ focusOk (focusPrevious st)
  /\ (forall rect e, focusOk (handleClick st rect e))
  /\ (forall i, focusOk (dispatch st i)).
Proof.
  intros Hok. split; [| split; [| split; [| split; [| split]]]].
  - intros r. apply addControl_focusOk, Hok.
  - intros r. apply removeControl_focusOk, Hok.
  - apply focusNext_focusOk, Hok.
  - apply focusPrevious_focusOk, Hok.
  - intros rect e. apply (dispatch_focusOk st (Click rect e) Hok).
  - intros i. apply dispatch_focusOk, Hok.
Qed.

(** C5: with [n] controls, [n >= 1], and the focus index in [[0, n - 1]],
    [focusNext] applied [n] times brings the focus index back to where it
    started, and the whole state with it. *)
Theorem focusNext_full_cycle (st : UI) :
  controls st <> [] ->
  0 <= focusIndex st <= JS.len (controls st) - 1 ->
  focusIndex (Nat.iter (length (controls st)) focusNext st) = focusIndex st
  /\ Nat.iter (length (controls st)) focusNext st = st.
Proof.
  intros Hne Hi.
  assert (E : Nat.iter (length (controls st)) focusNext st = st).
  { rewrite focusNext_iter by assumption.
    change (Z.of_nat (length (controls st))) with (JS.len (controls st)).
    replace (focusIndex st + JS.len (controls st))
      with (focusIndex st + 1 * JS.len (controls st)) by lia.
    rewrite Z_mod_plus_full, Z.mod_small by lia. destruct st. done. }
  rewrite E. done.
Qed.

(** C6: with no controls, [focusNext] and [focusPrevious] return the state
    they are given, whole; a focus index of [-1] is therefore still [-1].
    Both are total functions that log nothing: no error is raised. *)
Theorem focus_moves_on_empty (st : UI) :
  controls st = [] ->
  focusNext st = st /\ focusPrevious st = st
  /\ (focusIndex st = -1 ->
      focusIndex (focusNext st) = -1 /\ focusIndex (focusPrevious st) = -1).
Proof.
  intros E. unfold focusNext, focusPrevious. rewrite E. simpl. done.
Qed.

End FocusClaims.

(** ** Click dispatch *)

Section ClickFacts.

Context {C : Type} `{Contract.t C}.

Local Abbreviation UI := (CanvasUIMark.t C).

Import CanvasUIMark.

Lemma clickControls_hit (st : UI) px py i r c :
  controls st !! i = Some r -> objects st !! r = Some c ->
  Contract.containsPoint c px py = true ->
  (forall j, (i < j)%nat -> containsAt st j px py = false) ->
  focusIndex (clickControls st px py) = Z.of_nat i
  /\ controls (clickControls st px py) = controls st
  /\ log (clickControls st px py) = log st ++ clickLog r c px py
  /\ objects (clickControls st px py) = clickStore (objects st) r c px py.
Proof.
  intros Hr Hc Hin Hafter. unfold clickControls.
  assert (Hscan : hitScan st px py (length (controls st)) = Some i).
  { apply hitScan_Some. split; [eapply lookup_lt_Some, Hr |].
    split; [rewrite (containsAt_lookup st i r c) by done; exact Hin |].
    intros j Hj. apply Hafter. lia. }
  rewrite Hscan. simpl. rewrite Hr.
  unfold deliver, pickClick, clickLog, clickStore. simpl. rewrite Hc.
  destruct (Contract.handleClick c) as [h |]; simpl.
  - destruct (h px py) as [c' calls]. simpl. done.
  - rewrite app_nil_r. done.
Qed.

Lemma clickControls_miss (st : UI) px py :
  (forall j, containsAt st j px py = false) -> clickControls st px py = st.
Proof.
  intros Hall. unfold clickControls.
  assert (Hscan : hitScan st px py (length (controls st)) = None).
  { apply hitScan_None. intros j _. apply Hall. }
  rewrite Hscan. done.
Qed.

(** C7: a click dispatched while no modal is open goes to the control that
    was added last among those containing the click position.  When the
    control at position [i], the object [r], contains the position and no
    control after it does, the focus index becomes [i], the control list is
    unchanged, the log grows by the entry of [r]'s click handler and the
    callbacks that handler invokes (by nothing if [r] has no click
    handler), and [r] is the only object that changes.  When no control
    contains the position, nothing changes. *)
Theorem click_goes_to_last_added (st : UI) rect e px py :
  modals st = [] ->
  getCanvasMousePosition st rect e = Some (px, py) ->
  (forall i r c,
      controls st !! i = Some r -> objects st !! r = Some c ->
      Contract.containsPoint c px py = true ->
      (forall j, (i < j)%nat -> containsAt st j px py = false) ->
      focusIndex (handleClick st rect e) = Z.of_nat i
      /\ controls (handleClick st rect e) = controls st
      /\ log (handleClick st rect e) = log st ++ clickLog r c px py
      /\ objects (handleClick st rect e) = clickStore (objects st) r c px py)
  /\ ((forall j, containsAt st j px py = false) -> handleClick st rect e = st).
Proof.
  intros Hmod Hpos. unfold handleClick.
  rewrite (topModal_empty st Hmod), Hpos. split.
  - intros i r c. apply clickControls_hit.
  - apply clickControls_miss.
Qed.

End ClickFacts.

(** ** Modal: Escape *)

Section EscapeFacts.

Context {C : Type} `{Contract.t C}.

Local Abbreviation UI := (CanvasUIMark.t C).

Import CanvasUIMark.

Lemma isExit_cancelLike b : Modal.isExit b = true <-> cancelLike (Modal.label b).
Proof.
  unfold Modal.isExit, cancelLike.
  rewrite !orb_true_iff, !String.eqb_eq, !elem_of_cons, elem_of_nil. tauto.
Qed.

Lemma isExit_not_cancelLike b :
  Modal.isExit b = false <-> ~ cancelLike (Modal.label b).
Proof. rewrite <- isExit_cancelLike. destruct (Modal.isExit b); split; congruence. Qed.

(** [find] stops at the first button that passes the test. *)
Lemma exitButton_first m pre b post :
  Modal.buttons m = pre ++ b :: post ->
  cancelLike (Modal.label b) ->
  (forall b', b' ∈ pre -> ~ cancelLike (Modal.label b')) ->
  Modal.exitButton m = Some b.
Proof.
  unfold Modal.exitButton. intros -> Hb Hpre.
  induction pre as [| a pre IH]; simpl.
  - apply isExit_cancelLike in Hb. rewrite Hb. done.
  - assert (Ha : Modal.isExit a = false).
    { apply isExit_not_cancelLike, Hpre. left. }
    rewrite Ha. apply IH. intros b' Hb'. apply Hpre. right. exact Hb'.
Qed.

Lemma exitButton_none m :
  (forall b, b ∈ Modal.buttons m -> ~ cancelLike (Modal.label b)) ->
  Modal.exitButton m = None.
Proof.
  unfold Modal.exitButton. induction (Modal.buttons m) as [| a l IH]; intros Hall;
    simpl; [done |].
  assert (Ha : Modal.isExit a = false).
  { apply isExit_not_cancelLike, Hall. left. }
  rewrite Ha. apply IH. intros b Hb. apply Hall. right. exact Hb.
Qed.

Lemma handleKeyDown_escape (st : UI) self m e :
  dialogs st !! self = Some m -> key e = "Escape" ->
  Modal_handleKeyDown st self e = Modal_escape st self m.
Proof.
  intros Hm Hk. unfold Modal_handleKeyDown, isEnterOrSpace. rewrite Hm, Hk. done.
Qed.

(** C8: Escape on a modal looks for the first button whose label reads
    [exit], [close] or [cancel] when case is ignored.  If there is one, its
    callback is invoked (the log grows by that call, and by nothing if the
    button has no callback) and the modal is closed; if there is none, the
    modal is closed and no callback is invoked.  Either way the modal is off
    the stack afterwards. *)
Theorem modal_escape_runs_exit_action (st : UI) self m e :
  dialogs st !! self = Some m ->
  key e = "Escape" ->
  (forall pre b post,
      Modal.buttons m = pre ++ b :: post ->
      cancelLike (Modal.label b) ->
      (forall b', b' ∈ pre -> ~ cancelLike (Modal.label b')) ->
      Modal_handleKeyDown st self e
      = closeModal (invoke st (Modal.action b)) self
      /\ log (Modal_handleKeyDown st self e)
         = log st ++ callbackLog (Modal.action b))
  /\ ((forall b, b ∈ Modal.buttons m -> ~ cancelLike (Modal.label b)) ->
      Modal_handleKeyDown st self e = closeModal st self
      /\ log (Modal_handleKeyDown st self e) = log st)
  /\ (NoDup (modals st) -> self ∉ modals (Modal_handleKeyDown st self e)).
Proof.
  intros Hm Hk. rewrite (handleKeyDown_escape st self m e Hm Hk).
  unfold Modal_escape, Modal_close. split; [| split].
  - intros pre b post Hb Hlbl Hpre.
    rewrite (exitButton_first m pre b post Hb Hlbl Hpre).
    split; [done |].
    destruct (closeModal_frame (invoke st (Modal.action b)) self) as [_ ->].
    apply invoke_log.
  - intros Hall. rewrite (exitButton_none m Hall).
    split; [done | apply closeModal_frame].
  - intros Hnd. destruct (Modal.exitButton m) as [b |].
    + apply close_after_invoke_gone, Hnd.
    + apply closeModal_gone, Hnd.
Qed.

End EscapeFacts.

(** ** Modal: opening and closing *)

Section DefaultAction.

Context {C : Type} `{Contract.t C}.

Local Abbreviation UI := (CanvasUIMark.t C).

Import CanvasUIMark.

(** C9: closing a modal is idempotent.  On a well-formed stack,
    [closeModal] of a modal that is not on the stack returns the state
    unchanged and [closeModal] of one that is takes it off, so a second
    [closeModal] (or [close()]) of the same modal changes nothing.  For a modal opened without buttons, the default [OK]
    action (Enter or Space, gamepad button 0, or a click on the button),
    whose callback itself calls [close()] before the handler does, leaves
    the stack as it was before the modal was opened and logs no error:
    the modal is closed once, and no other modal is touched. *)
Theorem closing_is_idempotent (st : UI) (m : nat) :
  stackOk st ->
  (m ∉ modals st -> closeModal st m = st)
  /\ (m ∈ modals st ->
      exists pre post, modals st = pre ++ m :: post
                       /\ modals (closeModal st m) = pre ++ post)
  /\ closeModal (closeModal st m) m = closeModal st m
  /\ Modal_close (Modal_close st m) m = Modal_close st m
  /\ forall ttl msg ow oh lc,
       let self := fst (showModal st ttl msg [] ow oh lc) in
       let st1 := snd (showModal st ttl msg [] ow oh lc) in
       modals st1 = modals st ++ [self]
       /\ (forall e, key e = "Enter" \/ key e = " " ->
             modals (handleKeyDown st1 e) = modals st
             /\ log (handleKeyDown st1 e) = log st ++ [ToModal self MKeyDown])
       /\ (modals (handleGamepadButton st1 0) = modals st
           /\ log (handleGamepadButton st1 0)
              = log st ++ [ToModal self MGamepadButton])
       /\ (forall d px py,
             dialogs st1 !! self = Some d -> Modal.hits d 0 px py = true ->
             modals (Modal_handleClick st1 self px py) = modals st
             /\ log (Modal_handleClick st1 self px py) = log st).
Proof.
  intros Hok. split; [apply closeModal_absent |].
  split.
  { intros Hin. destruct (closeModal_present st m Hin) as (pre & post & E & _ & ->).
    exists pre, post. done. }
  split; [apply closeModal_twice, Hok |].
  split; [apply closeModal_twice, Hok |].
  intros ttl msg ow oh lc self st1.
  pose proof (showModal_fresh st ttl msg [] ow oh lc Hok) as Hfresh.
  fold self in Hfresh.
  set (d0 := Modal.new self (canvasWidth st) (canvasHeight st)
                       ttl msg [] ow oh lc).
  assert (Hd : dialogs st1 !! self = Some d0) by apply lookup_insert_eq.
  destruct (new_default_buttons self (canvasWidth st) (canvasHeight st)
              ttl msg ow oh lc) as [Hb Hs].
  fold d0 in Hb, Hs.
  assert (Hm : modals st1 = modals st ++ [self]) by done.
  assert (Htop : topModal st1 = Some self).
  { rewrite topModal_last, Hm, last_snoc. done. }
  split; [exact Hm |]. split; [| split].
  - intros e Hkey. unfold handleKeyDown.
    assert (Htop' : topModal (setKey st1 (key e) true) = Some self) by exact Htop.
    rewrite Htop'.
    set (st2 := logged (setKey st1 (key e) true) [ToModal self MKeyDown]).
    assert (E : Modal_handleKeyDown st2 self e = setModals st2 (modals st)).
    { unfold Modal_handleKeyDown.
      assert (Hd2 : dialogs st2 !! self = Some d0) by exact Hd.
      rewrite Hd2. unfold isEnterOrSpace.
      destruct Hkey as [-> | ->]; simpl;
        apply (select_default st2 (modals st) self d0 Hm Hfresh Hb Hs). }
    assert (Hesc : String.eqb (key e) "Escape" = false)
      by (destruct Hkey as [-> | ->]; done).
    rewrite Hesc, E. done.
  - unfold handleGamepadButton. rewrite Htop.
    set (st2 := logged st1 [ToModal self MGamepadButton]).
    unfold Modal_handleGamepadButton.
    assert (Hd2 : dialogs st2 !! self = Some d0) by exact Hd.
    rewrite Hd2. simpl.
    rewrite (select_default st2 (modals st) self d0 Hm Hfresh Hb Hs). done.
  - intros d px py Hd' Hhit. rewrite Hd in Hd'. injection Hd' as <-.
    unfold Modal_handleClick. rewrite Hd, Hb. simpl. rewrite Hhit. simpl.
    unfold Modal_close. rewrite (closeModal_top st1 (modals st) self Hm Hfresh).
    rewrite closeModal_absent by exact Hfresh. done.
Qed.

End DefaultAction.

(** ** The sample states *)

Section Samples.

Import CanvasUIMark.

Lemma sampleUI_focusOk : focusOk sampleUI.
Proof.
  split; [intros _; vm_compute; split; discriminate |].
  intros E. vm_compute in E. discriminate.
Defined.

Lemma sampleUI_stackOk : stackOk sampleUI.
Proof. split; [apply NoDup_nil_2 | intros m Hm; inversion Hm]. Defined.

(** The Escape key on the paused screen reaches the dialog, not the global
    Escape callback 9 and not the focused button. *)
Lemma modal_captures_input_witness :
  exists m es,
    last (modals pausedUI) = Some m
    /\ controls (dispatch pausedUI (KeyDown (plainKey "Escape")))
       = controls pausedUI
    /\ focusIndex (dispatch pausedUI (KeyDown (plainKey "Escape")))
       = focusIndex pausedUI
    /\ objects (dispatch pausedUI (KeyDown (plainKey "Escape")))
       = objects pausedUI
    /\ log (dispatch pausedUI (KeyDown (plainKey "Escape")))
       = log pausedUI ++ ToModal m MKeyDown :: es
    /\ forallb fromModal es = true.
Proof.
  apply (modal_captures_input pausedUI (KeyDown (plainKey "Escape"))).
  vm_compute. discriminate.
Defined.

(** Removing the last of three controls while it is not focused, and
    clicking where nothing is, keep the invariant. *)
Lemma focus_invariant_preserved_witness :
  focusOk sampleUI
  /\ focusOk (removeControl sampleUI 2%nat)
  /\ focusOk (handleClick sampleUI sampleRect (mkMouse 700 500)).
Proof.
  destruct (focus_invariant_preserved sampleUI sampleUI_focusOk)
    as (_ & Hremove & _ & _ & Hclick & _).
  split; [exact sampleUI_focusOk |]. split; [apply Hremove | apply Hclick].
Defined.

(** Three controls, focus on the first: three moves forward, back at 0. *)
Lemma focusNext_full_cycle_witness :
  focusIndex (Nat.iter 3 focusNext sampleUI) = 0
  /\ Nat.iter 3 focusNext sampleUI = sampleUI.
Proof.
  apply (focusNext_full_cycle sampleUI).
  - vm_compute. discriminate.
  - vm_compute. split; discriminate.
Defined.

Lemma focus_moves_on_empty_witness :
  focusNext emptyUI = emptyUI /\ focusPrevious emptyUI = emptyUI
  /\ (focusIndex emptyUI = -1 ->
      focusIndex (focusNext emptyUI) = -1
      /\ focusIndex (focusPrevious emptyUI) = -1).
Proof. apply (focus_moves_on_empty emptyUI). reflexivity. Defined.

(** A click in the overlap of the two buttons: the upper one, added
    second, takes the focus and is the one activated. *)
Lemma click_goes_to_last_added_witness :
  focusIndex (handleClick sampleUI sampleRect (mkMouse 75 75)) = 1
  /\ log (handleClick sampleUI sampleRect (mkMouse 75 75))
     = [ToControl 1 MClick; Called (Invoked 2 ArgNone)].
Proof.
  destruct (click_goes_to_last_added sampleUI sampleRect (mkMouse 75 75)
              ((75 - 0) * (800 / 800))%Q ((75 - 0) * (600 / 600))%Q
              eq_refl eq_refl) as [Hhit _].
  destruct (Hhit 1%nat 1%nat upperButton eq_refl eq_refl eq_refl)
    as (Hf & _ & Hl & _).
  - intros j Hj. destruct j as [| [| [| j]]]; try lia; reflexivity.
  - split; [exact Hf | exact Hl].
Defined.

(** Escape on the paused screen runs the callback of [Exit] and closes the
    dialog. *)
Lemma modal_escape_runs_exit_action_witness :
  log (Modal_handleKeyDown pausedUI 0%nat (plainKey "Escape"))
  = [Called (Invoked 5 ArgNone)]
  /\ 0%nat ∉ modals (Modal_handleKeyDown pausedUI 0%nat (plainKey "Escape")).
Proof.
  destruct (modal_escape_runs_exit_action pausedUI 0%nat
              (Modal.new 0 800 600 "Paused" "Game is paused" resumeExit
                         None None 1)
              (plainKey "Escape") eq_refl eq_refl) as (Hfound & _ & Hgone).
  destruct (Hfound [Modal.mkButton "Resume" None]
                   (Modal.mkButton "Exit" (Some (Modal.User 5%nat))) []
                   eq_refl) as [_ Hlog].
  - apply isExit_cancelLike. reflexivity.
  - intros b Hb. apply list_elem_of_singleton in Hb. subst b.
    apply isExit_not_cancelLike. reflexivity.
  - split; [exact Hlog |]. apply Hgone. vm_compute. apply NoDup_singleton.
Defined.

(** The default dialog: Enter closes it, and closing it again, by hand,
    changes nothing. *)
Lemma closing_is_idempotent_witness :
  modals (handleKeyDown alertUI (plainKey "Enter")) = []
  /\ log (handleKeyDown alertUI (plainKey "Enter")) = [ToModal 0 MKeyDown]
  /\ closeModal (closeModal sampleUI 0%nat) 0%nat = closeModal sampleUI 0%nat.
Proof.
  destruct (closing_is_idempotent sampleUI 0%nat sampleUI_stackOk)
    as (_ & _ & Htwice & _ & Hdefault).
  destruct (Hdefault "Notice" "Saved" None None 1) as (_ & Hkey & _).
  destruct (Hkey (plainKey "Enter")) as [Hm Hl]; [left; reflexivity |].
  split; [exact Hm |]. split; [exact Hl | exact Htwice].
Defined.

End Samples.

(** ** The scenarios of the specification, run on the model *)

Section Scenarios.

Import CanvasUIMark.

(** Two controls registered in order: focus starts at 0, Tab moves it to 1,
    Shift+Tab back to 0. *)
Example tab_scenario :
  let ui := addControl (addControl emptyUI 0%nat) 1%nat in
  focusIndex ui = 0
  /\ focusIndex (handleKeyDown ui (plainKey "Tab")) = 1
  /\ focusIndex (handleKeyDown (handleKeyDown ui (plainKey "Tab"))
                               (mkKey "Tab" true false false)) = 0.
Proof. repeat split. Qed.

(** The slider at 50 with step 5, focused, three Left arrows: 35. *)
Example slider_scenario :
  let ui := focusPrevious sampleUI in
  let ui3 := handleKeyDown (handleKeyDown (handleKeyDown ui
               (plainKey "ArrowLeft")) (plainKey "ArrowLeft"))
               (plainKey "ArrowLeft") in
  focusIndex ui = 2
  /\ exists s, objects ui3 !! 2%nat = Some (ASlider s) /\ (Slider.value s == 35)%Q.
Proof.
  split; [reflexivity |]. eexists. split; [vm_compute; reflexivity |].
  reflexivity.
Qed.

(** Escape with [Resume] and [Exit]: the callback of [Exit] runs and the
    dialog closes; with [Yes] and [No], the dialog closes and nothing is
    called.  The global Escape callback 9 is not called in either case. *)
Example escape_scenarios :
  log (handleKeyDown pausedUI (plainKey "Escape"))
  = [ToModal 0 MKeyDown; Called (Invoked 5 ArgNone)]
  /\ modals (handleKeyDown pausedUI (plainKey "Escape")) = []
  /\ log (handleKeyDown confirmUI (plainKey "Escape")) = [ToModal 0 MKeyDown]
  /\ modals (handleKeyDown confirmUI (plainKey "Escape")) = []
  /\ log (handleKeyDown sampleUI (plainKey "Escape")) = [OnEscape 9].
Proof. repeat split. Qed.

(** The gamepad: button 0 activates the focused button, which calls its
    callback 1; D-pad down moves the focus on without calling anything. *)
Example gamepad_scenario :
  log (handleGamepadButton sampleUI 0) = [ToControl 0 MActivate; Called (Invoked 1 ArgNone)]
  /\ focusIndex (handleGamepadButton sampleUI 13) = 1
  /\ log (handleGamepadButton sampleUI 13) = [].
Proof. repeat split. Qed.

(** Typing into a text field and editing it. *)
Example typing_scenario :
  let i := textRun (TextInput.new sampleBase "name")
             [TextKey (plainKey "a"); TextKey (plainKey "b");
              TextKey (plainKey "ArrowLeft"); TextKey (plainKey "Backspace");
              TextKey (plainKey "c"); TextKey (plainKey "End")] in
  TextInput.value i = "cb" /\ TextInput.cursorPos i = 2.
Proof. repeat split. Qed.

End Scenarios.

(** * Further properties of the library *)

(** ** Focus and the control list *)

Section FocusExtras.

Context {C : Type} `{Contract.t C}.

Local Abbreviation UI := (CanvasUIMark.t C).

Import CanvasUIMark.

Lemma setFocusIndex_back (st : UI) i j :
  j = focusIndex st -> setFocusIndex (setFocusIndex st i) j = st.
Proof. intros ->. destruct st. reflexivity. Qed.

(** X1: with at least one control and the focus index in range,
    [focusPrevious] undoes [focusNext] and [focusNext] undoes
    [focusPrevious]: Tab followed by Shift+Tab is back where it started. *)
Theorem focus_next_previous_inverse (st : UI) :
  controls st <> [] ->
  0 <= focusIndex st <= JS.len (controls st) - 1 ->
  focusPrevious (focusNext st) = st /\ focusNext (focusPrevious st) = st.
Proof.
  intros Hne Hi.
  assert (Hn : 0 < JS.len (controls st)).
  { pose proof (len_nonneg (controls st)).
    pose proof (len_zero_iff (controls st)). lia. }
  unfold focusNext, focusPrevious.
  destruct (JS.len (controls st) =? 0) eqn:E; [apply Z.eqb_eq in E; lia |].
  simpl. rewrite E. unfold JS.rem.
  set (n := JS.len (controls st)) in *. set (i := focusIndex st) in *.
  split; apply setFocusIndex_back; fold i.
  - rewrite (Z.rem_mod_nonneg (i + 1) n) by lia.
    destruct (Z.eq_dec (i + 1) n) as [E1 | E1].
    + rewrite E1, Z_mod_same_full. rewrite Z.rem_mod_nonneg by lia.
      rewrite Z.mod_small by lia. lia.
    + rewrite (Z.mod_small (i + 1) n) by lia.
      rewrite Z.rem_mod_nonneg by lia.
      replace (i + 1 - 1 + n) with (i + 1 * n) by lia.
      rewrite Z_mod_plus_full, Z.mod_small by lia. lia.
  - rewrite (Z.rem_mod_nonneg (i - 1 + n) n) by lia.
    destruct (Z.eq_dec i 0) as [E0 | E0].
    + rewrite E0. replace (0 - 1 + n) with (n - 1) by lia.
      rewrite (Z.mod_small (n - 1) n) by lia.
      replace (n - 1 + 1) with n by lia.
      rewrite Z.rem_mod_nonneg by lia. rewrite Z_mod_same_full. lia.
    + replace (i - 1 + n) with (i - 1 + 1 * n) by lia.
      rewrite Z_mod_plus_full, (Z.mod_small (i - 1) n) by lia.
      rewrite Z.rem_mod_nonneg by lia. rewrite Z.mod_small by lia. lia.
Qed.

(** X2: registering a control that is not on the list and removing it again
    gives back the state, focus index included, whenever the focus invariant
    held before. *)
Theorem add_then_remove (st : UI) (r : nat) :
  focusOk st -> r ∉ controls st -> removeControl (addControl st r) r = st.
Proof.
  intros Hok Hnot. apply focusOk_alt in Hok as [Hpos Hnil].
  pose proof (len_nonneg (controls st)) as Hn.
  unfold addControl. simpl. rewrite len_app_one.
  assert (Hrm : forall st1 : UI,
             controls st1 = controls st ++ [r] ->
             JS.indexOf (controls st1) r = JS.len (controls st)
             /\ JS.splice1 (controls st1) (JS.len (controls st)) = controls st).
  { intros st1 ->. split; [apply indexOf_snoc, Hnot | apply splice1_snoc]. }
  destruct ((focusIndex st =? -1) && (JS.len (controls st) + 1 =? 1)) eqn:E.
  - apply andb_prop in E as [E1 E2].
    apply Z.eqb_eq in E1. apply Z.eqb_eq in E2.
    unfold removeControl.
    destruct (Hrm (setFocusIndex (setControls st (controls st ++ [r])) 0) eq_refl)
      as [-> Hsp].
    destruct (-1 <? JS.len (controls st)) eqn:E3; [| apply Z.ltb_ge in E3; lia].
    rewrite Hsp. simpl.
    destruct (JS.len (controls st) <=? 0) eqn:E4; [| apply Z.leb_gt in E4; lia].
    replace (JS.len (controls st) - 1) with (focusIndex st) by lia.
    destruct st. reflexivity.
  - unfold removeControl.
    destruct (Hrm (setControls st (controls st ++ [r])) eq_refl) as [-> Hsp].
    destruct (-1 <? JS.len (controls st)) eqn:E3; [| apply Z.ltb_ge in E3; lia].
    rewrite Hsp. simpl.
    destruct (JS.len (controls st) <=? focusIndex st) eqn:E4.
    + apply Z.leb_le in E4.
      destruct (Z.eq_dec (JS.len (controls st)) 0) as [E0 | E0].
      * rewrite (Hnil E0), E0 in E. discriminate.
      * specialize (Hpos ltac:(lia)). lia.
    + destruct st. reflexivity.
Qed.

(** X3: [removeControl] of a control that is not on the list changes
    nothing; of one that is, it takes out the first occurrence and keeps the
    other controls in their order. *)
Theorem remove_takes_first_occurrence (st : UI) (r : nat) :
  (r ∉ controls st -> removeControl st r = st)
  /\ (r ∈ controls st ->
      exists pre post,
        controls st = pre ++ r :: post /\ (r ∉ pre)
        /\ controls (removeControl st r) = pre ++ post).
Proof.
  split.
  - intros Hnot. unfold removeControl. rewrite (indexOf_notin _ _ Hnot). done.
  - intros Hin. pose proof (indexOf_elem _ _ Hin) as Hidx.
    destruct (indexOf_found _ _ Hidx) as (pre & post & E & Hnot & _ & Hsp).
    exists pre, post. split; [exact E |]. split; [exact Hnot |].
    unfold removeControl.
    destruct (-1 <? JS.indexOf (controls st) r) eqn:E'; [| apply Z.ltb_ge in E'; lia].
    simpl. rewrite Hsp.
    destruct (JS.len (pre ++ post) <=? focusIndex st); done.
Qed.

End FocusExtras.

(** ** Keyboard and gamepad routing *)

Section RoutingExtras.

Context {C : Type} `{Contract.t C}.

Local Abbreviation UI := (CanvasUIMark.t C).

Import CanvasUIMark.

Lemma deliver_other (st : UI) r0 pick r :
  r <> r0 -> objects (deliver st r0 pick) !! r = objects st !! r.
Proof.
  intros Hne. unfold deliver. destruct (objects st !! r0) as [c |]; [| done].
  destruct (pick c) as [[meth [c' calls]] |]; [| done].
  simpl. apply lookup_insert_ne. congruence.
Qed.

Lemma deliver_focus (st : UI) r0 pick :
  focusIndex (deliver st r0 pick) = focusIndex st
  /\ controls (deliver st r0 pick) = controls st.
Proof.
  unfold deliver. destruct (objects st !! r0) as [c |]; [| done].
  destruct (pick c) as [[meth [c' calls]] |]; done.
Qed.

Lemma toFocused_other (st : UI) pick r :
  focused st <> Some r -> objects (toFocused st pick) !! r = objects st !! r.
Proof.
  intros Hne. unfold toFocused. destruct (focused st) as [r0 |]; [| done].
  apply deliver_other. congruence.
Qed.

Lemma focus_moves_objects (st : UI) :
  objects (focusNext st) = objects st /\ objects (focusPrevious st) = objects st.
Proof.
  unfold focusNext, focusPrevious. destruct (JS.len (controls st) =? 0); done.
Qed.

Lemma callOnEscape_objects (st : UI) : objects (callOnEscape st) = objects st.
Proof. unfold callOnEscape. destruct (onEscape st); done. Qed.

(** X4: a key press or a gamepad button never changes a control object
    that is not the focused one, whatever the key or the button and whether
    or not a modal is open. *)
Theorem unfocused_controls_untouched (st : UI) (i : Input) (r : nat) :
  (forall rect e, i <> Click rect e) ->
  focused st <> Some r ->
  objects (dispatch st i) !! r = objects st !! r.
Proof.
  intros Hkind Hne. destruct (topModal st) as [m |] eqn:Htop.
  - destruct (dispatch_under_modal st i m Htop) as (_ & _ & -> & _). done.
  - destruct i as [e | rect e | b]; simpl; [| by destruct (Hkind rect e) |].
    + unfold handleKeyDown.
      assert (Htop' : topModal (setKey st (key e) true) = None) by exact Htop.
      rewrite Htop'.
      destruct (String.eqb (key e) "Escape");
        [rewrite callOnEscape_objects; done |].
      destruct (String.eqb (key e) "Tab").
      * destruct (shiftKey e);
          [rewrite (proj2 (focus_moves_objects _)) | rewrite (proj1 (focus_moves_objects _))];
          done.
      * rewrite toFocused_other; done.
    + unfold handleGamepadButton. rewrite Htop.
      destruct (b =? 0); [apply toFocused_other, Hne |].
      destruct (b =? 1); [rewrite callOnEscape_objects; done |].
      destruct (b =? 12); [rewrite (proj2 (focus_moves_objects _)); done |].
      destruct (b =? 13); [rewrite (proj1 (focus_moves_objects _)); done |].
      destruct (b =? 14); [apply toFocused_other, Hne |].
      destruct (b =? 15); [apply toFocused_other, Hne | done].
Qed.

(** X5: with no modal open, Tab and Escape stay with the manager.  Neither
    changes a control object or the control list; Tab moves the focus as
    [focusNext] (with Shift, [focusPrevious]) does and logs nothing; Escape
    leaves the focus alone and calls [onEscape] once when it is set, and
    nothing otherwise.  The focused control, a text field included, sees
    neither key. *)
Theorem tab_and_escape_stay_with_manager (st : UI) (e : KeyEvent) :
  modals st = [] ->
  (key e = "Tab" ->
   objects (handleKeyDown st e) = objects st
   /\ controls (handleKeyDown st e) = controls st
   /\ log (handleKeyDown st e) = log st
   /\ focusIndex (handleKeyDown st e)
      = focusIndex (if shiftKey e then focusPrevious st else focusNext st))
  /\ (key e = "Escape" ->
      objects (handleKeyDown st e) = objects st
      /\ controls (handleKeyDown st e) = controls st
      /\ focusIndex (handleKeyDown st e) = focusIndex st
      /\ log (handleKeyDown st e)
         = log st ++ match onEscape st with
                     | Some f => [OnEscape f]
                     | None => []
                     end).
Proof.
  intros Hmod. pose proof (topModal_empty st Hmod) as Htop.
  assert (Htop' : topModal (setKey st (key e) true) = None) by exact Htop.
  split; intros Hk; unfold handleKeyDown; rewrite Htop', Hk; simpl.
  - unfold focusNext, focusPrevious. simpl.
    destruct (shiftKey e); destruct (JS.len (controls st) =? 0); done.
  - unfold callOnEscape. simpl. destruct (onEscape st); simpl;
      rewrite ?app_nil_r; done.
Qed.

(** X6: along every run from a new manager (controls added and removed,
    focus moved, modals shown and closed, objects replaced, inputs
    delivered), no dispatch ends in the [TypeError] of reading the callback
    of a missing modal button, the selection of every modal stays on one of
    its buttons, and no modal is on the stack twice. *)
Theorem no_dispatch_throws cw ch (objs : gmap nat C) (cmds : list Command) :
  (TypeError ∉ log (performAll (new cw ch objs) cmds))
  /\ (forall m d, dialogs (performAll (new cw ch objs) cmds) !! m = Some d ->
                  0 <= Modal.selectedButton d < JS.len (Modal.buttons d))
  /\ NoDup (modals (performAll (new cw ch objs) cmds)).
Proof.
  destruct (reachable_invariants cw ch objs cmds) as (_ & [Hnd _] & [Hd Hl]).
  split; [exact Hl |]. split; [exact Hd | exact Hnd].
Qed.

End RoutingExtras.

(** ** Modal dialogs *)

Section ModalExtras.

Context {C : Type} `{Contract.t C}.

Local Abbreviation UI := (CanvasUIMark.t C).

Import CanvasUIMark.

Local Open Scope Q_scope.

(** Two buttons of a row with a positive spacing share no point. *)
Lemma hits_disjoint (m : Modal.t) (j k : nat) px py :
  0 <= Modal.buttonWidth m -> 0 < Modal.buttonSpacing m ->
  (j < k)%nat ->
  Modal.hits m j px py = true -> Modal.hits m k px py = false.
Proof.
  intros Hw Hs Hjk Hj.
  destruct (Modal.hits m k px py) eqn:Hk; [| reflexivity]. exfalso.
  unfold Modal.hits in Hj, Hk.
  rewrite !andb_true_iff, !Qle_bool_iff in Hj, Hk.
  destruct Hj as [[[_ Hj] _] _]. destruct Hk as [[[Hk _] _] _].
  assert (Hd : inject_Z (Z.of_nat j) + 1 <= inject_Z (Z.of_nat k)).
  { change 1 with (inject_Z 1). rewrite <- inject_Z_plus, <- Zle_Qle. lia. }
  set (w := Modal.buttonWidth m) in *. set (s := Modal.buttonSpacing m) in *.
  assert (Hmul : (inject_Z (Z.of_nat j) + 1) * (w + s)
                 <= inject_Z (Z.of_nat k) * (w + s)).
  { apply Qmult_le_compat_r; [exact Hd | lra]. }
  lra.
Qed.

Lemma firstHit_None (m : Modal.t) px py bs : forall i,
  (forall k, (k < length bs)%nat -> Modal.hits m (i + k) px py = false) ->
  Modal.firstHit m px py i bs = None.
Proof.
  induction bs as [| b bs IH]; intros i Hall; simpl; [reflexivity |].
  pose proof (Hall O ltac:(simpl; lia)) as H0. rewrite Nat.add_0_r in H0.
  rewrite H0. apply IH. intros k Hk.
  replace (S i + k)%nat with (i + S k)%nat by lia. apply Hall. simpl. lia.
Qed.

Lemma firstHit_at (m : Modal.t) px py bs : forall i k b,
  bs !! k = Some b ->
  Modal.hits m (i + k) px py = true ->
  (forall j, (j < k)%nat -> Modal.hits m (i + j) px py = false) ->
  Modal.firstHit m px py i bs = Some b.
Proof.
  induction bs as [| b0 bs IH]; intros i k b Hb Hk Hbefore; [done |].
  simpl. destruct k as [| k].
  - rewrite Nat.add_0_r in Hk. rewrite Hk. simpl in Hb. congruence.
  - pose proof (Hbefore O ltac:(lia)) as H0. rewrite Nat.add_0_r in H0.
    rewrite H0. apply (IH (S i) k b).
    + exact Hb.
    + replace (S i + k)%nat with (i + S k)%nat by lia. exact Hk.
    + intros j Hj. replace (S i + j)%nat with (i + S j)%nat by lia.
      apply Hbefore. lia.
Qed.

(** X7: a click on a modal picks its button by position.  With a button
    row of non-negative button width and positive spacing (the constructor's
    150 and 20), a click inside the rectangle of button [k] invokes the
    callback of button [k] and closes the modal, whichever buttons come
    before it; a click inside no button's rectangle changes nothing, so a
    click beside the buttons or outside the modal does not close it. *)
Theorem modal_click_picks_button (st : UI) (self : nat) (d : Modal.t) px py :
  dialogs st !! self = Some d ->
  0 <= Modal.buttonWidth d -> 0 < Modal.buttonSpacing d ->
  (forall k b,
      Modal.buttons d !! k = Some b -> Modal.hits d k px py = true ->
      Modal_handleClick st self px py
      = closeModal (invoke st (Modal.action b)) self)
  /\ ((forall k, (k < length (Modal.buttons d))%nat ->
                 Modal.hits d k px py = false) ->
      Modal_handleClick st self px py = st).
Proof.
  intros Hd Hw Hs. unfold Modal_handleClick. rewrite Hd. split.
  - intros k b Hb Hk.
    rewrite (firstHit_at d px py (Modal.buttons d) 0 k b Hb Hk); [done |].
    intros j Hj. simpl.
    destruct (Modal.hits d j px py) eqn:E; [| reflexivity].
    pose proof (hits_disjoint d j k px py Hw Hs Hj E). congruence.
  - intros Hall. rewrite (firstHit_None d px py (Modal.buttons d) 0 Hall). done.
Qed.

Lemma select_same (d : Modal.t) : Modal.select d (Modal.selectedButton d) = d.
Proof. destruct d. reflexivity. Qed.

Lemma select_select (d : Modal.t) i j :
  Modal.select (Modal.select d i) j = Modal.select d j.
Proof. reflexivity. Qed.

Local Close Scope Q_scope.

(** X8: the arrow keys move a modal's selection round its buttons.  For a
    modal whose selection is on one of its [n] buttons, ArrowRight goes to
    the next button and from the last to the first, ArrowLeft to the
    previous one and from the first to the last; the selection stays on a
    button, and ArrowLeft after ArrowRight is back on the same button. *)
Theorem modal_arrows_cycle (st : UI) (self : nat) (d : Modal.t)
    (right left : KeyEvent) :
  dialogs st !! self = Some d ->
  modalOk d ->
  key right = "ArrowRight" -> key left = "ArrowLeft" ->
  let n := JS.len (Modal.buttons d) in
  let i := Modal.selectedButton d in
  dialogs (Modal_handleKeyDown st self right) !! self
  = Some (Modal.select d (if i =? n - 1 then 0 else i + 1))
  /\ dialogs (Modal_handleKeyDown st self left) !! self
     = Some (Modal.select d (if i =? 0 then n - 1 else i - 1))
  /\ dialogs (Modal_handleKeyDown (Modal_handleKeyDown st self right) self left)
       !! self = Some d.
Proof.
  intros Hd Hok Hr Hl n i. unfold modalOk in Hok. fold n i in Hok.
  assert (Er : JS.rem (i + 1) n = if i =? n - 1 then 0 else i + 1).
  { unfold JS.rem. rewrite Z.rem_mod_nonneg by lia.
    destruct (i =? n - 1) eqn:E.
    - apply Z.eqb_eq in E. replace (i + 1) with n by lia. apply Z_mod_same_full.
    - apply Z.eqb_neq in E. apply Z.mod_small. lia. }
  assert (El : forall k, 0 <= k < n ->
                 JS.rem (k - 1 + n) n = if k =? 0 then n - 1 else k - 1).
  { intros k Hk. unfold JS.rem. rewrite Z.rem_mod_nonneg by lia.
    destruct (k =? 0) eqn:E.
    - apply Z.eqb_eq in E. subst k. replace (0 - 1 + n) with (n - 1) by lia.
      apply Z.mod_small. lia.
    - apply Z.eqb_neq in E. replace (k - 1 + n) with (k - 1 + 1 * n) by lia.
      rewrite Z_mod_plus_full. apply Z.mod_small. lia. }
  assert (Hright : Modal_handleKeyDown st self right
                   = setDialog st self (Modal.select d (JS.rem (i + 1) n))).
  { unfold Modal_handleKeyDown. rewrite Hd, Hr. reflexivity. }
  assert (Hleft : forall (st0 : UI) d0,
             dialogs st0 !! self = Some d0 ->
             Modal_handleKeyDown st0 self left
             = setDialog st0 self
                 (Modal.select d0
                    (JS.rem (Modal.selectedButton d0 - 1 + JS.len (Modal.buttons d0))
                            (JS.len (Modal.buttons d0))))).
  { intros st0 d0 Hd0. unfold Modal_handleKeyDown. rewrite Hd0, Hl. reflexivity. }
  split; [| split].
  - rewrite Hright, Er. apply lookup_insert_eq.
  - rewrite (Hleft st d Hd). fold n i. rewrite (El i Hok). apply lookup_insert_eq.
  - rewrite Hright.
    rewrite (Hleft _ (Modal.select d (JS.rem (i + 1) n)) (lookup_insert_eq _ _ _)).
    simpl. fold n. rewrite lookup_insert_eq. f_equal.
    rewrite <- (select_same d) at 2. fold i. f_equal.
    rewrite Er. destruct (i =? n - 1) eqn:E.
    + apply Z.eqb_eq in E. rewrite (El 0) by lia. simpl. lia.
    + apply Z.eqb_neq in E. rewrite (El (i + 1)) by lia.
      destruct (i + 1 =? 0) eqn:E0; [apply Z.eqb_eq in E0; lia | lia].
Qed.

Lemma half (a : Q) : (a / 2 == a * (1 # 2))%Q.
Proof. field. Qed.

(** X9: the constructor centres a modal on the canvas, [x + width + x] being
    the canvas width and [y + height + y] the canvas height.  On a canvas of
    non-negative width the modal starts at [x >= 0]; it starts at [y >= 0]
    when a size is given or the canvas is at least 200 high.  Without a
    given size the height is never below 200, so on a lower canvas the
    modal sticks out above and below. *)
Theorem modal_is_centred (self : nat) (cw ch : Q) (ttl msg : string)
    (bs : list Modal.button) (ow oh : option Q) (lineCount : Z) :
  let d := Modal.new self cw ch ttl msg bs ow oh lineCount in
  (Modal.x d + Modal.width d + Modal.x d == cw)%Q
  /\ (Modal.y d + Modal.height d + Modal.y d == ch)%Q
  /\ ((0 <= cw)%Q -> (0 <= Modal.x d)%Q)
  /\ ((0 <= ch)%Q -> Modal.givenSize ow oh <> None \/ (200 <= ch)%Q ->
      (0 <= Modal.y d)%Q)
  /\ (Modal.givenSize ow oh = None ->
      (200 <= Modal.height d)%Q
      /\ ((ch < 200)%Q -> (Modal.y d < 0)%Q)).
Proof.
  unfold Modal.new, Modal.size.
  destruct (Modal.givenSize ow oh) as [[w h] |] eqn:Eg; simpl.
  - split; [field |]. split; [field |].
    destruct (min_cases w (cw * (9 # 10))) as [[Ew Hw] | [Ew Hw]];
      destruct (min_cases h (ch * (9 # 10))) as [[Eh Hh] | [Eh Hh]];
      (split; [intros Hc; rewrite Ew, half; lra |]);
      (split; [intros Hc _; rewrite Eh, half; lra | intros; discriminate]).
  - split; [field |]. split; [field |].
    set (body := (60 + (inject_Z lineCount * 25 + 40) + 90)%Q).
    destruct (min_cases 600 (cw * (8 # 10))) as [[Ew Hw] | [Ew Hw]];
      destruct (min_cases body (ch * (8 # 10))) as [[Eb Hb] | [Eb Hb]];
      destruct (max_cases 200 (JS.min body (ch * (8 # 10)))) as [[Eh Hh] | [Eh Hh]];
      (split; [intros Hc; rewrite Ew, half; lra |]);
      (split; [intros Hc [Hg | Hg]; [congruence | rewrite Eh, ?Eb, half; lra] |]);
      intros _; (split; [rewrite Eh, ?Eb; lra |]); intros Hlow;
      rewrite Eh, ?Eb, half; lra.
Qed.

(** X10: modals stack.  On a well-formed stack, [showModal] puts the new
    modal on top; closing it brings back the modal that was on top before;
    and closing any other modal leaves the new one on top. *)
Theorem modals_are_a_stack (st : UI) ttl msg bs ow oh lc :
  stackOk st ->
  let m := fst (showModal st ttl msg bs ow oh lc) in
  let st1 := snd (showModal st ttl msg bs ow oh lc) in
  topModal st1 = Some m
  /\ topModal (closeModal st1 m) = topModal st
  /\ forall m', m' <> m -> topModal (closeModal st1 m') = Some m.
Proof.
  intros Hok m st1.
  pose proof (showModal_fresh st ttl msg bs ow oh lc Hok) as Hfresh. fold m in Hfresh.
  assert (Hm : modals st1 = modals st ++ [m]) by done.
  split; [rewrite topModal_last, Hm, last_snoc; done |]. split.
  - rewrite (closeModal_top st1 (modals st) m Hm Hfresh).
    rewrite !topModal_last. done.
  - intros m' Hne. rewrite topModal_last.
    destruct (decide (m' ∈ modals st1)) as [Hin | Hnot].
    + destruct (closeModal_present st1 m' Hin) as (pre & post & E & _ & ->).
      simpl. rewrite Hm in E.
      destruct post as [| p post] using rev_ind.
      * apply app_inj_tail in E as [_ E]. congruence.
      * rewrite app_comm_cons, app_assoc in E.
        apply app_inj_tail in E as [_ <-].
        rewrite app_assoc, last_snoc. done.
    + rewrite closeModal_absent by exact Hnot. rewrite Hm, last_snoc. done.
Qed.

End ModalExtras.

(** ** Panels *)

Section PanelExtras.

Import CanvasUIMark.

Local Abbreviation UI := (CanvasUIMark.t Widget).

Lemma hit_is_no_panel (st : UI) px py i :
  containsAt st i px py = true ->
  exists r w, controls st !! i = Some r /\ objects st !! r = Some w
              /\ (forall c, w <> Panel c)
              /\ Control.containsPoint (Widget.base w) px py = true.
Proof.
  unfold containsAt. destruct (controls st !! i) as [r |] eqn:Hr; [| discriminate].
  destruct (objects st !! r) as [w |] eqn:Hw; [| discriminate].
  intros Hin. exists r, w. split; [reflexivity |]. split; [exact Hw |].
  destruct w; simpl in Hin; try discriminate;
    (split; [intros c'; discriminate | exact Hin]).
Qed.

(** X11: a panel takes no click and never gets the focus by one.  With no
    modal open, a click either leaves the whole state as it was, or moves
    the focus to a control that is not a panel and whose rectangle contains
    the click; a panel lying over other controls does not shield them. *)
Theorem click_never_lands_on_panel (st : UI) (rect : Rect) (e : MouseEvent) :
  modals st = [] ->
  handleClick st rect e = st
  \/ exists i r w px py,
       getCanvasMousePosition st rect e = Some (px, py)
       /\ focusIndex (handleClick st rect e) = Z.of_nat i
       /\ controls st !! i = Some r /\ objects st !! r = Some w
       /\ (forall c, w <> Panel c)
       /\ Control.containsPoint (Widget.base w) px py = true.
Proof.
  intros Hmod. unfold handleClick. rewrite (topModal_empty st Hmod).
  destruct (getCanvasMousePosition st rect e) as [[px py] |]; [| left; done].
  unfold clickControls.
  destruct (hitScan st px py (length (controls st))) as [i |] eqn:E; [| left; done].
  right. apply hitScan_Some in E as (_ & Hin & _).
  destruct (hit_is_no_panel st px py i Hin) as (r & w & Hr & Hw & Hnp & Hc).
  exists i, r, w, px, py. split; [done |]. split.
  - simpl. rewrite Hr.
    destruct (deliver_focus (setFocusIndex st (Z.of_nat i)) r (pickClick px py))
      as [-> _]. done.
  - split; [exact Hr |]. split; [exact Hw |]. split; [exact Hnp | exact Hc].
Qed.

End PanelExtras.

(** ** Slider *)

Section SliderExtras.

Local Open Scope Q_scope.

Lemma div_le_compat (a b c : Q) : 0 < c -> a <= b -> a / c <= b / c.
Proof.
  intros Hc Hab. unfold Qdiv. apply Qmult_le_compat_r; [exact Hab |].
  apply Qinv_le_0_compat. lra.
Qed.

Lemma round_le (a b : Q) : a <= b -> (JS.round a <= JS.round b)%Z.
Proof. intros Hab. unfold JS.round. apply Qfloor_resp_le. lra. Qed.

Lemma clamp_le (lo hi a b : Q) : a <= b -> clamp lo hi a <= clamp lo hi b.
Proof.
  intros Hab. unfold clamp, JS.max, JS.min.
  apply Q.max_le_compat_l, Q.min_le_compat_l, Hab.
Qed.

Lemma percent_le (s : Slider.t) (p q : Q) :
  0 < Slider.sliderWidth s -> p <= q -> Slider.percent s p <= Slider.percent s q.
Proof.
  intros Hw Hpq. unfold Slider.percent, JS.max, JS.min.
  apply Q.max_le_compat_l, Q.min_le_compat_l, div_le_compat; [exact Hw | lra].
Qed.

Lemma snapped_le (s : Slider.t) (p q : Q) :
  0 < Slider.sliderWidth s -> 0 < Slider.step s ->
  Slider.min s <= Slider.max s -> p <= q ->
  Slider.snapped s p <= Slider.snapped s q.
Proof.
  intros Hw Hstep Hmm Hpq.
  change (Slider.snapped s p) with (zeroSnap s p).
  change (Slider.snapped s q) with (zeroSnap s q).
  unfold zeroSnap. apply clamp_le.
  apply Qmult_le_compat_r; [| lra].
  rewrite <- Zle_Qle. apply round_le, div_le_compat; [exact Hstep |].
  unfold Slider.raw.
  pose proof (percent_le s p q Hw Hpq) as Hp.
  assert (Hm : Slider.percent s p * (Slider.max s - Slider.min s)
               <= Slider.percent s q * (Slider.max s - Slider.min s)).
  { apply Qmult_le_compat_r; [exact Hp | lra]. }
  lra.
Qed.

(** X12: a click further right on the track never gives a smaller value.
    For a slider with a track of positive width, a positive step and
    [min <= max], [x1 <= x2] implies that the value after a click at [x1] is
    at most the value after a click at [x2]. *)
Theorem slider_click_monotone (s : Slider.t) (x1 x2 y1 y2 : Q) :
  0 < Slider.sliderWidth s -> 0 < Slider.step s ->
  Slider.min s <= Slider.max s ->
  x1 <= x2 ->
  Slider.value (fst (Slider.handleClick s x1 y1))
  <= Slider.value (fst (Slider.handleClick s x2 y2)).
Proof.
  intros Hw Hstep Hmm Hx. unfold Slider.handleClick.
  rewrite !updateValueFromX_value. apply snapped_le; assumption.
Qed.

Lemma slider_click_monotone_witness :
  Slider.value (fst (Slider.handleClick (sampleSlider 0 100 50 5) 30 0))
  <= Slider.value (fst (Slider.handleClick (sampleSlider 0 100 50 5) 90 0)).
Proof.
  apply (slider_click_monotone (sampleSlider 0 100 50 5) 30 90 0 0);
    vm_compute; first [reflexivity | discriminate].
Defined.

(** X13: a click leaves the value inside [min, max] whenever [min <= max],
    whatever it was before; the callback is called only when the value
    changes; and a second click at the same place changes nothing and calls
    nothing. *)
Theorem slider_click_settles (s : Slider.t) (px py : Q) :
  ~ Slider.step s == 0 ->
  ~ Slider.sliderWidth s == 0 ->
  (Slider.min s <= Slider.max s -> inRange (fst (Slider.handleClick s px py)))
  /\ (Slider.snapped s px == Slider.value s -> Slider.handleClick s px py = (s, []))
  /\ Slider.handleClick (fst (Slider.handleClick s px py)) px py
     = (fst (Slider.handleClick s px py), []).
Proof.
  intros _ _. unfold Slider.handleClick. split; [| split].
  - intros Hmm. unfold inRange.
    assert (Hr : Slider.min s <= Slider.snapped s px <= Slider.max s).
    { unfold Slider.snapped, JS.max, JS.min. split; [apply Q.le_max_l |].
      apply Q.max_lub; [exact Hmm | apply Q.le_min_l]. }
    pose proof (updateValueFromX_value s px) as Ev.
    assert (Emin : Slider.min (fst (Slider.updateValueFromX s px)) = Slider.min s).
    { unfold Slider.updateValueFromX. destruct (JS.neqb _ _); reflexivity. }
    assert (Emax : Slider.max (fst (Slider.updateValueFromX s px)) = Slider.max s).
    { unfold Slider.updateValueFromX. destruct (JS.neqb _ _); reflexivity. }
    rewrite Emin, Emax, Ev. exact Hr.
  - intros E. unfold Slider.updateValueFromX, JS.neqb.
    rewrite (Qeq_eq_bool _ _ E). reflexivity.
  - unfold Slider.updateValueFromX at 2 3, JS.neqb.
    destruct (Qeq_bool (Slider.snapped s px) (Slider.value s)) eqn:E; simpl.
    + unfold Slider.updateValueFromX, JS.neqb. rewrite E. reflexivity.
    + unfold Slider.updateValueFromX, JS.neqb.
      change (Slider.snapped (Slider.setValue s (Slider.snapped s px)) px)
        with (Slider.snapped s px).
      simpl. rewrite Qeq_bool_refl. reflexivity.
Qed.

Lemma slider_click_settles_witness :
  inRange (fst (Slider.handleClick (sampleSlider 0 100 250 5) 43 20))
  /\ Slider.handleClick (fst (Slider.handleClick (sampleSlider 0 100 250 5) 43 20)) 43 20
     = (fst (Slider.handleClick (sampleSlider 0 100 250 5) 43 20), []).
Proof.
  destruct (slider_click_settles (sampleSlider 0 100 250 5) 43 20)
    as (Hr & _ & Hagain).
  - vm_compute. discriminate.
  - vm_compute. discriminate.
  - split; [apply Hr; vm_compute; discriminate | exact Hagain].
Defined.



End SliderExtras.

(** ** Button: the pressed flash *)

Section ButtonExtras.

Local Open Scope Q_scope.






End ButtonExtras.

(** ** TextInput: typing, erasing and the blinking cursor *)

Section TextExtras.

Lemma append_cons (c : Ascii.ascii) (a b : string) :
  String c a +:+ b = String c (a +:+ b).
Proof. reflexivity. Qed.

Lemma append_nil (b : string) : EmptyString +:+ b = b.
Proof. reflexivity. Qed.

Lemma take_length_append (a b : string) : JS.take (String.length a) (a +:+ b) = a.
Proof.
  induction a as [| c a IH].
  - rewrite append_nil. destruct b; reflexivity.
  - rewrite append_cons. simpl. rewrite IH. reflexivity.
Qed.

Lemma drop_length_append (a b : string) : JS.drop (String.length a) (a +:+ b) = b.
Proof.
  induction a as [| c a IH].
  - rewrite append_nil. destruct b; reflexivity.
  - rewrite append_cons. simpl. exact IH.
Qed.

Lemma take_drop (n : nat) : forall s, JS.take n s +:+ JS.drop n s = s.
Proof.
  induction n as [| n IH]; intros [| c s]; simpl; try reflexivity.
  rewrite append_cons, IH. reflexivity.
Qed.

Lemma take_all (s : string) : JS.take (String.length s) s = s.
Proof. induction s as [| c s IH]; simpl; [reflexivity | rewrite IH; reflexivity]. Qed.

Lemma append_empty (s : string) : s +:+ EmptyString = s.
Proof.
  induction s as [| c s IH]; [reflexivity | rewrite append_cons, IH; reflexivity].
Qed.

Lemma append_assoc (a b c : string) : (a +:+ b) +:+ c = a +:+ b +:+ c.
Proof.
  induction a as [| x a IH]; [reflexivity | rewrite !append_cons, IH; reflexivity].
Qed.

(** The two slices [keyEdit] takes at a cursor position inside the string. *)
Lemma prefix_is_take (s : string) (pos : Z) :
  0 <= pos <= JS.strlen s -> JS.slice s 0 pos = JS.take (Z.to_nat pos) s.
Proof.
  intros Hp. unfold JS.slice, JS.sliceIndex. simpl.
  destruct (pos <? 0) eqn:E; [apply Z.ltb_lt in E; lia |].
  rewrite (Z.min_l pos), (Z.min_l 0) by lia.
  replace (pos - 0) with pos by lia. reflexivity.
Qed.

Lemma suffix_is_drop (s : string) (pos : Z) :
  0 <= pos <= JS.strlen s -> JS.sliceFrom s pos = JS.drop (Z.to_nat pos) s.
Proof.
  intros Hp. unfold JS.sliceFrom, JS.slice, JS.sliceIndex.
  pose proof (strlen_nonneg s) as Hn.
  destruct (pos <? 0) eqn:E; [apply Z.ltb_lt in E; lia |].
  destruct (JS.strlen s <? 0) eqn:E'; [apply Z.ltb_lt in E'; lia |].
  rewrite Z.min_id, (Z.min_l pos) by lia.
  set (d := JS.drop (Z.to_nat pos) s).
  assert (Hd : String.length d = Z.to_nat (JS.strlen s - pos)).
  { unfold d. rewrite length_drop. unfold JS.strlen. lia. }
  rewrite <- Hd. apply take_all.
Qed.

(** A key of one character is none of the named keys. *)
Lemma keyEdit_char (i : TextInput.t) (c : Ascii.ascii) :
  TextInput.keyEdit i (charKey c)
  = TextInput.edit i
      (JS.slice (TextInput.value i) 0 (TextInput.cursorPos i)
       +:+ String c EmptyString
       +:+ JS.sliceFrom (TextInput.value i) (TextInput.cursorPos i))
      (TextInput.cursorPos i + 1).
Proof.
  unfold TextInput.keyEdit, charKey, plainKey. cbn.
  repeat match goal with
         | |- context [Ascii.eqb ?a ?b] => destruct (Ascii.eqb a b)
         end; reflexivity.
Qed.

Lemma keyEdit_backspace (i : TextInput.t) :
  0 < TextInput.cursorPos i ->
  TextInput.keyEdit i (plainKey "Backspace")
  = TextInput.edit i
      (JS.slice (TextInput.value i) 0 (TextInput.cursorPos i - 1)
       +:+ JS.sliceFrom (TextInput.value i) (TextInput.cursorPos i))
      (TextInput.cursorPos i - 1).
Proof.
  intros Hpos. unfold TextInput.keyEdit, plainKey. cbn.
  destruct (0 <? TextInput.cursorPos i) eqn:E; [reflexivity |].
  apply Z.ltb_ge in E. lia.
Qed.

(** What a printable key does at a cursor inside the text. *)
Lemma insert_at_cursor (i : TextInput.t) (c : Ascii.ascii) :
  cursorOk i ->
  let pos := Z.to_nat (TextInput.cursorPos i) in
  let j := fst (TextInput.handleKeyDown i (charKey c)) in
  TextInput.value j
  = JS.take pos (TextInput.value i) +:+ String c (JS.drop pos (TextInput.value i))
  /\ TextInput.cursorPos j = TextInput.cursorPos i + 1.
Proof.
  intros Hok pos j. unfold j, TextInput.handleKeyDown.
  rewrite keyEdit_char. simpl. unfold cursorOk in Hok.
  rewrite prefix_is_take, suffix_is_drop by exact Hok. done.
Qed.

(** X16: text typed at the end of a field is appended.  When the cursor is
    at the end of the value, typing the characters of [s] one key at a time
    (no Ctrl, no Meta) leaves the value followed by [s], with the cursor at
    the end again; from a new field the value is [s]. *)
Theorem typing_appends (s : string) : forall i : TextInput.t,
  TextInput.cursorPos i = JS.strlen (TextInput.value i) ->
  TextInput.value (typeText i s) = TextInput.value i +:+ s
  /\ TextInput.cursorPos (typeText i s) = JS.strlen (TextInput.value i +:+ s).
Proof.
  induction s as [| c s IH]; intros i Hend.
  - simpl. rewrite append_empty. done.
  - assert (Hok : cursorOk i).
    { unfold cursorOk. pose proof (strlen_nonneg (TextInput.value i)). lia. }
    destruct (insert_at_cursor i c Hok) as [Ev Ec].
    set (j := fst (TextInput.handleKeyDown i (charKey c))) in *.
    assert (Ev' : TextInput.value j = TextInput.value i +:+ String c EmptyString).
    { rewrite Ev, Hend. unfold JS.strlen. rewrite Nat2Z.id.
      rewrite take_all.
      pose proof (drop_length_append (TextInput.value i) EmptyString) as Hd.
      rewrite append_empty in Hd. rewrite Hd. reflexivity. }
    destruct (IH j) as [IHv IHc].
    { rewrite Ec, Ev', Hend, strlen_append. unfold JS.strlen. simpl. lia. }
    change (typeText i (String c s)) with (typeText j s).
    rewrite IHv, IHc, Ev', append_assoc. done.
Qed.

Lemma typing_appends_witness :
  TextInput.value (typeText (TextInput.new sampleBase "name") "Mark") = "Mark"
  /\ TextInput.cursorPos (typeText (TextInput.new sampleBase "name") "Mark") = 4.
Proof.
  apply (typing_appends "Mark" (TextInput.new sampleBase "name")). reflexivity.
Defined.

(** X17: Backspace undoes a typed character.  With the cursor anywhere
    inside the text, a printable key followed by Backspace gives back the
    value and the cursor position there were before. *)
Theorem backspace_undoes_typing (i : TextInput.t) (c : Ascii.ascii) :
  cursorOk i ->
  let j := fst (TextInput.handleKeyDown
                  (fst (TextInput.handleKeyDown i (charKey c)))
                  (plainKey "Backspace")) in
  TextInput.value j = TextInput.value i
  /\ TextInput.cursorPos j = TextInput.cursorPos i.
Proof.
  intros Hok j.
  destruct (insert_at_cursor i c Hok) as [Ev Ec].
  set (k := fst (TextInput.handleKeyDown i (charKey c))) in *.
  unfold cursorOk in Hok.
  set (v := TextInput.value i) in *. set (pos := TextInput.cursorPos i) in *.
  set (a := JS.take (Z.to_nat pos) v) in *.
  set (b := JS.drop (Z.to_nat pos) v) in *.
  assert (Ha : String.length a = Z.to_nat pos).
  { unfold a. rewrite length_take. unfold JS.strlen in Hok. lia. }
  assert (Hlen : JS.strlen (TextInput.value k) = JS.strlen v + 1).
  { rewrite Ev, strlen_append. unfold JS.strlen. simpl.
    unfold b. rewrite Ha, length_drop. unfold JS.strlen in Hok. lia. }
  unfold j. fold k. unfold TextInput.handleKeyDown.
  rewrite keyEdit_backspace by lia.
  cbn [fst TextInput.value TextInput.cursorPos TextInput.edit].
  rewrite Ec. replace (pos + 1 - 1) with pos by lia.
  rewrite prefix_is_take, suffix_is_drop by lia.
  rewrite Ev. split; [| reflexivity].
  rewrite <- Ha at 1. rewrite take_length_append.
  replace (Z.to_nat (pos + 1)) with (String.length (a +:+ String c EmptyString)).
  2:{ rewrite length_append. simpl. lia. }
  replace (a +:+ String c b) with ((a +:+ String c EmptyString) +:+ b)
    by (rewrite append_assoc; reflexivity).
  rewrite drop_length_append. apply take_drop.
Qed.

Lemma backspace_undoes_typing_witness :
  TextInput.value
    (fst (TextInput.handleKeyDown
            (fst (TextInput.handleKeyDown (TextInput.new sampleBase "name")
                                          (charKey (Ascii.ascii_of_nat 120))))
            (plainKey "Backspace"))) = EmptyString.
Proof.
  apply (backspace_undoes_typing (TextInput.new sampleBase "name") (Ascii.ascii_of_nat 120)).
  unfold cursorOk. simpl. unfold JS.strlen. simpl. lia.
Defined.

End TextExtras.

(** ** Menu and Radio: the selection *)

Section SelectionExtras.




Lemma menu_select_back (m : Menu.t) (i : JS.index) :
  Menu.select (Menu.select m i) (Menu.selectedIndex m) = m.
Proof. destruct m. reflexivity. Qed.





(** X19: activating a menu throws exactly when its selection is on no item.
    [activate], and Enter or Space in [handleKeyDown], end in the
    [TypeError] of reading [callback] of [undefined] if and only if
    [selectedIndex] is not the index of an item; a menu without items throws
    on each of them, and an arrow key in such a menu makes the selection
    [NaN]. *)
Theorem menu_activation_throws (m : Menu.t) (e : KeyEvent) :
  (Menu.activate m = None
   <-> ~ selectionOk (Menu.items m) (Menu.selectedIndex m))
  /\ (key e = "Enter" \/ key e = " " -> Menu.handleKeyDown m e = Menu.activate m)
  /\ (Menu.items m = [] ->
      Menu.activate m = None
      /\ Menu.selectedIndex (Menu.next m) = JS.NaN
      /\ Menu.selectedIndex (Menu.previous m) = JS.NaN).
Proof.
  split; [| split].
  - unfold Menu.activate, Menu.fire.
    destruct (Menu.selectedIndex m) as [z |]; simpl; [| tauto].
    unfold JS.get, JS.len.
    destruct (z <? 0) eqn:E.
    + apply Z.ltb_lt in E. split; [intros _; lia | reflexivity].
    + apply Z.ltb_ge in E.
      destruct (Menu.items m !! Z.to_nat z) as [it |] eqn:Ei.
      * apply lookup_lt_Some in Ei. split; [discriminate | intros Hn; lia].
      * apply lookup_ge_None in Ei. split; [intros _; lia | reflexivity].
  - intros [Hk | Hk]; unfold Menu.handleKeyDown, isEnterOrSpace; rewrite Hk;
      destruct (String.eqb (Menu.orientation m) "vertical"); reflexivity.
  - intros Hnil. unfold Menu.activate, Menu.fire, Menu.next, Menu.previous.
    rewrite Hnil. destruct (Menu.selectedIndex m) as [z |]; simpl.
    + unfold JS.get. destruct (z <? 0); done.
    + done.
Qed.

End SelectionExtras.

(** ** Menu: clicks and the item rectangles *)

Section MenuExtras.

Local Open Scope Q_scope.

Lemma firstItem_None (m : Menu.t) px py its : forall i,
  (forall k, (k < length its)%nat ->
             Menu.inItem m (Z.of_nat (i + k)) px py = false) ->
  Menu.firstItem m px py i its = None.
Proof.
  induction its as [| it its IH]; intros i Hall; simpl; [reflexivity |].
  pose proof (Hall O ltac:(simpl; lia)) as H0. rewrite Nat.add_0_r in H0.
  rewrite H0. apply IH. intros k Hk.
  replace (S i + k)%nat with (i + S k)%nat by lia. apply Hall. simpl. lia.
Qed.

Lemma firstItem_at (m : Menu.t) px py its : forall i k it,
  its !! k = Some it ->
  Menu.inItem m (Z.of_nat (i + k)) px py = true ->
  (forall j, (j < k)%nat -> Menu.inItem m (Z.of_nat (i + j)) px py = false) ->
  Menu.firstItem m px py i its = Some ((i + k)%nat, it).
Proof.
  induction its as [| it0 its IH]; intros i k it Hit Hk Hbefore; [done |].
  simpl. destruct k as [| k].
  - rewrite Nat.add_0_r in Hk |- *. rewrite Hk. simpl in Hit. congruence.
  - pose proof (Hbefore O ltac:(lia)) as H0. rewrite Nat.add_0_r in H0.
    rewrite H0. replace (i + S k)%nat with (S i + k)%nat by lia.
    apply (IH (S i) k it).
    + exact Hit.
    + replace (S i + k)%nat with (i + S k)%nat by lia. exact Hk.
    + intros j Hj. replace (S i + j)%nat with (i + S j)%nat by lia.
      apply Hbefore. lia.
Qed.

(** Two items that share a point are neighbours with no gap between them. *)
Lemma menu_items_apart (m : Menu.t) (j k : nat) px py :
  0 <= Menu.gap m -> 0 < Menu.itemWidth m -> 0 < Menu.itemHeight m ->
  (j < k)%nat ->
  Menu.inItem m (Z.of_nat j) px py = true ->
  Menu.inItem m (Z.of_nat k) px py = true ->
  k = S j /\ Menu.gap m == 0.
Proof.
  intros Hg Hw Hh Hjk Hj Hk.
  unfold Menu.inItem, Menu.getItemBounds in Hj, Hk.
  set (w := Menu.itemWidth m) in *. set (h := Menu.itemHeight m) in *.
  set (g := Menu.gap m) in *.
  assert (Hd : inject_Z (Z.of_nat j) + 1 <= inject_Z (Z.of_nat k)).
  { change 1 with (inject_Z 1). rewrite <- inject_Z_plus, <- Zle_Qle. lia. }
  assert (Hfar : k <> S j -> inject_Z (Z.of_nat j) + 2 <= inject_Z (Z.of_nat k)).
  { intros Hne. change 2 with (inject_Z 2).
    rewrite <- inject_Z_plus, <- Zle_Qle. lia. }
  destruct (String.eqb (Menu.orientation m) "horizontal");
    rewrite !andb_true_iff, !Qle_bool_iff in Hj, Hk;
    destruct Hj as [[[Hj1 Hj2] Hj3] Hj4]; destruct Hk as [[[Hk1 Hk2] Hk3] Hk4].
  - assert (Hmul : (inject_Z (Z.of_nat j) + 1) * (w + g)
                   <= inject_Z (Z.of_nat k) * (w + g)).
    { apply Qmult_le_compat_r; [exact Hd | lra]. }
    split; [| lra].
    destruct (decide (k = S j)) as [E | Hne]; [exact E | exfalso].
    assert (Hmul2 : (inject_Z (Z.of_nat j) + 2) * (w + g)
                    <= inject_Z (Z.of_nat k) * (w + g)).
    { apply Qmult_le_compat_r; [exact (Hfar Hne) | lra]. }
    lra.
  - assert (Hmul : (inject_Z (Z.of_nat j) + 1) * (h + g)
                   <= inject_Z (Z.of_nat k) * (h + g)).
    { apply Qmult_le_compat_r; [exact Hd | lra]. }
    split; [| lra].
    destruct (decide (k = S j)) as [E | Hne]; [exact E | exfalso].
    assert (Hmul2 : (inject_Z (Z.of_nat j) + 2) * (h + g)
                    <= inject_Z (Z.of_nat k) * (h + g)).
    { apply Qmult_le_compat_r; [exact (Hfar Hne) | lra]. }
    lra.
Qed.

(** X20: a click on a menu picks the item under the pointer.  With items of
    positive size and a gap that is not negative, a click inside the
    rectangle of item [k] selects [k] and runs its callback, if it has one,
    and no other; only on an edge that two items share (there is one when
    the gap is zero) does the earlier item win.  A click in no item's
    rectangle, in a gap for one, leaves the menu as it is. *)
Theorem menu_click_picks_item (m : Menu.t) (k : nat) (it : Menu.item) (px py : Q) :
  0 <= Menu.gap m -> 0 < Menu.itemWidth m -> 0 < Menu.itemHeight m ->
  (Menu.items m !! k = Some it ->
   Menu.inItem m (Z.of_nat k) px py = true ->
   k = 0%nat \/ 0 < Menu.gap m
   \/ Menu.inItem m (Z.of_nat (k - 1)) px py = false ->
   Menu.handleClick m px py
   = (Menu.select m (JS.At (Z.of_nat k)), callIfSet (Menu.callback it) ArgNone))
  /\ ((forall j, (j < length (Menu.items m))%nat ->
                 Menu.inItem m (Z.of_nat j) px py = false) ->
      Menu.handleClick m px py = (m, [])).
Proof.
  intros Hg Hw Hh. unfold Menu.handleClick. split.
  - intros Hit Hk Hedge.
    rewrite (firstItem_at m px py (Menu.items m) 0 k it Hit Hk); [done |].
    intros j Hj. simpl.
    destruct (Menu.inItem m (Z.of_nat j) px py) eqn:E; [| reflexivity].
    destruct (menu_items_apart m j k px py Hg Hw Hh Hj E Hk) as [-> Hzero].
    destruct Hedge as [Hk0 | [Hpos | Hprev]].
    + discriminate.
    + lra.
    + replace (S j - 1)%nat with j in Hprev by lia. congruence.
  - intros Hall. rewrite (firstItem_None m px py (Menu.items m) 0 Hall). done.
Qed.

Lemma menu_click_picks_item_witness :
  Menu.handleClick sampleMenu 50 70
  = (Menu.select sampleMenu (JS.At 1), []).
Proof.
  destruct (menu_click_picks_item sampleMenu 1 (Menu.mkItem "Options" None) 50 70)
    as [Hpick _].
  - vm_compute. discriminate.
  - vm_compute. reflexivity.
  - vm_compute. reflexivity.
  - apply Hpick.
    + reflexivity.
    + vm_compute. reflexivity.
    + right. right. vm_compute. reflexivity.
Defined.

Lemma inject_pred (n : Z) : inject_Z (n - 1) == inject_Z n - 1.
Proof.
  unfold Z.sub. rewrite inject_Z_plus. reflexivity.
Qed.

(** X21: the items of a menu lie inside the rectangle its constructor gives
    the control.  For a menu made by the constructor with an item size and a
    gap that are not negative, a point inside the rectangle of one of its
    items is a point of the control, so the manager's hit test lets every
    click on an item through; and the last item ends on the control's far
    edge, in either orientation. *)
Theorem menu_items_inside_control (x y w h : Q) (its : list Menu.item)
    (o : option string) (g : option Q) (p : Q) (i : nat) (px py : Q) :
  0 <= w -> 0 <= h -> (forall q, g = Some q -> 0 <= q) ->
  (i < length its)%nat ->
  let m := Menu.new x y w h its o g p in
  (Menu.inItem m (Z.of_nat i) px py = true ->
   Control.containsPoint (Menu.base m) px py = true)
  /\ fst (Menu.getItemBounds m (JS.len its - 1)) + Menu.itemWidth m
     == Control.x (Menu.base m) + Control.width (Menu.base m)
  /\ snd (Menu.getItemBounds m (JS.len its - 1)) + Menu.itemHeight m
     == Control.y (Menu.base m) + Control.height (Menu.base m).
Proof.
  intros Hw Hh Hg Hi m.
  assert (Hlast : inject_Z (Z.of_nat i) <= inject_Z (JS.len its) - 1).
  { rewrite <- inject_pred, <- Zle_Qle. unfold JS.len. lia. }
  assert (Hpos : 0 <= inject_Z (Z.of_nat i)).
  { change 0 with (inject_Z 0). rewrite <- Zle_Qle. lia. }
  assert (Hgp : 0 <= match g with Some g0 => g0 | None => 0 end).
  { destruct g as [q |]; [apply (Hg q eq_refl) | lra]. }
  unfold Menu.inItem, Menu.getItemBounds, Control.containsPoint, m, Menu.new.
  set (gp := match g with Some g0 => g0 | None => 0 end) in *.
  set (n := inject_Z (JS.len its)) in *.
  set (k := inject_Z (Z.of_nat i)) in *.
  set (ori := match o with
              | Some o0 => if String.eqb o0 EmptyString then "vertical" else o0
              | None => "vertical"
              end).
  destruct (String.eqb ori "horizontal") eqn:E; simpl; rewrite E; simpl.
  - assert (Hmul : k * (w + gp) <= (n - 1) * (w + gp))
      by (apply Qmult_le_compat_r; [exact Hlast | lra]).
    assert (H0 : 0 <= k * (w + gp)) by (apply Qmult_le_0_compat; lra).
    split; [| split].
    + rewrite !andb_true_iff, !Qle_bool_iff. intros [[[H1 H2] H3] H4].
      repeat split; lra.
    + fold n. rewrite inject_pred. fold n. ring.
    + ring.
  - assert (Hmul : k * (h + gp) <= (n - 1) * (h + gp))
      by (apply Qmult_le_compat_r; [exact Hlast | lra]).
    assert (H0 : 0 <= k * (h + gp)) by (apply Qmult_le_0_compat; lra).
    split; [| split].
    + rewrite !andb_true_iff, !Qle_bool_iff. intros [[[H1 H2] H3] H4].
      repeat split; lra.
    + ring.
    + fold n. rewrite inject_pred. fold n. ring.
Qed.

Lemma menu_items_inside_control_witness :
  snd (Menu.getItemBounds sampleMenu 2) + Menu.itemHeight sampleMenu
  == Control.y (Menu.base sampleMenu) + Control.height (Menu.base sampleMenu).
Proof.
  destruct (menu_items_inside_control 10 20 200 40
              [Menu.mkItem "Start" (Some 1%nat); Menu.mkItem "Options" None;
               Menu.mkItem "Quit" (Some 3%nat)]
              None None 10 0 0 0) as (_ & _ & Hlast).
  - vm_compute. discriminate.
  - vm_compute. discriminate.
  - intros q Hq. discriminate.
  - simpl. lia.
  - exact Hlast.
Defined.

End MenuExtras.

(** ** Radio: clicks and the arrow keys *)

Section RadioExtras.

Local Open Scope Q_scope.

Lemma floor_band (q : Q) (i : Z) :
  inject_Z i <= q -> q < inject_Z (i + 1) -> Qfloor q = i.
Proof.
  intros Hlo Hhi.
  assert (H1 : (i <= Qfloor q)%Z).
  { rewrite <- (Qfloor_Z i). apply Qfloor_resp_le. exact Hlo. }
  assert (H2 : (Qfloor q < i + 1)%Z).
  { rewrite Zlt_Qlt. eapply Qle_lt_trans; [apply Qfloor_le | exact Hhi]. }
  lia.
Qed.

Lemma floor_negative (q : Q) : q < 0 -> (Qfloor q < 0)%Z.
Proof.
  intros Hq. rewrite Zlt_Qlt. eapply Qle_lt_trans; [apply Qfloor_le | exact Hq].
Qed.

Lemma floor_at_least (q : Q) (n : Z) : inject_Z n <= q -> (n <= Qfloor q)%Z.
Proof.
  intros Hq. rewrite <- (Qfloor_Z n). apply Qfloor_resp_le. exact Hq.
Qed.

(** X22: a click on a radio group selects the option of the band it falls
    in.  With a positive item height, a click at height [py] with
    [y + i * itemHeight <= py < y + (i + 1) * itemHeight] for the index [i]
    of an option selects [i] and reports it, wherever the click is across;
    a click above the group or at or below [y + n * itemHeight], the bottom
    edge that [containsPoint] still accepts included, changes nothing and
    calls nothing. *)
Theorem radio_click_band (r : Radio.t) (i : Z) (px py : Q) :
  0 < Radio.itemHeight r ->
  ((0 <= i < JS.len (Radio.items r))%Z ->
   Control.y (Radio.base r) + inject_Z i * Radio.itemHeight r <= py ->
   py < Control.y (Radio.base r) + (inject_Z i + 1) * Radio.itemHeight r ->
   Radio.handleClick r px py = Radio.choose r (JS.At i))
  /\ (py < Control.y (Radio.base r)
      \/ Control.y (Radio.base r)
         + inject_Z (JS.len (Radio.items r)) * Radio.itemHeight r <= py ->
      Radio.handleClick r px py = (r, [])).
Proof.
  intros Hh. unfold Radio.handleClick.
  set (h := Radio.itemHeight r) in *. set (y := Control.y (Radio.base r)).
  destruct (Qeq_bool h 0) eqn:E; [apply Qeq_bool_iff in E; lra |].
  split.
  - intros Hi Hlo Hhi.
    assert (Ef : Qfloor ((py - y) / h) = i).
    { apply floor_band.
      - apply Qle_shift_div_l; [exact Hh | lra].
      - apply Qlt_shift_div_r; [exact Hh |].
        rewrite inject_Z_plus. change (inject_Z 1) with 1. lra. }
    rewrite Ef.
    destruct (0 <=? i)%Z eqn:E1; [| apply Z.leb_gt in E1; lia].
    destruct (i <? JS.len (Radio.items r))%Z eqn:E2; [| apply Z.ltb_ge in E2; lia].
    reflexivity.
  - intros [Habove | Hbelow].
    + assert (Hneg : (Qfloor ((py - y) / h) < 0)%Z).
      { apply floor_negative. apply Qlt_shift_div_r; [exact Hh | lra]. }
      destruct (0 <=? Qfloor ((py - y) / h))%Z eqn:E1;
        [apply Z.leb_le in E1; lia | reflexivity].
    + assert (Hbig : (JS.len (Radio.items r) <= Qfloor ((py - y) / h))%Z).
      { apply floor_at_least. apply Qle_shift_div_l; [exact Hh | lra]. }
      destruct (Qfloor ((py - y) / h) <? JS.len (Radio.items r))%Z eqn:E2;
        [apply Z.ltb_lt in E2; lia |].
      rewrite andb_false_r. reflexivity.
Qed.

Lemma radio_click_band_witness :
  Radio.handleClick sampleRadio 15 65 = Radio.choose sampleRadio (JS.At 1)
  /\ Radio.handleClick sampleRadio 15 110 = (sampleRadio, []).
Proof.
  split.
  - destruct (radio_click_band sampleRadio 1 15 65) as [Hin _].
    + vm_compute. reflexivity.
    + apply Hin.
      * vm_compute. split; [discriminate | reflexivity].
      * vm_compute. discriminate.
      * vm_compute. reflexivity.
  - destruct (radio_click_band sampleRadio 0 15 110) as [_ Hout].
    + vm_compute. reflexivity.
    + apply Hout. right. vm_compute. discriminate.
Defined.





End RadioExtras.

(** ** The pointer *)

Section PointerExtras.

Context {C : Type} `{Contract.t C}.

Local Abbreviation UI := (CanvasUIMark.t C).

Import CanvasUIMark.


End PointerExtras.

Section ButtonMaskExtras.

Lemma toInt32_congruent (z : Z) : JS.toInt32 z mod 2 ^ 32 = z mod 2 ^ 32.
Proof.
  unfold JS.toInt32.
  pose proof (Z.mod_eq (z + 2 ^ 31) (2 ^ 32) ltac:(lia)) as Hm.
  replace ((z + 2 ^ 31) mod 2 ^ 32 - 2 ^ 31)
    with (z + (- ((z + 2 ^ 31) / 2 ^ 32)) * 2 ^ 32) by lia.
  apply Z_mod_plus_full.
Qed.

(** [ToInt32] keeps the low 32 bits. *)
Lemma toInt32_bits (z n : Z) :
  0 <= n < 32 -> Z.testbit (JS.toInt32 z) n = Z.testbit z n.
Proof.
  intros Hn.
  rewrite <- (Z.mod_pow2_bits_low (JS.toInt32 z) 32 n) by lia.
  rewrite toInt32_congruent. apply Z.mod_pow2_bits_low. lia.
Qed.

Lemma shl_one_bits (button n : Z) :
  0 <= button < 32 -> 0 <= n < 32 ->
  Z.testbit (JS.shl 1 button) n = (button =? n).
Proof.
  intros Hb Hn. unfold JS.shl. rewrite toInt32_bits by lia.
  change (JS.toInt32 1) with 1.
  change 31 with (Z.ones 5). rewrite Z.land_ones by lia.
  rewrite Z.mod_small by (change (2 ^ 5) with 32; lia).
  rewrite Z.shiftl_1_l. apply Z.pow2_bits_eqb. lia.
Qed.

(** X25: [mouse.buttons] is a mask with one bit for each mouse button.  For
    a button number from 0 to 31, [handleMouseDown] sets the bit of that
    button and [handleMouseUp] clears it, and neither changes another of the
    32 bits, whatever the mask was before. *)
Theorem mouse_buttons_bitmask (a : Ambient.t) (button n : Z) :
  0 <= button < 32 -> 0 <= n < 32 ->
  Z.testbit (Ambient.buttons (Ambient.handleMouseDown a button)) n
  = Z.testbit (Ambient.buttons a) n || (button =? n)
  /\ Z.testbit (Ambient.buttons (Ambient.handleMouseUp a button)) n
     = Z.testbit (Ambient.buttons a) n && negb (button =? n).
Proof.
  intros Hb Hn. unfold Ambient.handleMouseDown, Ambient.handleMouseUp. simpl.
  unfold JS.bor, JS.band, JS.bnot. split.
  - rewrite toInt32_bits, Z.lor_spec, !toInt32_bits, shl_one_bits by lia.
    reflexivity.
  - rewrite toInt32_bits, Z.land_spec, !toInt32_bits by lia.
    rewrite Z.lnot_spec by lia. rewrite toInt32_bits, shl_one_bits by lia.
    reflexivity.
Qed.

Lemma mouse_buttons_bitmask_witness :
  Z.testbit (Ambient.buttons (Ambient.handleMouseDown Ambient.new 2)) 2 = true
  /\ Z.testbit
       (Ambient.buttons
          (Ambient.handleMouseUp (Ambient.handleMouseDown Ambient.new 2) 2)) 2
     = false.
Proof.
  split.
  - destruct (mouse_buttons_bitmask Ambient.new 2 2) as [Hdown _]; [lia | lia |].
    exact Hdown.
  - destruct (mouse_buttons_bitmask (Ambient.handleMouseDown Ambient.new 2) 2 2)
      as [_ Hup]; [lia | lia |].
    exact Hup.
Defined.

End ButtonMaskExtras.

(** ** Gamepad polling *)

Section GamepadExtras.

Context {C : Type} `{Contract.t C}.

Local Abbreviation UI := (CanvasUIMark.t C).

Import CanvasUIMark.

(** Buttons that were all down at the last poll dispatch nothing. *)
Lemma pollButtons_quiet (last pressed : list bool) : forall (i : nat) (st : UI),
  (forall k, pressed !! k = Some true -> last !! (i + k)%nat = Some true) ->
  Ambient.pollButtons st last i pressed = (st, true).
Proof.
  induction pressed as [| p pressed IH]; intros i st Hheld; simpl; [reflexivity |].
  assert (Hrest : Ambient.pollButtons st last (S i) pressed = (st, true)).
  { apply IH. intros k Hk. replace (S i + k)%nat with (i + S k)%nat by lia.
    apply Hheld. exact Hk. }
  destruct p; simpl; [| exact Hrest].
  pose proof (Hheld O eq_refl) as H0. rewrite Nat.add_0_r in H0.
  rewrite H0. simpl. exact Hrest.
Qed.

(** One button newly down, the others held or up: one dispatch. *)
Lemma pollButtons_one (last pressed : list bool) : forall (i k : nat) (st : UI),
  pressed !! k = Some true ->
  default false (last !! (i + k)%nat) = false ->
  (forall j, j <> k -> pressed !! j = Some true ->
             last !! (i + j)%nat = Some true) ->
  fst (Ambient.pollButtons st last i pressed)
  = handleGamepadButton st (Z.of_nat (i + k))
  /\ snd (Ambient.pollButtons st last i pressed)
     = negb (Ambient.threw st (handleGamepadButton st (Z.of_nat (i + k)))).
Proof.
  induction pressed as [| p pressed IH]; intros i k st Hk Hnew Hheld; [done |].
  destruct k as [| k].
  - simpl in Hk. injection Hk as ->. rewrite Nat.add_0_r in Hnew |- *.
    simpl. rewrite Hnew. simpl.
    destruct (Ambient.threw st (handleGamepadButton st (Z.of_nat i))); [done |].
    rewrite pollButtons_quiet; [done |].
    intros j Hj. replace (S i + j)%nat with (i + S j)%nat by lia.
    apply Hheld; [lia | exact Hj].
  - replace (i + S k)%nat with (S i + k)%nat in Hnew |- * by lia.
    assert (Hrest :
      fst (Ambient.pollButtons st last (S i) pressed)
      = handleGamepadButton st (Z.of_nat (S i + k))
      /\ snd (Ambient.pollButtons st last (S i) pressed)
         = negb (Ambient.threw st (handleGamepadButton st (Z.of_nat (S i + k))))).
    { apply IH; [exact Hk | exact Hnew |].
      intros j Hne Hj. replace (S i + j)%nat with (i + S j)%nat by lia.
      apply Hheld; [lia | exact Hj]. }
    simpl. destruct p; simpl; [| exact Hrest].
    pose proof (Hheld O ltac:(lia) eq_refl) as H0. rewrite Nat.add_0_r in H0.
    rewrite H0. simpl. exact Hrest.
Qed.

(** X26: gamepad buttons act on the press, not while they are held.  When
    [updateGamepad] finds a gamepad, a poll in which every button that is
    down was down at the last poll dispatches nothing, and a poll in which
    exactly one button is newly down makes the one call
    [handleGamepadButton] for that button; [lastGamepadButtons] then holds
    the new flags, unless that call ended in an error. *)
Theorem gamepad_acts_on_press_only (st : UI) (a : Ambient.t)
    (gps : list (option (list bool))) (pressed : list bool) :
  Ambient.firstGamepad gps = Some pressed ->
  ((forall k, pressed !! k = Some true ->
              Ambient.lastGamepadButtons a !! k = Some true) ->
   fst (Ambient.updateGamepad st a (Some gps)) = st
   /\ Ambient.lastGamepadButtons (snd (Ambient.updateGamepad st a (Some gps)))
      = pressed)
  /\ (forall k,
        pressed !! k = Some true ->
        default false (Ambient.lastGamepadButtons a !! k) = false ->
        (forall j, j <> k -> pressed !! j = Some true ->
                   Ambient.lastGamepadButtons a !! j = Some true) ->
        fst (Ambient.updateGamepad st a (Some gps))
        = handleGamepadButton st (Z.of_nat k)
        /\ Ambient.lastGamepadButtons
             (snd (Ambient.updateGamepad st a (Some gps)))
           = if Ambient.threw st (handleGamepadButton st (Z.of_nat k))
             then Ambient.lastGamepadButtons a else pressed).
Proof.
  intros Hgp. unfold Ambient.updateGamepad. rewrite Hgp. split.
  - intros Hheld.
    rewrite (pollButtons_quiet (Ambient.lastGamepadButtons a) pressed 0 st Hheld).
    done.
  - intros k Hk Hnew Hheld.
    destruct (pollButtons_one (Ambient.lastGamepadButtons a) pressed 0 k st
                Hk Hnew Hheld) as [Hst Hfin].
    simpl in Hst, Hfin.
    destruct (Ambient.pollButtons st (Ambient.lastGamepadButtons a) 0 pressed)
      as [st' fin].
    simpl in Hst, Hfin. subst st' fin. simpl.
    destruct (Ambient.threw st (handleGamepadButton st (Z.of_nat k))); done.
Qed.

End GamepadExtras.

(** ** Toasts *)

Section ToastExtras.

Lemma filter_keeps (t : nat) (l : list nat) :
  t ∉ l -> filter (fun x => x <> t) l = l.
Proof.
  induction l as [| x l IH]; intros Hnot; [reflexivity |].
  apply not_elem_of_cons in Hnot as [Hne Hnot].
  rewrite filter_cons_True by congruence. rewrite (IH Hnot). reflexivity.
Qed.

(** What [expire] does to a list without repetitions. *)
Lemma expire_toasts (a : Ambient.t) (toast : nat) :
  NoDup (Ambient.toasts a) ->
  Ambient.toasts (Ambient.expire a toast)
  = filter (fun x => x <> toast) (Ambient.toasts a).
Proof.
  intros Hnd.
  destruct (decide (toast ∈ Ambient.toasts a)) as [Hin | Hnot].
  - pose proof (indexOf_elem _ _ Hin) as Hidx.
    destruct (indexOf_found _ _ Hidx) as (pre & post & E & Hpre & _ & Hsp).
    unfold Ambient.expire.
    destruct (-1 <? JS.indexOf (Ambient.toasts a) toast) eqn:E';
      [| apply Z.ltb_ge in E'; lia].
    simpl. rewrite Hsp, E.
    rewrite E in Hnd. apply NoDup_app in Hnd as (_ & _ & Hnd2).
    apply NoDup_cons in Hnd2 as [Hpost _].
    rewrite filter_app, filter_cons_False by (intros Hne; congruence).
    rewrite (filter_keeps toast pre Hpre), (filter_keeps toast post Hpost).
    reflexivity.
  - unfold Ambient.expire. rewrite (indexOf_notin _ _ Hnot). simpl.
    rewrite (filter_keeps toast _ Hnot). reflexivity.
Qed.

Lemma expire_objects (a : Ambient.t) (toast : nat) :
  Ambient.toastObjects (Ambient.expire a toast) = Ambient.toastObjects a.
Proof.
  unfold Ambient.expire.
  destruct (-1 <? JS.indexOf (Ambient.toasts a) toast); reflexivity.
Qed.

(** X27: a toast's timer takes that toast off the list and nothing else.
    On a list without repetitions, [expire] for a toast leaves the other
    toasts in their order; it changes nothing when the toast is not on the
    list, so a timer that fires a second time is harmless; and the list
    stays without repetitions. *)
Theorem toast_expires_alone (a : Ambient.t) (toast : nat) :
  toastsOk a ->
  Ambient.toasts (Ambient.expire a toast)
  = filter (fun x => x <> toast) (Ambient.toasts a)
  /\ toastsOk (Ambient.expire a toast)
  /\ Ambient.expire (Ambient.expire a toast) toast = Ambient.expire a toast
  /\ (toast ∉ Ambient.toasts a -> Ambient.expire a toast = a).
Proof.
  intros [Hnd Hdom].
  pose proof (expire_toasts a toast Hnd) as Hexp.
  assert (Hgone : toast ∉ Ambient.toasts (Ambient.expire a toast)).
  { rewrite Hexp. intros Hin. apply list_elem_of_filter in Hin as [Hne _].
    congruence. }
  split; [exact Hexp |]. split; [| split].
  - split.
    + rewrite Hexp. apply NoDup_filter, Hnd.
    + intros t Ht. rewrite expire_objects. apply Hdom.
      rewrite Hexp in Ht. apply list_elem_of_filter in Ht as [_ Ht]. exact Ht.
  - unfold Ambient.expire at 1. rewrite (indexOf_notin _ _ Hgone). reflexivity.
  - intros Hnot. unfold Ambient.expire. rewrite (indexOf_notin _ _ Hnot).
    reflexivity.
Qed.

Lemma new_toastsOk : toastsOk Ambient.new.
Proof. split; [apply NoDup_nil_2 | intros t Ht; inversion Ht]. Qed.

Lemma showToast_toastsOk (a : Ambient.t) message type duration :
  toastsOk a -> toastsOk (snd (Ambient.showToast a message type duration)).
Proof.
  intros [Hnd Hdom].
  assert (Hfresh : fresh (dom (Ambient.toastObjects a))
                   ∉ dom (Ambient.toastObjects a)) by apply is_fresh.
  split; simpl.
  - apply NoDup_app. split; [exact Hnd |]. split; [| apply NoDup_singleton].
    intros x Hx Hx'. apply list_elem_of_singleton in Hx'. subst x.
    apply Hfresh, Hdom, Hx.
  - intros t Ht. rewrite dom_insert. apply elem_of_union.
    apply elem_of_app in Ht as [Ht | Ht].
    + right. apply Hdom, Ht.
    + left. apply list_elem_of_singleton in Ht. subst t.
      apply elem_of_singleton. reflexivity.
Qed.

(** X28: [showToast] puts a new toast at the end of the list and sets its
    timer; when the timer fires the list is as it was before.  The toast
    returned is not one that is on the list; it gets the type [info] and
    the duration 3000 when none is given; the list stays without
    repetitions; and toasts shown in between do not change which toast the
    timer removes. *)
Theorem toast_shown_then_expired (a : Ambient.t) (message : string)
    (type : option string) (duration : option Q) :
  toastsOk a ->
  let toast := fst (Ambient.showToast a message type duration) in
  let a1 := snd (Ambient.showToast a message type duration) in
  (toast ∉ Ambient.toasts a)
  /\ Ambient.toasts a1 = Ambient.toasts a ++ [toast]
  /\ Ambient.toastObjects a1 !! toast
     = Some (Toast.mk message (default "info" type) (default 3000%Q duration))
  /\ Ambient.timers a1
     = Ambient.timers a ++ [(toast, default 3000%Q duration)]
  /\ toastsOk a1
  /\ Ambient.toasts (Ambient.expire a1 toast) = Ambient.toasts a
  /\ forall message' type' duration',
       Ambient.toasts
         (Ambient.expire
            (snd (Ambient.showToast a1 message' type' duration')) toast)
       = Ambient.toasts a
         ++ [fst (Ambient.showToast a1 message' type' duration')].
Proof.
  intros [Hnd Hdom] toast a1.
  assert (Hfresh : toast ∉ dom (Ambient.toastObjects a)) by apply is_fresh.
  assert (Hnew : toast ∉ Ambient.toasts a).
  { intros Hin. apply Hfresh, Hdom, Hin. }
  assert (Hlist : Ambient.toasts a1 = Ambient.toasts a ++ [toast]) by reflexivity.
  assert (Hok1 : toastsOk a1)
    by (apply showToast_toastsOk; split; [exact Hnd | exact Hdom]).
  split; [exact Hnew |]. split; [exact Hlist |]. split.
  { unfold a1, toast, Ambient.showToast. simpl. rewrite lookup_insert_eq.
    destruct type, duration; reflexivity. }
  split. { unfold a1, toast, Ambient.showToast. simpl. destruct duration; reflexivity. }
  split; [exact Hok1 |]. split.
  - rewrite (expire_toasts a1 toast (proj1 Hok1)).
    rewrite Hlist, filter_app, (filter_keeps toast _ Hnew).
    rewrite filter_cons_False by (intros Hne; congruence).
    rewrite filter_nil, app_nil_r. reflexivity.
  - intros message' type' duration'.
    set (toast' := fst (Ambient.showToast a1 message' type' duration')).
    set (a2 := snd (Ambient.showToast a1 message' type' duration')).
    assert (Hfresh' : toast' ∉ dom (Ambient.toastObjects a1)) by apply is_fresh.
    assert (Hne : toast' <> toast).
    { intros E. apply Hfresh'. rewrite E. destruct Hok1 as [_ Hdom1].
      apply Hdom1. rewrite Hlist. apply elem_of_app. right.
      apply list_elem_of_singleton. reflexivity. }
    assert (Hlist2 : Ambient.toasts a2 = (Ambient.toasts a ++ [toast]) ++ [toast'])
      by reflexivity.
    assert (Hok2 : toastsOk a2) by (apply showToast_toastsOk; exact Hok1).
    rewrite (expire_toasts a2 toast (proj1 Hok2)).
    rewrite Hlist2, !filter_app, (filter_keeps toast _ Hnew).
    rewrite filter_cons_False by (intros Hx; congruence).
    rewrite filter_nil, app_nil_r.
    rewrite filter_cons_True by exact Hne. reflexivity.
Qed.

End ToastExtras.

(** ** Word wrap *)

Section WrapExtras.

Variable measure : string -> Q.

Lemma word_line_not_empty (a w : string) : a +:+ w +:+ " " <> EmptyString.
Proof.
  intros E. apply (f_equal String.length) in E.
  rewrite !length_append in E. simpl in E. lia.
Qed.

Lemma split_not_nil (s : string) : JS.split s <> [].
Proof.
  induction s as [| c s IH]; simpl; [discriminate |].
  destruct (Ascii.eqb c Ascii.Space); [discriminate |].
  destruct (JS.split s); discriminate.
Qed.

(** The text of the lines is the line begun, then every word with a space. *)
Lemma wrapLines_glue (mw : Q) (words : list string) : forall line,
  glue (Wrap.wrapLines measure mw line words)
  = line +:+ glue (map (fun w => w +:+ " ") words).
Proof.
  induction words as [| w words IH]; intros line; simpl.
  - reflexivity.
  - destruct (Wrap.breaks measure mw line w); simpl.
    + rewrite IH. reflexivity.
    + rewrite IH, !append_assoc. reflexivity.
Qed.

(** The constructor's count is the number of lines [draw] makes. *)
Lemma countLines_length (mw : Q) (words : list string) : forall line lineCount,
  Wrap.countLines measure mw line lineCount words
  = lineCount - 1 + Z.of_nat (length (Wrap.wrapLines measure mw line words)).
Proof.
  induction words as [| w words IH]; intros line lineCount; simpl; [lia |].
  destruct (Wrap.breaks measure mw line w); rewrite IH; simpl length; lia.
Qed.

Lemma wrapLines_fit (mw : Q) (W : list string) (words : list string) :
  forall line,
  let ok l := (measure l <= mw)%Q \/ exists w, w ∈ W /\ l = w +:+ " " in
  line = EmptyString \/ ok line ->
  words <> [] \/ ok line ->
  (forall w, w ∈ words -> w ∈ W) ->
  Forall ok (Wrap.wrapLines measure mw line words).
Proof.
  induction words as [| w words IH]; intros line ok Hline Hend Hsub; simpl.
  - apply Forall_cons. split; [| apply Forall_nil_2].
    destruct Hend as [Hne | Hok]; [congruence | exact Hok].
  - assert (Hw : w ∈ W) by (apply Hsub; left).
    assert (Hsub' : forall w', w' ∈ words -> w' ∈ W)
      by (intros w' Hw'; apply Hsub; right; exact Hw').
    assert (Hsingle : ok (w +:+ " ")) by (right; exists w; done).
    unfold Wrap.breaks, JS.ltb.
    destruct (Qle_bool (measure (line +:+ w +:+ " ")) mw) eqn:Efit; simpl.
    + apply Qle_bool_iff in Efit. apply IH; [right | right | exact Hsub'];
        left; exact Efit.
    + destruct (String.eqb line EmptyString) eqn:Eline; simpl.
      * apply String.eqb_eq in Eline. subst line.
        apply IH; [right | right | exact Hsub']; exact Hsingle.
      * apply String.eqb_neq in Eline. apply Forall_cons. split.
        -- destruct Hline as [E | Hok]; [congruence | exact Hok].
        -- apply IH; [right | right | exact Hsub']; exact Hsingle.
Qed.

Lemma wrapLines_not_empty (mw : Q) (words : list string) : forall line,
  words <> [] \/ line <> EmptyString ->
  Forall (fun l => l <> EmptyString) (Wrap.wrapLines measure mw line words).
Proof.
  induction words as [| w words IH]; intros line Hne; simpl.
  - apply Forall_cons. split; [| apply Forall_nil_2].
    destruct Hne as [Hne | Hne]; [congruence | exact Hne].
  - unfold Wrap.breaks.
    destruct (JS.ltb mw (measure (line +:+ w +:+ " "))); simpl.
    + destruct (String.eqb line EmptyString) eqn:Eline; simpl.
      * apply IH. right. apply word_line_not_empty.
      * apply String.eqb_neq in Eline. apply Forall_cons. split; [exact Eline |].
        apply IH. right. apply (word_line_not_empty EmptyString).
    + apply IH. right. apply word_line_not_empty.
Qed.

(** X29: the word wrap of [Modal.draw] and [Toast.draw] loses no text and
    breaks only where it must.  Whatever the surface measures, the lines
    made for a message, read one after the other, are the words of the
    message each followed by a space, in their order; every line is at most
    [maxWidth] wide unless it is a single word; and no line is empty. *)
Theorem wrap_keeps_words_and_width (maxWidth : Q) (message : string) :
  let lines :=
    Wrap.wrapLines measure maxWidth EmptyString (JS.split message) in
  glue lines = glue (map (fun w => w +:+ " ") (JS.split message))
  /\ Forall (fun l => (measure l <= maxWidth)%Q
                      \/ exists w, w ∈ JS.split message /\ l = w +:+ " ") lines
  /\ Forall (fun l => l <> EmptyString) lines.
Proof.
  intros lines. unfold lines. split; [| split].
  - rewrite wrapLines_glue. reflexivity.
  - apply wrapLines_fit.
    + left. reflexivity.
    + left. apply split_not_nil.
    + intros w Hw. exact Hw.
  - apply wrapLines_not_empty. left. apply split_not_nil.
Qed.

Lemma lineYs_length (lines : list string) : forall y,
  length (Wrap.lineYs y lines) = length lines.
Proof.
  induction lines as [| l lines IH]; intros y; simpl; [reflexivity |].
  rewrite IH. reflexivity.
Qed.

Lemma lineYs_range (lines : list string) : forall y,
  Forall (fun ly => (y <= snd ly
                     /\ snd ly + 25
                        <= y + 25 * inject_Z (Z.of_nat (length lines)))%Q)
         (Wrap.lineYs y lines).
Proof.
  induction lines as [| l lines IH]; intros y; simpl Wrap.lineYs;
    [apply Forall_nil_2 |].
  assert (Hn : (inject_Z (Z.of_nat (length (l :: lines)))
                == inject_Z (Z.of_nat (length lines)) + 1)%Q).
  { simpl length. rewrite Nat2Z.inj_succ. unfold Z.succ.
    rewrite inject_Z_plus. reflexivity. }
  assert (Hpos : (0 <= inject_Z (Z.of_nat (length lines)))%Q).
  { change 0%Q with (inject_Z 0). rewrite <- Zle_Qle. lia. }
  apply Forall_cons. split.
  - simpl snd. rewrite Hn. split; lra.
  - eapply Forall_impl; [apply (IH (y + 25)%Q) |].
    intros [l' ly] [H1 H2]. simpl snd in *. rewrite Hn. split; lra.
Qed.

(** X30: a modal that sizes itself is high enough for its message.  When no
    width is given, the line count the constructor finds is the number of
    lines [draw] makes, both measuring with the same font; and unless the
    height was cut to eight tenths of the canvas, every message line starts
    at or below [y + 80] and ends, 25 further down, above the row of
    buttons. *)
Theorem modal_height_fits_message (self : nat) (cw ch : Q) (ttl msg : string)
    (bs : list Modal.button) (oh : option Q) :
  let d := Wrap.newModal measure self cw ch ttl msg bs None oh in
  let lines := Wrap.modalLines measure d in
  Z.of_nat (length lines)
  = Wrap.countLines measure (JS.min 600 (cw * (8 # 10)) - 40)%Q EmptyString 1
                    (JS.split msg)
  /\ ((190 + 25 * inject_Z (Z.of_nat (length lines)) <= ch * (8 # 10))%Q ->
      Forall (fun ly => (Modal.y d + 80 <= snd ly
                         /\ snd ly + 25 <= Modal.buttonsY d)%Q) lines).
Proof.
  intros d lines.
  set (mw := (JS.min 600 (cw * (8 # 10)) - 40)%Q).
  set (ws := Wrap.wrapLines measure mw EmptyString (JS.split msg)).
  assert (Hlines : lines = Wrap.lineYs (Modal.y d + 80)%Q ws) by reflexivity.
  assert (Hlen : length lines = length ws)
    by (rewrite Hlines; apply lineYs_length).
  assert (Hcount : Wrap.countLines measure mw EmptyString 1 (JS.split msg)
                   = Z.of_nat (length ws)).
  { rewrite countLines_length. fold ws. lia. }
  split; [rewrite Hlen, Hcount; reflexivity |].
  rewrite Hlen. intros Hroom. rewrite Hlines.
  eapply Forall_impl; [apply lineYs_range |].
  intros [l ly] [H1 H2]. simpl snd in *. split; [exact H1 |].
  assert (Hh : (190 + 25 * inject_Z (Z.of_nat (length ws)) <= Modal.height d)%Q).
  { unfold d, Wrap.newModal, Modal.new, Modal.size. simpl.
    fold mw. rewrite Hcount.
    set (body := (60 + (inject_Z (Z.of_nat (length ws)) * 25 + 40) + 90)%Q).
    assert (Hbody : (body <= ch * (8 # 10))%Q) by (unfold body; lra).
    destruct (min_cases body (ch * (8 # 10))) as [[Eb Hb] | [Eb Hb]];
      destruct (max_cases 200 (JS.min body (ch * (8 # 10)))) as [[Eh He] | [Eh He]];
      rewrite Eh, ?Eb; unfold body in *; lra. }
  assert (Hby : (Modal.buttonsY d == Modal.y d + Modal.height d - 70)%Q).
  { unfold Modal.buttonsY.
    assert (Ebh : Modal.buttonHeight d = 50%Q).
    { unfold d, Wrap.newModal, Modal.new.
      destruct (Modal.size cw ch None oh _). reflexivity. }
    rewrite Ebh. ring. }
  rewrite Hby. lra.
Qed.

End WrapExtras.

(** ** The further properties on the sample states *)

Section MoreSamples.

Import CanvasUIMark.

(** Tab and Shift+Tab on the three sample controls. *)
Lemma focus_next_previous_inverse_witness :
  focusPrevious (focusNext sampleUI) = sampleUI
  /\ focusNext (focusPrevious sampleUI) = sampleUI.
Proof.
  apply (focus_next_previous_inverse sampleUI).
  - vm_compute. discriminate.
  - vm_compute. split; discriminate.
Defined.

Lemma seven_is_new : 7%nat ∉ controls sampleUI.
Proof.
  intros Hin. apply list_elem_of_In in Hin. vm_compute in Hin.
  intuition discriminate.
Qed.

(** A fourth control, added to the sample and removed again. *)
Lemma add_then_remove_witness :
  removeControl (addControl sampleUI 7%nat) 7%nat = sampleUI.
Proof.
  apply (add_then_remove sampleUI 7%nat sampleUI_focusOk seven_is_new).
Defined.

(** Enter goes to the focused lower button; the upper button is as it was. *)
Lemma unfocused_controls_untouched_witness :
  objects (dispatch sampleUI (KeyDown (plainKey "Enter"))) !! 1%nat
  = objects sampleUI !! 1%nat.
Proof.
  apply (unfocused_controls_untouched sampleUI (KeyDown (plainKey "Enter")) 1%nat).
  - intros rect e. discriminate.
  - vm_compute. discriminate.
Defined.

(** Tab on the sample: the focus goes from the first control to the second. *)
Lemma tab_and_escape_stay_with_manager_witness :
  objects (handleKeyDown sampleUI (plainKey "Tab")) = objects sampleUI
  /\ controls (handleKeyDown sampleUI (plainKey "Tab")) = controls sampleUI
  /\ log (handleKeyDown sampleUI (plainKey "Tab")) = log sampleUI
  /\ focusIndex (handleKeyDown sampleUI (plainKey "Tab"))
     = focusIndex (focusNext sampleUI).
Proof.
  destruct (tab_and_escape_stay_with_manager sampleUI (plainKey "Tab") eq_refl)
    as [Htab _].
  exact (Htab eq_refl).
Defined.

(** The paused dialog and its reference. *)
Lemma paused_dialog :
  dialogs pausedUI !! fst (showModal sampleUI "Paused" "Game is paused"
                                     resumeExit None None 1)
  = Some (Modal.new (fst (showModal sampleUI "Paused" "Game is paused"
                                    resumeExit None None 1))
                    800 600 "Paused" "Game is paused" resumeExit None None 1).
Proof. vm_compute. reflexivity. Qed.

(** A click in the corner of the canvas, outside the paused dialog. *)
Lemma modal_click_picks_button_witness :
  Modal_handleClick pausedUI
    (fst (showModal sampleUI "Paused" "Game is paused" resumeExit None None 1))
    0 0
  = pausedUI.
Proof.
  destruct (modal_click_picks_button pausedUI _ _ 0 0 paused_dialog) as [_ Hmiss].
  - vm_compute. discriminate.
  - vm_compute. reflexivity.
  - apply Hmiss. intros k Hk. simpl in Hk.
    destruct k as [| [| k]]; [vm_compute; reflexivity .. | lia].
Defined.

(** ArrowRight and then ArrowLeft on the paused dialog. *)
Lemma modal_arrows_cycle_witness :
  dialogs (Modal_handleKeyDown
             (Modal_handleKeyDown pausedUI
                (fst (showModal sampleUI "Paused" "Game is paused" resumeExit
                                None None 1))
                (plainKey "ArrowRight"))
             (fst (showModal sampleUI "Paused" "Game is paused" resumeExit
                             None None 1))
             (plainKey "ArrowLeft"))
    !! fst (showModal sampleUI "Paused" "Game is paused" resumeExit None None 1)
  = Some (Modal.new (fst (showModal sampleUI "Paused" "Game is paused"
                                    resumeExit None None 1))
                    800 600 "Paused" "Game is paused" resumeExit None None 1).
Proof.
  destruct (modal_arrows_cycle pausedUI _ _ (plainKey "ArrowRight")
              (plainKey "ArrowLeft") paused_dialog) as (_ & _ & Hback).
  - vm_compute. split; [discriminate | reflexivity].
  - reflexivity.
  - reflexivity.
  - exact Hback.
Defined.

(** A dialog shown over the sample and closed again. *)
Lemma modals_are_a_stack_witness :
  topModal (snd (showModal sampleUI "Notice" "Saved" [] None None 1))
  = Some (fst (showModal sampleUI "Notice" "Saved" [] None None 1))
  /\ topModal (closeModal (snd (showModal sampleUI "Notice" "Saved" [] None None 1))
                          (fst (showModal sampleUI "Notice" "Saved" [] None None 1)))
     = topModal sampleUI.
Proof.
  destruct (modals_are_a_stack sampleUI "Notice" "Saved" [] None None 1
              sampleUI_stackOk) as (Htop & Hclose & _).
  split; [exact Htop | exact Hclose].
Defined.

(** A click on the sample where the two buttons overlap. *)
Lemma click_never_lands_on_panel_witness :
  handleClick sampleUI sampleRect (mkMouse 75 75) = sampleUI
  \/ exists i r w px py,
       getCanvasMousePosition sampleUI sampleRect (mkMouse 75 75) = Some (px, py)
       /\ focusIndex (handleClick sampleUI sampleRect (mkMouse 75 75)) = Z.of_nat i
       /\ controls sampleUI !! i = Some r /\ objects sampleUI !! r = Some w
       /\ (forall c, w <> Panel c)
       /\ Control.containsPoint (Widget.base w) px py = true.
Proof.
  apply (click_never_lands_on_panel sampleUI sampleRect (mkMouse 75 75)).
  reflexivity.
Defined.

End MoreSamples.

Section FurtherSamples.

Import CanvasUIMark.

(** Removing the second of the three sample controls. *)
Lemma remove_takes_first_occurrence_witness :
  exists pre post,
    controls sampleUI = pre ++ 1%nat :: post /\ (1%nat ∉ pre)
    /\ controls (removeControl sampleUI 1%nat) = pre ++ post.
Proof.
  destruct (remove_takes_first_occurrence sampleUI 1%nat) as [_ Hin].
  apply Hin. vm_compute. right. left.
Defined.

(** The paused dialog on the 800 by 600 canvas starts inside it. *)
Lemma modal_is_centred_witness :
  (0 <= Modal.x (Modal.new 0 800 600 "Paused" "Game is paused" resumeExit
                           None None 1))%Q.
Proof.
  destruct (modal_is_centred 0 800 600 "Paused" "Game is paused" resumeExit
              None None 1) as (_ & _ & Hx & _).
  apply Hx. vm_compute. discriminate.
Defined.


(** A pad with its first button held over two polls: the second poll
    makes no call. *)
Lemma gamepad_acts_on_press_only_witness :
  fst (Ambient.updateGamepad
         (fst (Ambient.updateGamepad sampleUI Ambient.new
                 (Some [None; Some [true; false]])))
         (snd (Ambient.updateGamepad sampleUI Ambient.new
                 (Some [None; Some [true; false]])))
         (Some [None; Some [true; false]]))
  = fst (Ambient.updateGamepad sampleUI Ambient.new
           (Some [None; Some [true; false]])).
Proof.
  destruct (gamepad_acts_on_press_only
              (fst (Ambient.updateGamepad sampleUI Ambient.new
                      (Some [None; Some [true; false]])))
              (snd (Ambient.updateGamepad sampleUI Ambient.new
                      (Some [None; Some [true; false]])))
              [None; Some [true; false]] [true; false] eq_refl) as [Hheld _].
  destruct Hheld as [Hst _]; [| exact Hst].
  intros k Hk. destruct k as [| [| k]]; [reflexivity | discriminate | discriminate].
Defined.

Lemma one_toast_ok : toastsOk (snd (Ambient.showToast Ambient.new "Saved" None None)).
Proof. apply showToast_toastsOk, new_toastsOk. Qed.

(** One toast, and its timer firing twice. *)
Lemma toast_expires_alone_witness :
  Ambient.expire
    (Ambient.expire (snd (Ambient.showToast Ambient.new "Saved" None None))
                    (fst (Ambient.showToast Ambient.new "Saved" None None)))
    (fst (Ambient.showToast Ambient.new "Saved" None None))
  = Ambient.expire (snd (Ambient.showToast Ambient.new "Saved" None None))
                   (fst (Ambient.showToast Ambient.new "Saved" None None)).
Proof.
  destruct (toast_expires_alone
              (snd (Ambient.showToast Ambient.new "Saved" None None))
              (fst (Ambient.showToast Ambient.new "Saved" None None))
              one_toast_ok) as (_ & _ & Htwice & _).
  exact Htwice.
Defined.

(** A second toast, shown and expired: the first is left. *)
Lemma toast_shown_then_expired_witness :
  Ambient.toasts
    (Ambient.expire
       (snd (Ambient.showToast
               (snd (Ambient.showToast Ambient.new "Saved" None None))
               "Loaded" (Some "success") (Some 1000%Q)))
       (fst (Ambient.showToast
               (snd (Ambient.showToast Ambient.new "Saved" None None))
               "Loaded" (Some "success") (Some 1000%Q))))
  = Ambient.toasts (snd (Ambient.showToast Ambient.new "Saved" None None)).
Proof.
  destruct (toast_shown_then_expired
              (snd (Ambient.showToast Ambient.new "Saved" None None))
              "Loaded" (Some "success") (Some 1000%Q) one_toast_ok)
    as (_ & _ & _ & _ & _ & Hback & _).
  exact Hback.
Defined.

(** The paused dialog with characters ten wide: one line, above the
    buttons. *)
Lemma modal_height_fits_message_witness :
  Forall (fun ly =>
            (Modal.y (Wrap.newModal tenWide 0 800 600 "Paused" "Game is paused"
                                    resumeExit None None) + 80 <= snd ly
             /\ snd ly + 25
                <= Modal.buttonsY
                     (Wrap.newModal tenWide 0 800 600 "Paused" "Game is paused"
                                    resumeExit None None))%Q)
         (Wrap.modalLines tenWide
            (Wrap.newModal tenWide 0 800 600 "Paused" "Game is paused"
                           resumeExit None None)).
Proof.
  destruct (modal_height_fits_message tenWide 0 800 600 "Paused"
              "Game is paused" resumeExit None) as [_ Hfit].
  apply Hfit. vm_compute. discriminate.
Defined.

(** A menu without items throws on Enter. *)
Lemma menu_activation_throws_witness :
  Menu.handleKeyDown (Menu.new 0 0 100 30 [] None None 10) (plainKey "Enter")
  = None.
Proof.
  destruct (menu_activation_throws (Menu.new 0 0 100 30 [] None None 10)
              (plainKey "Enter")) as (_ & Hkey & Hempty).
  rewrite Hkey by (left; reflexivity).
  apply Hempty. reflexivity.
Defined.

End FurtherSamples.
